(** * One-off jobs for explorations (core/domain/exp_jobs_one_off.py)

    A shallow embedding of the map/reduce one-off jobs of
    [src/core/domain/exp_jobs_one_off.py].  Every job class of the module
    provides a generator [map(item)] and a generator [reduce(key, values)];
    both are embedded as computations in a small monad that threads the
    datastore, records what the generator yields and carries exceptions.

    Conventions of the embedding:
    - Python [str]/[unicode] values are byte strings ([string]); encoding to
      UTF-8 is the identity.
    - Python integers are [Z]; [datetime] values are [Z] microseconds.
    - Only exceptions deriving from [Exception] are modelled.
    - The domain services of the host application (exp_fetchers,
      rights_manager, exp_services, html_validation_service, ...), the
      constants of feconf and the builtins [ast.literal_eval], [str] and [==]
      on JSON values are not part of the file: they are the fields of the
      class [Host]. *)

From Stdlib Require Import ZArith Lia Bool Ascii.
From stdpp Require Import base gmap strings list list_numbers sorting pretty.

Local Open Scope Z_scope.
Set Warnings "-register-all".

(** ** Python values *)

(** The fragment of Python literals that the jobs handle: what
    [ast.literal_eval] returns and what the generators yield. A dictionary is
    kept as the list of its items in insertion order, with distinct keys. *)
Inductive pyval : Type :=
| PNone
| PInt (z : Z)
| PStr (s : string)
| PList (l : list pyval)
| PTuple (l : list pyval)
| PDict (d : list (pyval * pyval)).

(** Exception classes raised or caught on the paths of this module. *)
Inductive exn_class : Type :=
| ValidationError
| AttributeError
| IndexError
| KeyError
| TypeError
| ValueError
| EntityNotFoundError
| OtherException.

Global Instance exn_class_eq_dec : EqDecision exn_class.
Proof. solve_decision. Defined.

(** An exception instance: its class and [str(e)]. *)
Record exn : Type := Exn { exn_cls : exn_class; exn_str : string }.

(** How a call ends. [Unmodelled] marks the two places where the embedding
    fixes no behaviour: a [while] loop that ran out of the fuel given to it,
    and [list.sort] on values whose order this fragment does not define. *)
Inductive result (A : Type) : Type :=
| Returned (a : A)
| Raised (e : exn)
| Unmodelled.
Arguments Returned {A} a.
Arguments Raised {A} e.
Arguments Unmodelled {A}.

(** ** Persisted models (core.platform.models, exploration storage) *)

Module ExplorationModel.
Record t : Type := mk {
  id : string;
  deleted : bool;
  version : Z;
  title : string;
  states_schema_version : Z;
  states : pyval
}.
End ExplorationModel.

Module ExplorationRightsModel.
Record t : Type := mk {
  status : string;
  community_owned : bool;
  created_on : Z
}.
End ExplorationRightsModel.

Module ExplorationSnapshotMetadataModel.
Record t : Type := mk {
  committer_id : string;
  commit_type : string;
  commit_message : string;
  commit_cmds : pyval;
  created_on : Z;
  last_updated : Z
}.
End ExplorationSnapshotMetadataModel.

Module ExplorationCommitLogEntryModel.
Record t : Type := mk {
  id : string;
  user_id : string;
  commit_type : string;
  commit_message : string;
  commit_cmds : pyval;
  version : Z;
  post_commit_status : string;
  post_commit_community_owned : bool;
  post_commit_is_private : bool;
  exploration_id : string;
  created_on : option Z;
  last_updated : option Z
}.
End ExplorationCommitLogEntryModel.

(** The datastore: one table per model class the module touches. Commit log
    entries and snapshot metadata are keyed by their string id, rights models
    by entity id and version. *)
Record store : Type := Store {
  explorations : gmap string ExplorationModel.t;
  rights_models : gmap (string * Z) ExplorationRightsModel.t;
  snapshot_metadata : gmap string ExplorationSnapshotMetadataModel.t;
  commit_log_entries : gmap string ExplorationCommitLogEntryModel.t
}.

(** One access of the datastore, as recorded in the trace of a run. *)
Inductive ds_op : Type :=
| DsGet (model : string) (key : string)
| DsPut (model : string) (key : string)
| DsServiceRead (service : string) (key : string)
| DsServiceWrite (service : string) (key : string).

(** The accesses that write. *)
Definition is_write (op : ds_op) : bool :=
  match op with
  | DsPut _ _ | DsServiceWrite _ _ => true
  | DsGet _ _ | DsServiceRead _ _ => false
  end.

(** What a generator runs in: the datastore, the trace of the accesses made
    so far and the lines given to [logging]. *)
Record world : Type := World {
  datastore : store;
  ds_trace : list ds_op;
  logged : list string
}.

(** ** The generator monad *)

(** A run of a generator from a world: how it ended, the (key, value) pairs it
    yielded, in order, and the world it left. *)
Record outcome (A : Type) : Type := Outcome {
  res : result A;
  yielded : list (string * pyval);
  after : world
}.
Arguments Outcome {A} res yielded after.
Arguments res {A} o.
Arguments yielded {A} o.
Arguments after {A} o.

Definition gen (A : Type) : Type := world -> outcome A.

Definition ret {A} (a : A) : gen A :=
  fun w => Outcome (Returned a) [] w.

Definition bind {A B} (m : gen A) (k : A -> gen B) : gen B :=
  fun w =>
    let o := m w in
    match res o with
    | Returned a =>
        let o' := k a (after o) in
        Outcome (res o') (yielded o ++ yielded o') (after o')
    | Raised e => Outcome (Raised e) (yielded o) (after o)
    | Unmodelled => Outcome Unmodelled (yielded o) (after o)
    end.

Declare Scope gen_scope.
Delimit Scope gen_scope with gen.
Notation "x <- m ;; k" := (bind m (fun x => k))
  (at level 100, m at next level, right associativity) : gen_scope.
Notation "m ;; k" := (bind m (fun _ => k))
  (at level 100, right associativity) : gen_scope.
Local Open Scope gen_scope.

(** [raise e] *)
Definition raise {A} (e : exn) : gen A :=
  fun w => Outcome (Raised e) [] w.

(** Outside the modelled fragment. *)
Definition unmodelled {A} : gen A :=
  fun w => Outcome Unmodelled [] w.

(** [yield (key, value)] *)
Definition yield (key : string) (value : pyval) : gen unit :=
  fun w => Outcome (Returned tt) [(key, value)] w.

(** [try: body  except Exception as e: handler(e)]. The pairs yielded by the
    body before it raised stay yielded. A handler that re-raises models an
    [except] clause for a narrower class. *)
Definition try_except {A} (body : gen A) (handler : exn -> gen A) : gen A :=
  fun w =>
    let o := body w in
    match res o with
    | Raised e =>
        let o' := handler e (after o) in
        Outcome (res o') (yielded o ++ yielded o') (after o')
    | _ => o
    end.

(** A call of a function that returns or raises, without effect. *)
Definition call {A} (r : exn + A) : gen A :=
  match r with
  | inr a => ret a
  | inl e => raise e
  end.

Definition get_store : gen store :=
  fun w => Outcome (Returned (datastore w)) [] w.

Definition set_store (s : store) : gen unit :=
  fun w => Outcome (Returned tt) [] (World s (ds_trace w) (logged w)).

Definition trace (op : ds_op) : gen unit :=
  fun w => Outcome (Returned tt) [] (World (datastore w) (ds_trace w ++ [op]) (logged w)).

(** [logging.error(msg)], [logging.exception(msg)] *)
Definition logging (msg : string) : gen unit :=
  fun w => Outcome (Returned tt) [] (World (datastore w) (ds_trace w) (logged w ++ [msg])).

(** [for x in xs: body(x)] without [break]. *)
Fixpoint for_each {A} (xs : list A) (body : A -> gen unit) : gen unit :=
  match xs with
  | [] => ret tt
  | x :: xs' => body x ;; for_each xs' body
  end.

(** ** Python builtins on the fragment *)

Definition type_error {A} (msg : string) : exn + A := inl (Exn TypeError msg).

(** [hash(v)] is defined: [v] may be a dictionary key. *)
Fixpoint hashable (v : pyval) : bool :=
  match v with
  | PNone | PInt _ | PStr _ => true
  | PTuple l => forallb hashable l
  | PList _ | PDict _ => false
  end.

(** [a == b] on hashable values, as dictionary lookup uses it. *)
Fixpoint key_eqb (a b : pyval) : bool :=
  match a, b with
  | PNone, PNone => true
  | PInt x, PInt y => (x =? y)%Z
  | PStr x, PStr y => String.eqb x y
  | PTuple x, PTuple y =>
      (fix go (x y : list pyval) : bool :=
         match x, y with
         | [], [] => true
         | a' :: x', b' :: y' => key_eqb a' b' && go x' y'
         | _, _ => false
         end) x y
  | _, _ => false
  end.

(** [d.get(k)] on the item list of a dictionary. *)
Fixpoint dict_lookup (d : list (pyval * pyval)) (k : pyval) : option pyval :=
  match d with
  | [] => None
  | (k', v) :: d' => if key_eqb k' k then Some v else dict_lookup d' k
  end.

(** [d[k] = v]: an existing key keeps its place, a new one goes last. *)
Fixpoint dict_set (d : list (pyval * pyval)) (k v : pyval) : list (pyval * pyval) :=
  match d with
  | [] => [(k, v)]
  | (k', v') :: d' =>
      if key_eqb k' k then (k', v) :: d' else (k', v') :: dict_set d' k v
  end.

(** [del d[k]] on the item list. *)
Fixpoint dict_remove (d : list (pyval * pyval)) (k : pyval) : list (pyval * pyval) :=
  match d with
  | [] => []
  | (k', v') :: d' =>
      if key_eqb k' k then d' else (k', v') :: dict_remove d' k
  end.

(** The one-character strings of a string, as iterating it gives them. *)
Fixpoint chars (s : string) : list pyval :=
  match s with
  | EmptyString => []
  | String c s' => PStr (String c EmptyString) :: chars s'
  end.

(** [iter(v)]: the sequence a [for] loop or an unpacking goes through. *)
Definition py_iter (v : pyval) : exn + list pyval :=
  match v with
  | PList l | PTuple l => inr l
  | PDict d => inr (d.*1)
  | PStr s => inr (chars s)
  | PNone => type_error "'NoneType' object is not iterable"
  | PInt _ => type_error "'int' object is not iterable"
  end.

(** [a, b = v] *)
Definition unpack2 (v : pyval) : exn + (pyval * pyval) :=
  match py_iter v with
  | inl e => inl e
  | inr [a; b] => inr (a, b)
  | inr [] | inr [_] => inl (Exn ValueError "need more than 1 value to unpack")
  | inr _ => inl (Exn ValueError "too many values to unpack")
  end.

(** [v[k]] for a string [k]. *)
Definition getitem_str (v : pyval) (k : string) : exn + pyval :=
  match v with
  | PDict d =>
      match dict_lookup d (PStr k) with
      | Some x => inr x
      | None => inl (Exn KeyError k)
      end
  | PList _ | PTuple _ => type_error "indices must be integers, not str"
  | PStr _ => type_error "string indices must be integers, not str"
  | PNone | PInt _ => type_error "object has no attribute '__getitem__'"
  end.

(** [del v[k]] for a string [k]; the value after the deletion. *)
Definition delitem_str (v : pyval) (k : string) : exn + pyval :=
  match v with
  | PDict d =>
      match dict_lookup d (PStr k) with
      | Some _ => inr (PDict (dict_remove d (PStr k)))
      | None => inl (Exn KeyError k)
      end
  | _ => type_error "object doesn't support item deletion"
  end.

(** [n + v] for an integer [n], as [n += v] computes it; the accumulator of
    the jobs starts as an integer and only integers are added to it. *)
Definition add_int (n : Z) (v : pyval) : exn + Z :=
  match v with
  | PInt z => inr (n + z)
  | _ => type_error "unsupported operand type(s) for +=: 'int'"
  end.

(** [l[i]] for a list and an index that is not negative. *)
Definition list_getitem {A} (l : list A) (i : nat) : exn + A :=
  match l !! i with
  | Some x => inr x
  | None => inl (Exn IndexError "list index out of range")
  end.

(** [sub in s] for strings. *)
Fixpoint contains (sub s : string) : bool :=
  String.prefix sub s ||
  match s with
  | EmptyString => false
  | String _ s' => contains sub s'
  end.

(** ['%s' % n] for an integer. *)
Definition str_of_int (n : Z) : string := pretty n.
Arguments str_of_int : simpl never.

(** [python_utils.RANGE(lo, hi)] *)
Definition RANGE (lo hi : Z) : list Z := seqZ lo (hi - lo).

(** The order of tuples of two strings: [a <= b] in Python, that is [(a < b)
    or (a == b)], strings being compared by their codes, first difference
    first. *)
Definition pair_le (a b : string * string) : Prop :=
  match String.compare a.1 b.1 with
  | Lt => True
  | Eq => String.leb a.2 b.2 = true
  | Gt => False
  end.

Global Instance pair_le_dec : RelDecision pair_le.
Proof.
  intros a b. unfold pair_le.
  destruct (String.compare a.1 b.1); [apply _ | left; exact I | right; tauto].
Defined.

Definition as_str (v : pyval) : option string :=
  match v with
  | PStr s => Some s
  | _ => None
  end.

Definition as_str_pair (p : pyval * pyval) : option (string * string) :=
  a ← as_str p.1; b ← as_str p.2; Some (a, b).

Definition of_str_pair (p : string * string) : pyval * pyval :=
  (PStr p.1, PStr p.2).

(** The order of tuples of two integers: [a <= b] in Python. *)
Definition int_pair_le (a b : Z * Z) : Prop :=
  a.1 < b.1 ∨ (a.1 = b.1 ∧ a.2 ≤ b.2).

Global Instance int_pair_le_dec : RelDecision int_pair_le.
Proof. intros a b. unfold int_pair_le. apply _. Defined.

Definition as_int (v : pyval) : option Z :=
  match v with
  | PInt z => Some z
  | _ => None
  end.

Definition as_int_pair (p : pyval * pyval) : option (Z * Z) :=
  a ← as_int p.1; b ← as_int p.2; Some (a, b).

Definition of_int_pair (p : Z * Z) : pyval * pyval :=
  (PInt p.1, PInt p.2).

(** [[f(x) for x in xs]] where [f] may raise. *)
Fixpoint list_comp {A B} (f : A -> gen B) (xs : list A) : gen (list B) :=
  match xs with
  | [] => ret []
  | x :: xs' => y <- f x ;; ys <- list_comp f xs' ;; ret (y :: ys)
  end.

(** [o.name] for an object that may be [None]. *)
Definition attr {A B} (o : option A) (field : A -> B) (name : string) : exn + B :=
  match o with
  | Some a => inr (field a)
  | None => inl (Exn AttributeError ("'NoneType' object has no attribute '" +:+ name +:+ "'"))
  end.

(** ** The host application *)

(** [rights_domain.ActivityRights], as far as the jobs read it. *)
Record ActivityRights : Type := {
  rights_status : string;
  viewable_if_private : bool
}.

(** The dictionary [versioned_exploration_states] of the migration audit. *)
Record versioned_states : Type := {
  vs_states_schema_version : Z;
  vs_states : pyval
}.

(** [exp_domain.ExplorationChange] for a states schema migration. *)
Record ExplorationChange : Type := {
  cmd : string;
  from_version : string;
  to_version : string
}.

(** The value of a field of a commit log entry, as [getattr] returns it. *)
Inductive field_val : Type :=
| FStr (s : string)
| FInt (z : Z)
| FBool (b : bool)
| FJson (v : pyval)
| FTime (t : option Z).

(** What the module imports and calls but does not define. A function that
    reads the datastore takes the store; one that writes it returns the new
    store. Every call either returns or raises. *)
Class Host : Type := {
  (* feconf, constants, exp_domain; rights_domain.ACTIVITY_STATUS_PRIVATE is
     constants.ACTIVITY_STATUS_PRIVATE *)
  CURRENT_STATE_SCHEMA_VERSION : Z;
  MIGRATION_BOT_USERNAME : string;
  ACTIVITY_STATUS_PRIVATE : string;
  CMD_MIGRATE_STATES_SCHEMA_TO_LATEST_VERSION : string;
  (* exp_domain.Exploration, state_domain.State *)
  exploration : Type;
  state : Type;
  (* exploration.validate(strict) *)
  validate : exploration -> bool -> exn + unit;
  (* exploration.states.items() *)
  states_items : exploration -> list (string * state);
  (* state.get_all_html_content_strings() *)
  state_get_all_html_content_strings : state -> exn + list string;
  (* exploration.get_all_html_content_strings() *)
  get_all_html_content_strings : exploration -> exn + list string;
  (* exp_domain.Exploration.update_states_from_model(versioned, version, id):
     the dictionary as the call leaves it *)
  update_states_from_model : versioned_states -> Z -> string -> exn + versioned_states;
  (* exp_fetchers *)
  get_exploration_from_model : ExplorationModel.t -> exn + exploration;
  get_exploration_by_id : store -> string -> exn + exploration;
  (* rights_manager.get_exploration_rights(id, strict) *)
  get_exploration_rights : store -> string -> bool -> exn + option ActivityRights;
  (* exp_services.update_exploration(committer, id, change_list, message) *)
  update_exploration :
    store -> string -> string -> list ExplorationChange -> string -> exn + store;
  (* html_validation_service *)
  validate_math_content_attribute_in_html : string -> exn + list pyval;
  validate_customization_args : list string -> exn + list (string * list string);
  (* ast.literal_eval, '%s' % v, a == b on JSON values, datetime.utcnow() *)
  literal_eval : string -> exn + pyval;
  py_str : field_val -> string;
  py_eq : pyval -> pyval -> bool;
  (* l.sort() on a list of two or more 2-tuples whose components are neither
     all strings nor all integers: how such values compare is left to the
     Python implementation (Python 2 orders values of different types by an
     arbitrary but consistent rule, Python 3 raises TypeError) *)
  sort_tuples : list (pyval * pyval) -> exn + list (pyval * pyval);
  utcnow : Z
}.

(** [l.sort()] on a list of 2-tuples. Python's sort is stable and compares
    with [<] only. A list of fewer than two elements is left as it is: no
    comparison is made. On tuples of two strings and on tuples of two
    integers the order is fixed by the language, and the sorted list is the
    one the merge sort below gives. For every other list the order is the
    Python implementation's: the host sorts the list, or raises as the
    comparison does. *)
Definition sort_pairs `{Host} (l : list (pyval * pyval)) : gen (list (pyval * pyval)) :=
  match l with
  | [] | [_] => ret l
  | _ =>
      match mapM as_str_pair l, mapM as_int_pair l with
      | Some sl, _ => ret (of_str_pair <$> merge_sort pair_le sl)
      | None, Some il => ret (of_int_pair <$> merge_sort int_pair_le il)
      | None, None => call (sort_tuples l)
      end
  end.

(** ** The storage layer (exp_models) *)

(** Modelled from the spec: the storage layer (exp_models, base_models) is not
    under src/; these are the persisted records of the spec's data model, read
    and written by key. [Model.get_by_id(id)] returns the entity or [None]. *)
Definition SnapshotMetadata_get_by_id (id : string)
  : gen (option ExplorationSnapshotMetadataModel.t) :=
  trace (DsGet "ExplorationSnapshotMetadataModel" id) ;;
  s <- get_store ;;
  ret (snapshot_metadata s !! id).

(** Modelled from the spec: [ExplorationCommitLogEntryModel.get_by_id(id)]. *)
Definition CommitLogEntry_get_by_id (id : string)
  : gen (option ExplorationCommitLogEntryModel.t) :=
  trace (DsGet "ExplorationCommitLogEntryModel" id) ;;
  s <- get_store ;;
  ret (commit_log_entries s !! id).

(** Modelled from the spec: [ExplorationRightsModel.get(id, strict, version)]
    returns the model at that version; when there is none it raises if
    [strict] and returns [None] otherwise. *)
Definition Rights_get (id : string) (strict : bool) (version : Z)
  : gen (option ExplorationRightsModel.t) :=
  trace (DsGet "ExplorationRightsModel" (id +:+ "-" +:+ str_of_int version)) ;;
  s <- get_store ;;
  match rights_models s !! (id, version) with
  | Some m => ret (Some m)
  | None =>
      if strict
      then raise (Exn EntityNotFoundError ("Entity for class ExplorationRightsModel with id " +:+ id +:+ " not found"))
      else ret None
  end.

(** Modelled from the spec: [ExplorationCommitLogEntryModel.create(...)] builds
    the entry (it is not stored yet); its timestamps are unset, and its
    [exploration_id] is the one the caller assigns right after. *)
Definition CommitLogEntry_create `{Host} (entity_id : string) (version : Z)
    (committer_id commit_type commit_message : string) (commit_cmds : pyval)
    (status : string) (community_owned : bool) : ExplorationCommitLogEntryModel.t :=
  {| ExplorationCommitLogEntryModel.id :=
       "exploration-" +:+ entity_id +:+ "-" +:+ str_of_int version;
     ExplorationCommitLogEntryModel.user_id := committer_id;
     ExplorationCommitLogEntryModel.commit_type := commit_type;
     ExplorationCommitLogEntryModel.commit_message := commit_message;
     ExplorationCommitLogEntryModel.commit_cmds := commit_cmds;
     ExplorationCommitLogEntryModel.version := version;
     ExplorationCommitLogEntryModel.post_commit_status := status;
     ExplorationCommitLogEntryModel.post_commit_community_owned := community_owned;
     ExplorationCommitLogEntryModel.post_commit_is_private :=
       String.eqb status ACTIVITY_STATUS_PRIVATE;
     ExplorationCommitLogEntryModel.exploration_id := entity_id;
     ExplorationCommitLogEntryModel.created_on := None;
     ExplorationCommitLogEntryModel.last_updated := None |}.

(** Modelled from the spec: [model.update_timestamps(update_last_updated_time)]
    sets the timestamps that are unset, and [last_updated] when asked to. *)
Definition update_timestamps `{Host} (m : ExplorationCommitLogEntryModel.t)
    (update_last_updated_time : bool) : ExplorationCommitLogEntryModel.t :=
  let created :=
    match ExplorationCommitLogEntryModel.created_on m with
    | None => Some utcnow
    | Some t => Some t
    end in
  let updated :=
    match ExplorationCommitLogEntryModel.last_updated m with
    | None => Some utcnow
    | Some t => if update_last_updated_time then Some utcnow else Some t
    end in
  {| ExplorationCommitLogEntryModel.id := ExplorationCommitLogEntryModel.id m;
     ExplorationCommitLogEntryModel.user_id := ExplorationCommitLogEntryModel.user_id m;
     ExplorationCommitLogEntryModel.commit_type := ExplorationCommitLogEntryModel.commit_type m;
     ExplorationCommitLogEntryModel.commit_message := ExplorationCommitLogEntryModel.commit_message m;
     ExplorationCommitLogEntryModel.commit_cmds := ExplorationCommitLogEntryModel.commit_cmds m;
     ExplorationCommitLogEntryModel.version := ExplorationCommitLogEntryModel.version m;
     ExplorationCommitLogEntryModel.post_commit_status := ExplorationCommitLogEntryModel.post_commit_status m;
     ExplorationCommitLogEntryModel.post_commit_community_owned :=
       ExplorationCommitLogEntryModel.post_commit_community_owned m;
     ExplorationCommitLogEntryModel.post_commit_is_private :=
       ExplorationCommitLogEntryModel.post_commit_is_private m;
     ExplorationCommitLogEntryModel.exploration_id := ExplorationCommitLogEntryModel.exploration_id m;
     ExplorationCommitLogEntryModel.created_on := created;
     ExplorationCommitLogEntryModel.last_updated := updated |}.

(** Modelled from the spec: [model.put()] stores the entity under its id. *)
Definition CommitLogEntry_put (m : ExplorationCommitLogEntryModel.t) : gen unit :=
  trace (DsPut "ExplorationCommitLogEntryModel" (ExplorationCommitLogEntryModel.id m)) ;;
  s <- get_store ;;
  set_store {| explorations := explorations s;
               rights_models := rights_models s;
               snapshot_metadata := snapshot_metadata s;
               commit_log_entries :=
                 <[ExplorationCommitLogEntryModel.id m := m]> (commit_log_entries s) |}.

(** ** The jobs *)

Module ExplorationValidityJobManager.

Definition map `{Host} (item : ExplorationModel.t) : gen unit :=
  if ExplorationModel.deleted item then ret tt else
  exploration <- call (get_exploration_from_model item) ;;
  trace (DsServiceRead "rights_manager.get_exploration_rights" (ExplorationModel.id item)) ;;
  s <- get_store ;;
  exp_rights <- call (get_exploration_rights s (ExplorationModel.id item) true) ;;
  try_except
    (status <- call (attr exp_rights rights_status "status") ;;
     if String.eqb status ACTIVITY_STATUS_PRIVATE
     then call (validate exploration false)
     else call (validate exploration true))
    (fun e =>
       match exn_cls e with
       | ValidationError => yield (ExplorationModel.id item) (PStr (exn_str e))
       | _ => raise e
       end).

Definition reduce (key : string) (values : list string) : gen unit :=
  yield key (PList (PStr <$> values)).

End ExplorationValidityJobManager.

Module ExplorationMigrationAuditJob.

(** The [while states_schema_version < current_state_schema_version] loop; one
    unit of fuel per iteration. *)
Fixpoint migrate `{Host} (fuel : nat) (item : ExplorationModel.t)
    (versioned_exploration_states : versioned_states)
    (states_schema_version : Z) : gen unit :=
  if states_schema_version <? CURRENT_STATE_SCHEMA_VERSION then
    match fuel with
    | O => unmodelled
    | S fuel' =>
        match update_states_from_model versioned_exploration_states
                states_schema_version (ExplorationModel.id item) with
        | inr versioned_exploration_states' =>
            let states_schema_version' := states_schema_version + 1 in
            (if states_schema_version' =? CURRENT_STATE_SCHEMA_VERSION
             then yield "SUCCESS" (PInt 1) else ret tt) ;;
            migrate fuel' item versioned_exploration_states' states_schema_version'
        | inl e =>
            let error_message :=
              "Exploration " +:+ ExplorationModel.id item +:+
              " failed migration to states v" +:+
              str_of_int (states_schema_version + 1) +:+ ": " +:+ exn_str e in
            logging error_message ;;
            yield "MIGRATION_ERROR" (PStr error_message)
        end
    end
  else ret tt.

Definition map `{Host} (item : ExplorationModel.t) : gen unit :=
  if ExplorationModel.deleted item then ret tt else
  let current_state_schema_version := CURRENT_STATE_SCHEMA_VERSION in
  let states_schema_version := ExplorationModel.states_schema_version item in
  let versioned_exploration_states :=
    {| vs_states_schema_version := states_schema_version;
       vs_states := ExplorationModel.states item |} in
  migrate (Z.to_nat (current_state_schema_version - states_schema_version))
    item versioned_exploration_states states_schema_version.

Definition reduce (key : string) (values : list string) : gen unit :=
  if String.eqb key "SUCCESS"
  then yield key (PInt (Z.of_nat (length values)))
  else yield key (PList (PStr <$> values)).

End ExplorationMigrationAuditJob.

Module ExplorationMigrationJobManager.

Definition map `{Host} (item : ExplorationModel.t) : gen unit :=
  if ExplorationModel.deleted item then ret tt else
  trace (DsServiceRead "exp_fetchers.get_exploration_by_id" (ExplorationModel.id item)) ;;
  s <- get_store ;;
  old_exploration <- call (get_exploration_by_id s (ExplorationModel.id item)) ;;
  valid <- try_except
    (call (validate old_exploration false) ;; ret true)
    (fun e =>
       logging ("Exploration " +:+ ExplorationModel.id item +:+
                " failed non-strict validation: " +:+ exn_str e) ;;
       ret false) ;;
  if negb valid then ret tt else
  if negb (ExplorationModel.states_schema_version item =? CURRENT_STATE_SCHEMA_VERSION) then
    let commit_cmds :=
      [ {| cmd := CMD_MIGRATE_STATES_SCHEMA_TO_LATEST_VERSION;
           from_version := str_of_int (ExplorationModel.states_schema_version item);
           to_version := str_of_int CURRENT_STATE_SCHEMA_VERSION |} ] in
    trace (DsServiceWrite "exp_services.update_exploration" (ExplorationModel.id item)) ;;
    s <- get_store ;;
    s' <- call (update_exploration s MIGRATION_BOT_USERNAME (ExplorationModel.id item)
                  commit_cmds
                  ("Update exploration states from schema version " +:+
                   str_of_int (ExplorationModel.states_schema_version item) +:+ " to " +:+
                   str_of_int CURRENT_STATE_SCHEMA_VERSION +:+ ".")) ;;
    set_store s' ;;
    yield "SUCCESS" (PStr (ExplorationModel.id item))
  else ret tt.

Definition reduce (key : string) (values : list string) : gen unit :=
  yield key (PInt (Z.of_nat (length values))).

End ExplorationMigrationJobManager.

Module ExplorationRteMathContentValidationOneOffJob.

(** The loop over [exploration.states.items()], with the list it appends to. *)
Fixpoint scan_states `{Host} (items : list (string * state))
    (invalid_tags_info_in_exp : list pyval) : gen (list pyval) :=
  match items with
  | [] => ret invalid_tags_info_in_exp
  | (state_name, st) :: rest =>
      strings <- call (state_get_all_html_content_strings st) ;;
      let html_string := String.concat "" strings in
      error_list <- call (validate_math_content_attribute_in_html html_string) ;;
      if (0 <? Z.of_nat (length error_list)) then
        let invalid_tags_info_in_state :=
          PDict [ (PStr "state_name", PStr state_name);
                  (PStr "error_list", PList error_list);
                  (PStr "no_of_invalid_tags", PInt (Z.of_nat (length error_list))) ] in
        scan_states rest (invalid_tags_info_in_exp ++ [invalid_tags_info_in_state])
      else scan_states rest invalid_tags_info_in_exp
  end.

Definition map `{Host} (item : ExplorationModel.t) : gen unit :=
  if ExplorationModel.deleted item then ret tt else
  exploration <- call (get_exploration_from_model item) ;;
  invalid_tags_info_in_exp <- scan_states (states_items exploration) [] ;;
  if (0 <? Z.of_nat (length invalid_tags_info_in_exp)) then
    yield "Found invalid tags"
      (PTuple [PStr (ExplorationModel.id item); PList invalid_tags_info_in_exp])
  else ret tt.

(** [invalid_tags_info[exp_id] = []] *)
Definition dict_setitem (d : list (pyval * pyval)) (k v : pyval)
  : exn + list (pyval * pyval) :=
  if hashable k then inr (dict_set d k v)
  else type_error "unhashable type".

(** [invalid_tags_info[exp_id].append(value)] *)
Definition dict_append (d : list (pyval * pyval)) (k v : pyval)
  : exn + list (pyval * pyval) :=
  match dict_lookup d k with
  | Some (PList l) => inr (dict_set d k (PList (l ++ [v])))
  | Some _ => inl (Exn AttributeError "object has no attribute 'append'")
  | None => inl (Exn KeyError "")
  end.

(** The inner loop [for value in invalid_tags_info_in_exp]. *)
Fixpoint collect_tags (values : list pyval) (exp_id : pyval)
    (no_of_invalid_tags : Z) (invalid_tags_info : list (pyval * pyval))
  : gen (Z * list (pyval * pyval)) :=
  match values with
  | [] => ret (no_of_invalid_tags, invalid_tags_info)
  | value :: rest =>
      n <- call (getitem_str value "no_of_invalid_tags") ;;
      no_of_invalid_tags' <- call (add_int no_of_invalid_tags n) ;;
      value' <- call (delitem_str value "no_of_invalid_tags") ;;
      invalid_tags_info' <- call (dict_append invalid_tags_info exp_id value') ;;
      collect_tags rest exp_id no_of_invalid_tags' invalid_tags_info'
  end.

(** The outer loop [for exp_id, invalid_tags_info_in_exp in final_values]. *)
Fixpoint collect_exps (final_values : list pyval)
    (no_of_invalid_tags : Z) (invalid_tags_info : list (pyval * pyval))
  : gen (Z * list (pyval * pyval)) :=
  match final_values with
  | [] => ret (no_of_invalid_tags, invalid_tags_info)
  | final_value :: rest =>
      p <- call (unpack2 final_value) ;;
      let exp_id := p.1 in
      let invalid_tags_info_in_exp := p.2 in
      invalid_tags_info1 <- call (dict_setitem invalid_tags_info exp_id (PList [])) ;;
      values <- call (py_iter invalid_tags_info_in_exp) ;;
      q <- collect_tags values exp_id no_of_invalid_tags invalid_tags_info1 ;;
      collect_exps rest q.1 q.2
  end.

Definition reduce `{Host} (key : string) (values : list string) : gen unit :=
  final_values <- list_comp (fun value => call (literal_eval value)) values ;;
  q <- collect_exps final_values 0 [] ;;
  let no_of_invalid_tags := q.1 in
  let invalid_tags_info := q.2 in
  let final_value_dict :=
    PDict [ (PStr "no_of_explorations_with_no_svgs", PInt (Z.of_nat (length final_values)));
            (PStr "no_of_invalid_tags", PInt no_of_invalid_tags) ] in
  yield "Overall result." final_value_dict ;;
  yield "Detailed information on invalid tags." (PDict invalid_tags_info).

End ExplorationRteMathContentValidationOneOffJob.

Module ViewableExplorationsAuditJob.

Definition map `{Host} (item : ExplorationModel.t) : gen unit :=
  if ExplorationModel.deleted item then ret tt else
  trace (DsServiceRead "rights_manager.get_exploration_rights" (ExplorationModel.id item)) ;;
  s <- get_store ;;
  exploration_rights <- call (get_exploration_rights s (ExplorationModel.id item) false) ;;
  match exploration_rights with
  | None => ret tt
  | Some rights =>
      if String.eqb (rights_status rights) ACTIVITY_STATUS_PRIVATE
         && viewable_if_private rights
      then yield (ExplorationModel.id item) (PStr (ExplorationModel.title item))
      else ret tt
  end.

Definition reduce (key : string) (values : list string) : gen unit :=
  yield key (PList (PStr <$> values)).

End ViewableExplorationsAuditJob.

Module RTECustomizationArgsValidationOneOffJob.

Definition map `{Host} (item : ExplorationModel.t) : gen unit :=
  if ExplorationModel.deleted item then ret tt else
  loaded <- try_except
    (exploration <- call (get_exploration_from_model item) ;; ret (Some exploration))
    (fun e =>
       yield ("Error " +:+ exn_str e +:+ " when loading exploration")
             (PList [PStr (ExplorationModel.id item)]) ;;
       ret None) ;;
  match loaded with
  | None => ret tt
  | Some exploration =>
      html_list <- call (get_all_html_content_strings exploration) ;;
      err_dict <- call (validate_customization_args html_list) ;;
      for_each err_dict (fun entry =>
        let key := entry.1 in
        let err_value_with_exp_id :=
          entry.2 ++ ["Exp ID: " +:+ ExplorationModel.id item] in
        yield key (PList (PStr <$> err_value_with_exp_id)))
  end.

(** The [while index < len(flattened_values)] loop; one unit of fuel per
    iteration. *)
Fixpoint pair_up (fuel : nat) (flattened_values : list pyval) (index : nat)
    (output_values : list (pyval * pyval)) : gen (list (pyval * pyval)) :=
  if (index <? length flattened_values)%nat then
    match fuel with
    | O => unmodelled
    | S fuel' =>
        exp_id <- call (list_getitem flattened_values (index + 1)) ;;
        error_message <- call (list_getitem flattened_values index) ;;
        pair_up fuel' flattened_values (index + 2)
          (output_values ++ [(exp_id, error_message)])
    end
  else ret output_values.

Definition reduce `{Host} (key : string) (values : list string) : gen unit :=
  final_values <- list_comp (fun value => call (literal_eval value)) values ;;
  sublists <- list_comp (fun sublist => call (py_iter sublist)) final_values ;;
  let flattened_values := concat sublists in
  if contains "loading exploration" key then
    yield key (PList flattened_values)
  else
    output_values <- pair_up (length flattened_values) flattened_values 0 [] ;;
    sorted_values <- sort_pairs output_values ;;
    yield key (PList ((fun p => PTuple [p.1; p.2]) <$> sorted_values)).

End RTECustomizationArgsValidationOneOffJob.

(** The [for rights_version in RANGE(2, version + 1)] loop of
    [regenerate_exp_commit_log_model], which leaves by [break]. *)
Fixpoint latest_rights_before (id : string)
    (metadata_model : option ExplorationSnapshotMetadataModel.t)
    (rights_versions : list Z)
    (required_rights_model : option ExplorationRightsModel.t)
  : gen (option ExplorationRightsModel.t) :=
  match rights_versions with
  | [] => ret required_rights_model
  | rights_version :: rest =>
      rights_model <- Rights_get id false rights_version ;;
      match rights_model with
      | None => ret required_rights_model
      | Some r =>
          metadata_created_on <-
            call (attr metadata_model ExplorationSnapshotMetadataModel.created_on "created_on") ;;
          if ExplorationRightsModel.created_on r <=? metadata_created_on
          then latest_rights_before id metadata_model rest (Some r)
          else ret required_rights_model
      end
  end.

Definition regenerate_exp_commit_log_model `{Host}
    (exp_model : ExplorationModel.t) (version : Z)
  : gen ExplorationCommitLogEntryModel.t :=
  let id := ExplorationModel.id exp_model in
  metadata_model <- SnapshotMetadata_get_by_id (id +:+ "-" +:+ str_of_int version) ;;
  required_rights_model <- Rights_get id true 1 ;;
  required_rights_model <-
    latest_rights_before id metadata_model (RANGE 2 (version + 1)) required_rights_model ;;
  committer_id <-
    call (attr metadata_model ExplorationSnapshotMetadataModel.committer_id "committer_id") ;;
  commit_type <-
    call (attr metadata_model ExplorationSnapshotMetadataModel.commit_type "commit_type") ;;
  commit_message <-
    call (attr metadata_model ExplorationSnapshotMetadataModel.commit_message "commit_message") ;;
  commit_cmds <-
    call (attr metadata_model ExplorationSnapshotMetadataModel.commit_cmds "commit_cmds") ;;
  status <- call (attr required_rights_model ExplorationRightsModel.status "status") ;;
  community_owned <-
    call (attr required_rights_model ExplorationRightsModel.community_owned "community_owned") ;;
  let commit_log_model :=
    CommitLogEntry_create id version committer_id commit_type commit_message
      commit_cmds status community_owned in
  created_on <-
    call (attr metadata_model ExplorationSnapshotMetadataModel.created_on "created_on") ;;
  last_updated <-
    call (attr metadata_model ExplorationSnapshotMetadataModel.last_updated "last_updated") ;;
  ret {| ExplorationCommitLogEntryModel.id := ExplorationCommitLogEntryModel.id commit_log_model;
         ExplorationCommitLogEntryModel.user_id := ExplorationCommitLogEntryModel.user_id commit_log_model;
         ExplorationCommitLogEntryModel.commit_type :=
           ExplorationCommitLogEntryModel.commit_type commit_log_model;
         ExplorationCommitLogEntryModel.commit_message :=
           ExplorationCommitLogEntryModel.commit_message commit_log_model;
         ExplorationCommitLogEntryModel.commit_cmds :=
           ExplorationCommitLogEntryModel.commit_cmds commit_log_model;
         ExplorationCommitLogEntryModel.version := ExplorationCommitLogEntryModel.version commit_log_model;
         ExplorationCommitLogEntryModel.post_commit_status :=
           ExplorationCommitLogEntryModel.post_commit_status commit_log_model;
         ExplorationCommitLogEntryModel.post_commit_community_owned :=
           ExplorationCommitLogEntryModel.post_commit_community_owned commit_log_model;
         ExplorationCommitLogEntryModel.post_commit_is_private :=
           ExplorationCommitLogEntryModel.post_commit_is_private commit_log_model;
         ExplorationCommitLogEntryModel.exploration_id := id;
         ExplorationCommitLogEntryModel.created_on := Some created_on;
         ExplorationCommitLogEntryModel.last_updated := Some last_updated |}.

Module RegenerateMissingExpCommitLogModels.

Definition map `{Host} (item : ExplorationModel.t) : gen unit :=
  if ExplorationModel.deleted item then ret tt else
  for_each (RANGE 1 (ExplorationModel.version item + 1)) (fun version =>
    commit_log_model <-
      CommitLogEntry_get_by_id
        ("exploration-" +:+ ExplorationModel.id item +:+ "-" +:+ str_of_int version) ;;
    match commit_log_model with
    | None =>
        commit_log_model <- regenerate_exp_commit_log_model item version ;;
        let commit_log_model := update_timestamps commit_log_model false in
        CommitLogEntry_put commit_log_model ;;
        yield ("Regenerated Exploration Commit Log Model: version " +:+ str_of_int version)
              (PStr (ExplorationModel.id item))
    | Some _ => ret tt
    end).

Definition reduce (key : string) (values : list string) : gen unit :=
  yield key (PList (PStr <$> values)).

End RegenerateMissingExpCommitLogModels.

Module ExpCommitLogModelRegenerationValidator.

(** [s[-1]] *)
Fixpoint last_char (s : string) : exn + Ascii.ascii :=
  match s with
  | EmptyString => inl (Exn IndexError "string index out of range")
  | String c EmptyString => inr c
  | String _ s' => last_char s'
  end.

Definition fields : list string :=
  [ "user_id"; "commit_type"; "commit_message"; "commit_cmds"; "version";
    "post_commit_status"; "post_commit_community_owned";
    "post_commit_is_private"; "exploration_id" ].

Definition time_fields : list string := [ "created_on"; "last_updated" ].

(** [getattr(model, field)] for the fields the job compares. *)
Definition getattr (m : ExplorationCommitLogEntryModel.t) (field : string) : exn + field_val :=
  if String.eqb field "user_id" then inr (FStr (ExplorationCommitLogEntryModel.user_id m))
  else if String.eqb field "commit_type" then inr (FStr (ExplorationCommitLogEntryModel.commit_type m))
  else if String.eqb field "commit_message" then inr (FStr (ExplorationCommitLogEntryModel.commit_message m))
  else if String.eqb field "commit_cmds" then inr (FJson (ExplorationCommitLogEntryModel.commit_cmds m))
  else if String.eqb field "version" then inr (FInt (ExplorationCommitLogEntryModel.version m))
  else if String.eqb field "post_commit_status"
    then inr (FStr (ExplorationCommitLogEntryModel.post_commit_status m))
  else if String.eqb field "post_commit_community_owned"
    then inr (FBool (ExplorationCommitLogEntryModel.post_commit_community_owned m))
  else if String.eqb field "post_commit_is_private"
    then inr (FBool (ExplorationCommitLogEntryModel.post_commit_is_private m))
  else if String.eqb field "exploration_id"
    then inr (FStr (ExplorationCommitLogEntryModel.exploration_id m))
  else if String.eqb field "created_on" then inr (FTime (ExplorationCommitLogEntryModel.created_on m))
  else if String.eqb field "last_updated" then inr (FTime (ExplorationCommitLogEntryModel.last_updated m))
  else inl (Exn AttributeError field).

(** [a != b] on two values of one field. *)
Definition field_ne `{Host} (a b : field_val) : bool :=
  match a, b with
  | FStr x, FStr y => negb (String.eqb x y)
  | FInt x, FInt y => negb (x =? y)
  | FBool x, FBool y => negb (Bool.eqb x y)
  | FJson x, FJson y => negb (py_eq x y)
  | FTime x, FTime y => negb (bool_decide (x = y))
  | _, _ => true
  end.

(** [datetime.timedelta(minutes=1)], in microseconds. *)
Definition one_minute : Z := 60000000.

Definition mismatch `{Host} (field : string) (a b : field_val) : gen unit :=
  yield "Mismatch between original model and regenerated model"
    (PStr (field +:+ " in original model: " +:+ py_str a +:+
           ", in regenerated model: " +:+ py_str b)).

(** The time of a timestamp field; arithmetic and comparison on an unset one
    raise. *)
Definition time_of (v : field_val) : exn + Z :=
  match v with
  | FTime (Some t) => inr t
  | _ => type_error "unsupported operand type(s): 'NoneType' and 'datetime.timedelta'"
  end.

Definition map `{Host} (item : ExplorationModel.t) : gen unit :=
  if ExplorationModel.deleted item then ret tt else
  last_char_in_id <- call (last_char (ExplorationModel.id item)) ;;
  if Ascii.ltb last_char_in_id "a"%char || Ascii.ltb "j"%char last_char_in_id then ret tt else
  for_each (RANGE 1 (ExplorationModel.version item + 1)) (fun version =>
    commit_log_model <-
      CommitLogEntry_get_by_id
        ("exploration-" +:+ ExplorationModel.id item +:+ "-" +:+ str_of_int version) ;;
    match commit_log_model with
    | None => ret tt
    | Some commit_log_model =>
        regenerated_commit_log_model <- regenerate_exp_commit_log_model item version ;;
        for_each fields (fun field =>
          commit_model_field_val <- call (getattr commit_log_model field) ;;
          regenerated_commit_log_model_field_val <-
            call (getattr regenerated_commit_log_model field) ;;
          if field_ne commit_model_field_val regenerated_commit_log_model_field_val
          then mismatch field commit_model_field_val regenerated_commit_log_model_field_val
          else ret tt) ;;
        for_each time_fields (fun field =>
          commit_model_field_val <- call (getattr commit_log_model field) ;;
          regenerated_commit_log_model_field_val <-
            call (getattr regenerated_commit_log_model field) ;;
          regenerated_time <- call (time_of regenerated_commit_log_model_field_val) ;;
          let max_allowed_val := regenerated_time + one_minute in
          let min_allowed_val := regenerated_time - one_minute in
          commit_time <- call (time_of commit_model_field_val) ;;
          if (max_allowed_val <? commit_time) || (commit_time <? min_allowed_val)
          then mismatch field commit_model_field_val regenerated_commit_log_model_field_val
          else ret tt)
    end).

Definition reduce (key : string) (values : list string) : gen unit :=
  yield key (PList (PStr <$> values)).

End ExpCommitLogModelRegenerationValidator.

(** ** The jobs of the module *)

(** The job classes of exp_jobs_one_off, each a
    [jobs.BaseMapReduceOneOffJobManager] with its [map] and [reduce]. *)
Inductive job : Type :=
| JExplorationValidityJobManager
| JExplorationMigrationAuditJob
| JExplorationMigrationJobManager
| JExplorationRteMathContentValidationOneOffJob
| JViewableExplorationsAuditJob
| JRTECustomizationArgsValidationOneOffJob
| JRegenerateMissingExpCommitLogModels
| JExpCommitLogModelRegenerationValidator.

Global Instance job_eq_dec : EqDecision job.
Proof. solve_decision. Defined.

Definition all_jobs : list job :=
  [ JExplorationValidityJobManager; JExplorationMigrationAuditJob;
    JExplorationMigrationJobManager; JExplorationRteMathContentValidationOneOffJob;
    JViewableExplorationsAuditJob; JRTECustomizationArgsValidationOneOffJob;
    JRegenerateMissingExpCommitLogModels; JExpCommitLogModelRegenerationValidator ].

Definition job_map `{Host} (j : job) : ExplorationModel.t -> gen unit :=
  match j with
  | JExplorationValidityJobManager => ExplorationValidityJobManager.map
  | JExplorationMigrationAuditJob => ExplorationMigrationAuditJob.map
  | JExplorationMigrationJobManager => ExplorationMigrationJobManager.map
  | JExplorationRteMathContentValidationOneOffJob =>
      ExplorationRteMathContentValidationOneOffJob.map
  | JViewableExplorationsAuditJob => ViewableExplorationsAuditJob.map
  | JRTECustomizationArgsValidationOneOffJob => RTECustomizationArgsValidationOneOffJob.map
  | JRegenerateMissingExpCommitLogModels => RegenerateMissingExpCommitLogModels.map
  | JExpCommitLogModelRegenerationValidator => ExpCommitLogModelRegenerationValidator.map
  end.

Definition job_reduce `{Host} (j : job) : string -> list string -> gen unit :=
  match j with
  | JExplorationValidityJobManager => ExplorationValidityJobManager.reduce
  | JExplorationMigrationAuditJob => ExplorationMigrationAuditJob.reduce
  | JExplorationMigrationJobManager => ExplorationMigrationJobManager.reduce
  | JExplorationRteMathContentValidationOneOffJob =>
      ExplorationRteMathContentValidationOneOffJob.reduce
  | JViewableExplorationsAuditJob => ViewableExplorationsAuditJob.reduce
  | JRTECustomizationArgsValidationOneOffJob => RTECustomizationArgsValidationOneOffJob.reduce
  | JRegenerateMissingExpCommitLogModels => RegenerateMissingExpCommitLogModels.reduce
  | JExpCommitLogModelRegenerationValidator => ExpCommitLogModelRegenerationValidator.reduce
  end.

(** ** A small host and datastore to run the jobs on *)

Module Demo.

(** [ast.literal_eval] on the handful of strings the examples use. *)
Definition decode (s : string) : exn + pyval :=
  if String.eqb s "['e1', 'Exp ID: b', 'e2', 'Exp ID: a']"
  then inr (PList [PStr "e1"; PStr "Exp ID: b"; PStr "e2"; PStr "Exp ID: a"])
  else if String.eqb s "['e3', 'Exp ID: a']"
  then inr (PList [PStr "e3"; PStr "Exp ID: a"])
  else if String.eqb s "['exp1']"
  then inr (PList [PStr "exp1"])
  else inl (Exn ValueError "malformed string").

(** An exploration whose title is empty fails validation; one titled
    [broken] cannot be loaded; the migration step from states schema
    version 41 fails. *)
Definition host : Host := {|
  CURRENT_STATE_SCHEMA_VERSION := 43;
  MIGRATION_BOT_USERNAME := "OppiaMigrationBot";
  ACTIVITY_STATUS_PRIVATE := "private";
  CMD_MIGRATE_STATES_SCHEMA_TO_LATEST_VERSION := "migrate_states_schema_to_latest_version";
  exploration := ExplorationModel.t;
  state := list string;
  validate := fun e strict =>
    if String.eqb (ExplorationModel.title e) ""
    then inl (Exn ValidationError "Expected title to be non-empty")
    else inr tt;
  states_items := fun _ => [];
  state_get_all_html_content_strings := fun st => inr st;
  get_all_html_content_strings := fun _ => inr [];
  update_states_from_model := fun vs v _ =>
    if v =? 41 then inl (Exn OtherException "bad state")
    else inr {| vs_states_schema_version := v + 1; vs_states := vs_states vs |};
  get_exploration_from_model := fun m =>
    if String.eqb (ExplorationModel.title m) "broken"
    then inl (Exn OtherException "cannot load")
    else inr m;
  get_exploration_by_id := fun s id =>
    match explorations s !! id with
    | Some m => inr m
    | None => inl (Exn EntityNotFoundError id)
    end;
  get_exploration_rights := fun s id strict =>
    inr (Some {| rights_status := "private"; viewable_if_private := false |});
  update_exploration := fun s _ _ _ _ => inr s;
  validate_math_content_attribute_in_html := fun _ => inr [];
  validate_customization_args := fun _ => inr [];
  literal_eval := decode;
  py_str := fun _ => "";
  py_eq := fun _ _ => true;
  sort_tuples := fun _ => inl (Exn TypeError "'<' not supported between instances");
  utcnow := 0
|}.

Definition item (title : string) (version schema : Z) (deleted : bool) : ExplorationModel.t :=
  {| ExplorationModel.id := "exp1";
     ExplorationModel.deleted := deleted;
     ExplorationModel.version := version;
     ExplorationModel.title := title;
     ExplorationModel.states_schema_version := schema;
     ExplorationModel.states := PDict [] |}.

Definition rights (status : string) (created_on : Z) : ExplorationRightsModel.t :=
  {| ExplorationRightsModel.status := status;
     ExplorationRightsModel.community_owned := false;
     ExplorationRightsModel.created_on := created_on |}.

Definition metadata (created_on : Z) : ExplorationSnapshotMetadataModel.t :=
  {| ExplorationSnapshotMetadataModel.committer_id := "user1";
     ExplorationSnapshotMetadataModel.commit_type := "edit";
     ExplorationSnapshotMetadataModel.commit_message := "message";
     ExplorationSnapshotMetadataModel.commit_cmds := PList [];
     ExplorationSnapshotMetadataModel.created_on := created_on;
     ExplorationSnapshotMetadataModel.last_updated := created_on |}.

Definition empty_store : store := Store ∅ ∅ ∅ ∅.

(** The exploration [exp1] at version 3: snapshot metadata for version 3
    created at time 250, rights models at versions 1, 2, 3 created at times
    100, 200, 300, and no commit log entry. *)
Definition store3 : store :=
  {| explorations := {[ "exp1" := item "title" 3 43 false ]};
     rights_models :=
       {[ ("exp1", 1) := rights "private" 100;
          ("exp1", 2) := rights "public" 200;
          ("exp1", 3) := rights "private" 300 ]};
     snapshot_metadata :=
       {[ "exp1-1" := metadata 50; "exp1-2" := metadata 150; "exp1-3" := metadata 250 ]};
     commit_log_entries := ∅ |}.

(** A store whose exploration [exp1] has an empty title and is at states
    schema version 40. *)
Definition untitled_store : store :=
  {| explorations := {[ "exp1" := item "" 3 40 false ]};
     rights_models := ∅;
     snapshot_metadata := ∅;
     commit_log_entries := ∅ |}.

Definition world_of (s : store) : world := World s [] [].

End Demo.

(** ** Properties of computations *)

(** A computation that neither yields, nor logs, nor touches the datastore,
    and ends the same way in every world. *)
Definition silent {A} (m : gen A) : Prop :=
  ∃ r, ∀ w, m w = Outcome r [] w.

(** A computation whose end and yielded pairs do not depend on the world,
    and that leaves the world as it found it. *)
Definition world_independent {A} (m : gen A) : Prop :=
  ∃ r ys, ∀ w, m w = Outcome r ys w.

(** A computation that leaves every table of the datastore as it found it. *)
Definition read_only {A} (m : gen A) : Prop :=
  ∀ w, datastore (after (m w)) = datastore w.

(** A computation that, in every world, returns or raises: no run of it leaves
    the modelled fragment. *)
Definition modelled {A} (m : gen A) : Prop :=
  ∀ w, res (m w) ≠ Unmodelled.

(** What the pairing loop of [RTECustomizationArgsValidationOneOffJob.reduce]
    does with the part of the list from [index] on: it pairs the elements two
    by two, and the second access of a last single element is out of range. *)
Fixpoint pair_up_result (rest : list pyval) (output_values : list (pyval * pyval))
  : result (list (pyval * pyval)) :=
  match rest with
  | [] => Returned output_values
  | [_] => Raised (Exn IndexError "list index out of range")
  | error_message :: exp_id :: rest' =>
      pair_up_result rest' (output_values ++ [(exp_id, error_message)])
  end.

(** The list [[e1, id1, ..., en, idn]] of the pairs [(e1, id1), ...]. *)
Definition interleave (pairs : list (string * string)) : list pyval :=
  concat ((fun p => [PStr p.1; PStr p.2]) <$> pairs).

(** [(id, e)] for [(e, id)] *)
Definition swap (p : string * string) : string * string := (p.2, p.1).

(** The Python tuple of a pair of strings. *)
Definition tuple_of (p : string * string) : pyval := PTuple [PStr p.1; PStr p.2].

(** Every per-version step of the states migration of the exploration [id],
    from [version] up to the current states schema version, succeeds, each
    step on the states the step before left. *)
Inductive migration_succeeds `{Host} (id : string) : versioned_states → Z → Prop :=
| migration_done vs version :
    CURRENT_STATE_SCHEMA_VERSION ≤ version →
    migration_succeeds id vs version
| migration_step vs vs' version :
    version < CURRENT_STATE_SCHEMA_VERSION →
    update_states_from_model vs version id = inr vs' →
    migration_succeeds id vs' (version + 1) →
    migration_succeeds id vs version.

(** The steps from [version] on succeed up to the step from [failing], which
    is the first to fail; it raises [e]. *)
Inductive migration_fails `{Host} (id : string)
  : versioned_states → Z → Z → exn → Prop :=
| migration_fails_here vs version e :
    version < CURRENT_STATE_SCHEMA_VERSION →
    update_states_from_model vs version id = inl e →
    migration_fails id vs version version e
| migration_fails_later vs vs' version failing e :
    version < CURRENT_STATE_SCHEMA_VERSION →
    update_states_from_model vs version id = inr vs' →
    migration_fails id vs' (version + 1) failing e →
    migration_fails id vs version failing e.

(** The message of the audit for a step from [failing] that raised [e]. *)
Definition migration_error_message (id : string) (failing : Z) (e : exn) : string :=
  "Exploration " +:+ id +:+ " failed migration to states v" +:+
  str_of_int (failing + 1) +:+ ": " +:+ exn_str e.

(** [versioned_exploration_states] as the audit builds it from the item. *)
Definition initial_versioned_states (item : ExplorationModel.t) : versioned_states :=
  {| vs_states_schema_version := ExplorationModel.states_schema_version item;
     vs_states := ExplorationModel.states item |}.

(** The rights model of [id] at version [u] exists and was created no later
    than [metadata_created_on]. *)
Definition rights_in_time (s : store) (id : string) (metadata_created_on : Z) (u : Z)
  : Prop :=
  ∃ r, rights_models s !! (id, u) = Some r
       ∧ ExplorationRightsModel.created_on r ≤ metadata_created_on.

(** The rights versions [regenerate_exp_commit_log_model] may settle on for a
    commit at [version]: version 1, or a version from 2 to [version] such that
    the rights models at versions 2 to it all exist and were created in
    time. *)
Definition eligible_rights_version (s : store) (id : string)
    (metadata_created_on : Z) (version : Z) (v : Z) : Prop :=
  v = 1 ∨ (2 ≤ v ≤ version
           ∧ ∀ u, 2 ≤ u ≤ v → rights_in_time s id metadata_created_on u).

(** The trace entry of [ExplorationRightsModel.get(id, version=u)]. *)
Definition rights_get_op (id : string) (u : Z) : ds_op :=
  DsGet "ExplorationRightsModel" (id +:+ "-" +:+ str_of_int u).

(** A computation that may add commit log entries, and otherwise leaves the
    datastore as it found it: no other table changes and no entry that was
    there is changed or removed. *)
Definition only_adds_commit_log_entries {A} (m : gen A) : Prop :=
  ∀ w,
    explorations (datastore (after (m w))) = explorations (datastore w)
    ∧ rights_models (datastore (after (m w))) = rights_models (datastore w)
    ∧ snapshot_metadata (datastore (after (m w))) = snapshot_metadata (datastore w)
    ∧ commit_log_entries (datastore w) ⊆ commit_log_entries (datastore (after (m w))).

(** Whatever a computation returns satisfies [P]. *)
Definition returns {A} (P : A → Prop) (m : gen A) : Prop :=
  ∀ w a, res (m w) = Returned a → P a.

(** The change list and the commit message that
    [ExplorationMigrationJobManager.map] passes to
    [exp_services.update_exploration]. *)
Definition migration_commit_cmds `{Host} (item : ExplorationModel.t)
  : list ExplorationChange :=
  [ {| cmd := CMD_MIGRATE_STATES_SCHEMA_TO_LATEST_VERSION;
       from_version := str_of_int (ExplorationModel.states_schema_version item);
       to_version := str_of_int CURRENT_STATE_SCHEMA_VERSION |} ].

Definition migration_commit_message `{Host} (item : ExplorationModel.t) : string :=
  "Update exploration states from schema version " +:+
  str_of_int (ExplorationModel.states_schema_version item) +:+ " to " +:+
  str_of_int CURRENT_STATE_SCHEMA_VERSION +:+ ".".

(** A computation that only reads the datastore, and of it only what the
    relation [R] keeps: in every world whose store is [R]-related to a given
    one it ends the same way after the same accesses, and it yields nothing,
    logs nothing and writes nothing. *)
Definition reads_only (R : relation store) {A} (m : gen A) : Prop :=
  ∀ w, ∃ r tr, ∀ w',
    R (datastore w) (datastore w') →
    m w' = Outcome r [] (World (datastore w') (ds_trace w' ++ tr) (logged w')).

(** Two stores with the same rights models and the same snapshot metadata. *)
Definition same_rights_and_metadata (s s' : store) : Prop :=
  rights_models s = rights_models s' ∧ snapshot_metadata s = snapshot_metadata s'.

(** The key of the commit log entry of an exploration at a version. *)
Definition commit_log_key (id : string) (version : Z) : string :=
  "exploration-" +:+ id +:+ "-" +:+ str_of_int version.

(** The entry [regenerate_exp_commit_log_model] builds for an exploration
    and a version from the snapshot metadata model of the commit and the
    rights model it settled on. *)
Definition regenerated_entry `{Host} (id : string) (version : Z)
    (metadata_model : ExplorationSnapshotMetadataModel.t)
    (required_rights_model : ExplorationRightsModel.t)
  : ExplorationCommitLogEntryModel.t :=
  {| ExplorationCommitLogEntryModel.id := commit_log_key id version;
     ExplorationCommitLogEntryModel.user_id :=
       ExplorationSnapshotMetadataModel.committer_id metadata_model;
     ExplorationCommitLogEntryModel.commit_type :=
       ExplorationSnapshotMetadataModel.commit_type metadata_model;
     ExplorationCommitLogEntryModel.commit_message :=
       ExplorationSnapshotMetadataModel.commit_message metadata_model;
     ExplorationCommitLogEntryModel.commit_cmds :=
       ExplorationSnapshotMetadataModel.commit_cmds metadata_model;
     ExplorationCommitLogEntryModel.version := version;
     ExplorationCommitLogEntryModel.post_commit_status :=
       ExplorationRightsModel.status required_rights_model;
     ExplorationCommitLogEntryModel.post_commit_community_owned :=
       ExplorationRightsModel.community_owned required_rights_model;
     ExplorationCommitLogEntryModel.post_commit_is_private :=
       String.eqb (ExplorationRightsModel.status required_rights_model)
         ACTIVITY_STATUS_PRIVATE;
     ExplorationCommitLogEntryModel.exploration_id := id;
     ExplorationCommitLogEntryModel.created_on :=
       Some (ExplorationSnapshotMetadataModel.created_on metadata_model);
     ExplorationCommitLogEntryModel.last_updated :=
       Some (ExplorationSnapshotMetadataModel.last_updated metadata_model) |}.

(** One iteration of the loop of [RegenerateMissingExpCommitLogModels.map]. *)
Definition regenerate_if_missing `{Host} (item : ExplorationModel.t) (version : Z)
  : gen unit :=
  commit_log_model <-
    CommitLogEntry_get_by_id
      ("exploration-" +:+ ExplorationModel.id item +:+ "-" +:+ str_of_int version) ;;
  match commit_log_model with
  | None =>
      commit_log_model <- regenerate_exp_commit_log_model item version ;;
      let commit_log_model := update_timestamps commit_log_model false in
      CommitLogEntry_put commit_log_model ;;
      yield ("Regenerated Exploration Commit Log Model: version " +:+ str_of_int version)
            (PStr (ExplorationModel.id item))
  | Some _ => ret tt
  end.

(** The store holds no commit log entry for the exploration at that version. *)
Definition entry_missing (s : store) (id : string) (version : Z) : bool :=
  match commit_log_entries s !! commit_log_key id version with
  | None => true
  | Some _ => false
  end.

(** The pair the job yields for a version it regenerated. *)
Definition regenerated_record (id : string) (version : Z) : string * pyval :=
  ("Regenerated Exploration Commit Log Model: version " +:+ str_of_int version, PStr id).

(** The comparison of one field of a stored commit log entry with the same
    field of the regenerated entry, as the first loop of
    [ExpCommitLogModelRegenerationValidator.map] does it. *)
Definition compare_field `{Host}
    (commit_log_model regenerated_commit_log_model : ExplorationCommitLogEntryModel.t)
    (field : string) : gen unit :=
  commit_model_field_val <-
    call (ExpCommitLogModelRegenerationValidator.getattr commit_log_model field) ;;
  regenerated_commit_log_model_field_val <-
    call (ExpCommitLogModelRegenerationValidator.getattr regenerated_commit_log_model field) ;;
  if ExpCommitLogModelRegenerationValidator.field_ne
       commit_model_field_val regenerated_commit_log_model_field_val
  then ExpCommitLogModelRegenerationValidator.mismatch field
         commit_model_field_val regenerated_commit_log_model_field_val
  else ret tt.

(** The comparison of one timestamp, as the second loop does it. *)
Definition compare_time_field `{Host}
    (commit_log_model regenerated_commit_log_model : ExplorationCommitLogEntryModel.t)
    (field : string) : gen unit :=
  commit_model_field_val <-
    call (ExpCommitLogModelRegenerationValidator.getattr commit_log_model field) ;;
  regenerated_commit_log_model_field_val <-
    call (ExpCommitLogModelRegenerationValidator.getattr regenerated_commit_log_model field) ;;
  regenerated_time <-
    call (ExpCommitLogModelRegenerationValidator.time_of
            regenerated_commit_log_model_field_val) ;;
  let max_allowed_val := regenerated_time + ExpCommitLogModelRegenerationValidator.one_minute in
  let min_allowed_val := regenerated_time - ExpCommitLogModelRegenerationValidator.one_minute in
  commit_time <-
    call (ExpCommitLogModelRegenerationValidator.time_of commit_model_field_val) ;;
  if (max_allowed_val <? commit_time) || (commit_time <? min_allowed_val)
  then ExpCommitLogModelRegenerationValidator.mismatch field
         commit_model_field_val regenerated_commit_log_model_field_val
  else ret tt.

(** One iteration of the loop over the versions in
    [ExpCommitLogModelRegenerationValidator.map]. *)
Definition validate_version `{Host} (item : ExplorationModel.t) (version : Z) : gen unit :=
  commit_log_model <-
    CommitLogEntry_get_by_id
      ("exploration-" +:+ ExplorationModel.id item +:+ "-" +:+ str_of_int version) ;;
  match commit_log_model with
  | None => ret tt
  | Some commit_log_model =>
      regenerated_commit_log_model <- regenerate_exp_commit_log_model item version ;;
      for_each ExpCommitLogModelRegenerationValidator.fields
        (compare_field commit_log_model regenerated_commit_log_model) ;;
      for_each ExpCommitLogModelRegenerationValidator.time_fields
        (compare_time_field commit_log_model regenerated_commit_log_model)
  end.

(** Two timestamps that are set and at most one minute apart. *)
Definition times_close (stored regenerated : option Z) : Prop :=
  ∃ t t', stored = Some t ∧ regenerated = Some t'
          ∧ t' - ExpCommitLogModelRegenerationValidator.one_minute ≤ t
          ∧ t ≤ t' + ExpCommitLogModelRegenerationValidator.one_minute.

(** A stored commit log entry that agrees with the regenerated one: equal on
    the nine compared fields, timestamps at most one minute apart. *)
Definition entries_agree `{Host}
    (stored regenerated : ExplorationCommitLogEntryModel.t) : Prop :=
  ExplorationCommitLogEntryModel.user_id stored =
    ExplorationCommitLogEntryModel.user_id regenerated
  ∧ ExplorationCommitLogEntryModel.commit_type stored =
    ExplorationCommitLogEntryModel.commit_type regenerated
  ∧ ExplorationCommitLogEntryModel.commit_message stored =
    ExplorationCommitLogEntryModel.commit_message regenerated
  ∧ py_eq (ExplorationCommitLogEntryModel.commit_cmds stored)
      (ExplorationCommitLogEntryModel.commit_cmds regenerated) = true
  ∧ ExplorationCommitLogEntryModel.version stored =
    ExplorationCommitLogEntryModel.version regenerated
  ∧ ExplorationCommitLogEntryModel.post_commit_status stored =
    ExplorationCommitLogEntryModel.post_commit_status regenerated
  ∧ ExplorationCommitLogEntryModel.post_commit_community_owned stored =
    ExplorationCommitLogEntryModel.post_commit_community_owned regenerated
  ∧ ExplorationCommitLogEntryModel.post_commit_is_private stored =
    ExplorationCommitLogEntryModel.post_commit_is_private regenerated
  ∧ ExplorationCommitLogEntryModel.exploration_id stored =
    ExplorationCommitLogEntryModel.exploration_id regenerated
  ∧ times_close (ExplorationCommitLogEntryModel.created_on stored)
      (ExplorationCommitLogEntryModel.created_on regenerated)
  ∧ times_close (ExplorationCommitLogEntryModel.last_updated stored)
      (ExplorationCommitLogEntryModel.last_updated regenerated).

(** The stored commit log entry of a version, if there is one, can be
    regenerated and agrees with its regeneration. *)
Definition version_consistent `{Host} (s : store) (item : ExplorationModel.t) (version : Z)
  : Prop :=
  ∀ stored,
    commit_log_entries s !! commit_log_key (ExplorationModel.id item) version = Some stored →
    ∃ regenerated,
      res (regenerate_exp_commit_log_model item version (World s [] [])) = Returned regenerated
      ∧ entries_agree stored regenerated.

(** The record [RTECustomizationArgsValidationOneOffJob.map] yields for one
    entry of the dictionary of errors. *)
Definition customization_record (id : string) (entry : string * list string)
  : string * pyval :=
  (entry.1, PList (PStr <$> entry.2 ++ ["Exp ID: " +:+ id])).

(** The key under which [RTECustomizationArgsValidationOneOffJob.map] reports
    an exploration that could not be loaded. *)
Definition load_failure_key (e : exn) : string :=
  "Error " +:+ exn_str e +:+ " when loading exploration".

(** The dictionary [ExplorationRteMathContentValidationOneOffJob.map] builds
    for a state with invalid tags. *)
Definition state_record (state_name : string) (error_list : list pyval) : pyval :=
  PDict [ (PStr "state_name", PStr state_name);
          (PStr "error_list", PList error_list);
          (PStr "no_of_invalid_tags", PInt (Z.of_nat (length error_list))) ].

Definition has_errors (p : string * list pyval) : bool :=
  match p.2 with
  | [] => false
  | _ => true
  end.

(** The records of the states that have at least one error, in the order of
    the states. *)
Definition invalid_states (named_errors : list (string * list pyval)) : list pyval :=
  (fun p => state_record p.1 p.2) <$> List.filter has_errors named_errors.

(** What the validation says about a state: its html strings are read and
    joined, and the check of the joined string returns [error_list]. *)
Definition state_errors `{Host} (entry : string * state) (named : string * list pyval)
  : Prop :=
  named.1 = entry.1
  ∧ ∃ strings,
      state_get_all_html_content_strings entry.2 = inr strings
      ∧ validate_math_content_attribute_in_html (String.concat "" strings) = inr named.2.

(** [value['no_of_invalid_tags']] when it is there and an integer. *)
Definition count_of (value : pyval) : option Z :=
  match value with
  | PDict d =>
      match dict_lookup d (PStr "no_of_invalid_tags") with
      | Some (PInt n) => Some n
      | _ => None
      end
  | _ => None
  end.

(** [value] after [del value['no_of_invalid_tags']]. *)
Definition without_count (value : pyval) : pyval :=
  match value with
  | PDict d => PDict (dict_remove d (PStr "no_of_invalid_tags"))
  | _ => value
  end.

Definition sum_counts (values : list pyval) : Z :=
  foldr (fun value acc => default 0 (count_of value) + acc) 0 values.

(** The sum of the counts of all the records of all the explorations. *)
Definition total_invalid_tags (decoded : list (string * list pyval)) : Z :=
  foldr (fun p acc => sum_counts p.2 + acc) 0 decoded.

(** The dictionary of the detailed information: each exploration id, in the
    order of first appearance, with the records of its last appearance,
    their counts removed. *)
Definition detailed_info (decoded : list (string * list pyval)) : list (pyval * pyval) :=
  foldl (fun d p => dict_set d (PStr p.1) (PList (without_count <$> p.2))) [] decoded.

(** The number of errors the validation found in the states of the
    explorations. *)
Definition errors_found (runs : list (string * list (string * list pyval))) : Z :=
  foldr (fun p acc => Z.of_nat (length (concat p.2.*2)) + acc) 0 runs.

(** What [map] yields as value for an exploration, as [reduce] decodes it. *)
Definition invalid_tags_value (run : string * list (string * list pyval)) : pyval :=
  PTuple [PStr run.1; PList (invalid_states run.2)].

(** An exploration in the sample of the validator (its id ends in [a]), with
    its rights and snapshot metadata, and with the commit log entry of
    version 1 but not that of version 2. *)
Module Sampled.

Definition item (version : Z) : ExplorationModel.t :=
  {| ExplorationModel.id := "expa";
     ExplorationModel.deleted := false;
     ExplorationModel.version := version;
     ExplorationModel.title := "title";
     ExplorationModel.states_schema_version := 43;
     ExplorationModel.states := PDict [] |}.

Definition logged_store : store :=
  {| explorations := {[ "expa" := item 2 ]};
     rights_models :=
       {[ ("expa", 1) := Demo.rights "private" 100;
          ("expa", 2) := Demo.rights "public" 200 ]};
     snapshot_metadata :=
       {[ "expa-1" := Demo.metadata 50; "expa-2" := Demo.metadata 250 ]};
     commit_log_entries :=
       {[ "exploration-expa-1" :=
            @regenerated_entry Demo.host "expa" 1
              (Demo.metadata 50) (Demo.rights "private" 100) ]} |}.

(** The same exploration with the snapshot metadata of version 1 only and
    no commit log entry. *)
Definition gap_store : store :=
  {| explorations := {[ "expa" := item 2 ]};
     rights_models := {[ ("expa", 1) := Demo.rights "private" 100 ]};
     snapshot_metadata := {[ "expa-1" := Demo.metadata 50 ]};
     commit_log_entries := ∅ |}.

(** The errors of its two states: one invalid tag in the first, none in the
    second. *)
Definition named_errors : list (string * list pyval) :=
  [ ("Intro", [PStr "bad tag"]); ("End", []) ].

Definition decode (s : string) : exn + pyval :=
  if String.eqb s "['<a>', 'Exp ID: expa']"
  then inr (PList [PStr "<a>"; PStr "Exp ID: expa"])
  else if String.eqb s "('expa', [{'state_name': 'Intro', 'error_list': ['bad tag'], 'no_of_invalid_tags': 1}])"
  then inr (invalid_tags_value ("expa", named_errors))
  else inl (Exn ValueError "malformed string").

(** A host that finds an invalid tag in every state with html, and one
    customization error in every exploration. *)
Definition host : Host := {|
  CURRENT_STATE_SCHEMA_VERSION := 43;
  MIGRATION_BOT_USERNAME := "OppiaMigrationBot";
  ACTIVITY_STATUS_PRIVATE := "private";
  CMD_MIGRATE_STATES_SCHEMA_TO_LATEST_VERSION := "migrate_states_schema_to_latest_version";
  exploration := ExplorationModel.t;
  state := list string;
  validate := fun _ _ => inr tt;
  states_items := fun _ => [ ("Intro", ["<p>"]); ("End", []) ];
  state_get_all_html_content_strings := fun st => inr st;
  get_all_html_content_strings := fun _ => inr ["<p>"];
  update_states_from_model := fun vs v _ =>
    inr {| vs_states_schema_version := v + 1; vs_states := vs_states vs |};
  get_exploration_from_model := fun m => inr m;
  get_exploration_by_id := fun s id =>
    match explorations s !! id with
    | Some m => inr m
    | None => inl (Exn EntityNotFoundError id)
    end;
  get_exploration_rights := fun s id strict =>
    inr (Some {| rights_status := "private"; viewable_if_private := false |});
  update_exploration := fun s _ _ _ _ => inr s;
  validate_math_content_attribute_in_html := fun html_string =>
    if String.eqb html_string "" then inr [] else inr [PStr "bad tag"];
  validate_customization_args := fun _ => inr [ ("Invalid URL", ["<a>"]) ];
  literal_eval := decode;
  py_str := fun _ => "";
  py_eq := fun _ _ => true;
  sort_tuples := fun _ => inl (Exn TypeError "'<' not supported between instances");
  utcnow := 0
|}.

End Sampled.

Create HintDb gen_facts.

(** *** The monad *)

Lemma silent_ret {A} (a : A) : silent (ret a).
Proof. by exists (Returned a). Qed.

Lemma silent_raise {A} (e : exn) : silent (@raise A e).
Proof. by exists (Raised e). Qed.

Lemma silent_unmodelled {A} : silent (@unmodelled A).
Proof. by exists Unmodelled. Qed.

Lemma silent_call {A} (r : exn + A) : silent (call r).
Proof. destruct r; [apply silent_raise | apply silent_ret]. Qed.

Lemma silent_bind {A B} (m : gen A) (k : A -> gen B) :
  silent m → (∀ a, silent (k a)) → silent (bind m k).
Proof.
  intros [r Hm] Hk. destruct r as [a | e |].
  - destruct (Hk a) as [r' Hk']. exists r'. intros w.
    unfold bind. rewrite Hm. simpl. by rewrite Hk'.
  - exists (Raised e). intros w. unfold bind. by rewrite Hm.
  - exists Unmodelled. intros w. unfold bind. by rewrite Hm.
Qed.

Lemma silent_list_comp {A B} (f : A -> gen B) (xs : list A) :
  (∀ x, silent (f x)) → silent (list_comp f xs).
Proof.
  intros Hf. induction xs as [| x xs IH]; simpl.
  - apply silent_ret.
  - apply silent_bind; [apply Hf |]. intros y.
    apply silent_bind; [apply IH |]. intros ys. apply silent_ret.
Qed.

Lemma silent_world_independent {A} (m : gen A) : silent m → world_independent m.
Proof. intros [r Hm]. by exists r, []. Qed.

Lemma world_independent_yield key value : world_independent (yield key value).
Proof. by exists (Returned tt), [(key, value)]. Qed.

Lemma world_independent_bind {A B} (m : gen A) (k : A -> gen B) :
  world_independent m → (∀ a, world_independent (k a)) → world_independent (bind m k).
Proof.
  intros (r & ys & Hm) Hk. destruct r as [a | e |].
  - destruct (Hk a) as (r' & ys' & Hk'). exists r', (ys ++ ys'). intros w.
    unfold bind. rewrite Hm. simpl. by rewrite Hk'.
  - exists (Raised e), ys. intros w. unfold bind. by rewrite Hm.
  - exists Unmodelled, ys. intros w. unfold bind. by rewrite Hm.
Qed.

#[global] Hint Resolve silent_ret silent_raise silent_unmodelled silent_call
  silent_bind silent_list_comp : gen_facts.
#[global] Hint Resolve world_independent_yield world_independent_bind : gen_facts.

(** Running a silent computation first changes neither the world nor what
    has been yielded. *)
Lemma bind_silent {A B} (m : gen A) (k : A -> gen B) (r : result A) :
  (∀ w, m w = Outcome r [] w) →
  ∀ w, bind m k w =
       match r with
       | Returned a => k a w
       | Raised e => Outcome (Raised e) [] w
       | Unmodelled => Outcome Unmodelled [] w
       end.
Proof.
  intros Hm w. unfold bind. rewrite Hm. destruct r; simpl; [| done | done].
  by destruct (k a w).
Qed.

Lemma read_only_ret {A} (a : A) : read_only (ret a).
Proof. by intros w. Qed.

Lemma read_only_raise {A} (e : exn) : read_only (@raise A e).
Proof. by intros w. Qed.

Lemma read_only_unmodelled {A} : read_only (@unmodelled A).
Proof. by intros w. Qed.

Lemma read_only_call {A} (r : exn + A) : read_only (call r).
Proof. by destruct r. Qed.

Lemma read_only_yield key value : read_only (yield key value).
Proof. by intros w. Qed.

Lemma read_only_trace op : read_only (trace op).
Proof. by intros w. Qed.

Lemma read_only_logging msg : read_only (logging msg).
Proof. by intros w. Qed.

Lemma read_only_get_store : read_only get_store.
Proof. by intros w. Qed.

Lemma read_only_bind {A B} (m : gen A) (k : A -> gen B) :
  read_only m → (∀ a, read_only (k a)) → read_only (bind m k).
Proof.
  intros Hm Hk w. unfold bind. specialize (Hm w).
  destruct (res (m w)) as [a | e |]; simpl; [| done | done].
  by rewrite Hk.
Qed.

Lemma read_only_try_except {A} (body : gen A) (handler : exn -> gen A) :
  read_only body → (∀ e, read_only (handler e)) → read_only (try_except body handler).
Proof.
  intros Hb Hh w. unfold try_except. specialize (Hb w).
  destruct (res (body w)) as [a | e |]; simpl; [done | | done].
  by rewrite Hh.
Qed.

Lemma read_only_for_each {A} (xs : list A) (body : A -> gen unit) :
  (∀ x, read_only (body x)) → read_only (for_each xs body).
Proof.
  intros Hb. induction xs as [| x xs IH]; simpl.
  - apply read_only_ret.
  - apply read_only_bind; [apply Hb | by intros _].
Qed.

Lemma read_only_silent {A} (m : gen A) : silent m → read_only m.
Proof. intros [r Hm] w. by rewrite Hm. Qed.

#[global] Hint Resolve read_only_ret read_only_raise read_only_unmodelled
  read_only_call read_only_yield read_only_trace read_only_logging
  read_only_get_store read_only_bind read_only_try_except
  read_only_for_each : gen_facts.

(** *** The reducers *)

Ltac silent_steps :=
  repeat first
    [ apply silent_ret | apply silent_raise | apply silent_unmodelled
    | apply silent_call | apply silent_list_comp; intros ?
    | apply silent_bind; [| intros ?] ].

Lemma silent_collect_tags values exp_id n info :
  silent (ExplorationRteMathContentValidationOneOffJob.collect_tags values exp_id n info).
Proof.
  revert n info. induction values as [| value rest IH]; intros n info; simpl.
  - apply silent_ret.
  - silent_steps. apply IH.
Qed.

Lemma silent_collect_exps final_values n info :
  silent (ExplorationRteMathContentValidationOneOffJob.collect_exps final_values n info).
Proof.
  revert n info. induction final_values as [| v rest IH]; intros n info; simpl.
  - apply silent_ret.
  - silent_steps; [apply silent_collect_tags | apply IH].
Qed.

Lemma silent_pair_up fuel flattened_values index output_values :
  silent (RTECustomizationArgsValidationOneOffJob.pair_up
            fuel flattened_values index output_values).
Proof.
  revert index output_values.
  induction fuel as [| fuel IH]; intros index output_values; simpl;
    destruct (index <? length flattened_values)%nat; silent_steps.
  apply IH.
Qed.

Lemma silent_sort_pairs `{Host} l : silent (sort_pairs l).
Proof.
  unfold sort_pairs. destruct l as [| p [| q l]]; [silent_steps | silent_steps |].
  destruct (mapM as_str_pair (p :: q :: l)); [silent_steps |].
  destruct (mapM as_int_pair (p :: q :: l)); silent_steps.
Qed.

#[global] Hint Resolve silent_collect_tags silent_collect_exps silent_pair_up
  silent_sort_pairs : gen_facts.

Ltac world_independent_steps :=
  repeat first
    [ apply world_independent_yield
    | apply world_independent_bind; [| intros ?]
    | apply silent_world_independent; solve [auto with gen_facts | silent_steps] ].

Lemma world_independent_reduce `{Host} (j : job) (key : string) (values : list string) :
  world_independent (job_reduce j key values).
Proof.
  destruct j; simpl;
    unfold ExplorationValidityJobManager.reduce, ExplorationMigrationAuditJob.reduce,
      ExplorationMigrationJobManager.reduce,
      ExplorationRteMathContentValidationOneOffJob.reduce,
      ViewableExplorationsAuditJob.reduce,
      RTECustomizationArgsValidationOneOffJob.reduce,
      RegenerateMissingExpCommitLogModels.reduce,
      ExpCommitLogModelRegenerationValidator.reduce;
    try apply world_independent_yield.
  - destruct (String.eqb key "SUCCESS"); apply world_independent_yield.
  - world_independent_steps.
  - world_independent_steps.
    destruct (contains "loading exploration" key); world_independent_steps.
Qed.

(** C5. The reducers of the migration jobs count:
    [ExplorationMigrationAuditJob.reduce] yields [(key, len(values))] when
    [key] is ['SUCCESS'] and [(key, values)] for any other key, and
    [ExplorationMigrationJobManager.reduce] yields [(key, len(values))] for
    every key; each yields that one pair and nothing else. *)
Theorem migration_reducers_count (key : string) (values : list string) (w : world) :
  ExplorationMigrationAuditJob.reduce key values w =
    Outcome (Returned tt)
      [(key, if decide (key = "SUCCESS")
             then PInt (Z.of_nat (length values))
             else PList (PStr <$> values))] w
  ∧ ExplorationMigrationJobManager.reduce key values w =
    Outcome (Returned tt) [(key, PInt (Z.of_nat (length values)))] w.
Proof.
  split; [| reflexivity].
  unfold ExplorationMigrationAuditJob.reduce.
  destruct (String.eqb_spec key "SUCCESS") as [-> | Hne].
  - reflexivity.
  - by rewrite decide_False.
Qed.

Lemma bind_ret {A B} (a : A) (k : A -> gen B) (w : world) :
  bind (ret a) k w = k a w.
Proof. unfold bind, ret. simpl. by destruct (k a w). Qed.

Lemma bind_call_inr {A B} (a : A) (k : A -> gen B) (w : world) :
  bind (call (inr a)) k w = k a w.
Proof. apply bind_ret. Qed.

Lemma bind_call_inl {A B} (e : exn) (k : A -> gen B) (w : world) :
  bind (call (inl e)) k w = Outcome (Raised e) [] w.
Proof. reflexivity. Qed.

Lemma bind_returned {A B} (m : gen A) (k : A -> gen B) (w w' : world) (a : A) ys :
  m w = Outcome (Returned a) ys w' →
  bind m k w = Outcome (res (k a w')) (ys ++ yielded (k a w')) (after (k a w')).
Proof. intros Hm. unfold bind. by rewrite Hm. Qed.

Lemma bind_trace {B} (op : ds_op) (k : unit -> gen B) (w : world) :
  bind (trace op) k w = k tt (World (datastore w) (ds_trace w ++ [op]) (logged w)).
Proof. unfold bind, trace. cbn [res yielded after app]. by destruct (k tt _). Qed.

Lemma bind_get_store {B} (k : store -> gen B) (w : world) :
  bind get_store k w = k (datastore w) w.
Proof. unfold bind, get_store. cbn [res yielded after app]. by destruct (k _ w). Qed.

Lemma try_except_raised {A} (body : gen A) (handler : exn -> gen A) (w w' : world) e :
  body w = Outcome (Raised e) [] w' → try_except body handler w = handler e w'.
Proof.
  intros Hb. unfold try_except. rewrite Hb. cbn [res yielded after app].
  by destruct (handler e w').
Qed.

Lemma try_except_returned {A} (body : gen A) (handler : exn -> gen A) (w w' : world) a ys :
  body w = Outcome (Returned a) ys w' →
  try_except body handler w = Outcome (Returned a) ys w'.
Proof. intros Hb. unfold try_except. by rewrite Hb. Qed.

Lemma list_comp_call {A B} (f : A -> exn + B) (xs : list A) (ys : list B) :
  Forall2 (fun x y => f x = inr y) xs ys →
  ∀ w, list_comp (fun x => call (f x)) xs w = Outcome (Returned ys) [] w.
Proof.
  induction 1 as [| x y xs ys Hxy _ IH]; intros w; simpl; [done |].
  rewrite Hxy, bind_call_inr.
  by rewrite (bind_silent _ _ (Returned ys) IH).
Qed.

(** *** Deleted items *)

(** C8. For every job of the module and every item with [item.deleted] true,
    [map] returns at once: it yields no pair, reads and writes nothing in the
    datastore (the store and the trace of accesses are untouched) and logs
    nothing. *)
Theorem map_skips_deleted `{Host} (j : job) (item : ExplorationModel.t) (w : world) :
  ExplorationModel.deleted item = true →
  job_map j item w = Outcome (Returned tt) [] w.
Proof.
  intros Hdel.
  destruct j; simpl;
    unfold ExplorationValidityJobManager.map, ExplorationMigrationAuditJob.map,
      ExplorationMigrationJobManager.map,
      ExplorationRteMathContentValidationOneOffJob.map,
      ViewableExplorationsAuditJob.map,
      RTECustomizationArgsValidationOneOffJob.map,
      RegenerateMissingExpCommitLogModels.map,
      ExpCommitLogModelRegenerationValidator.map;
    rewrite Hdel; reflexivity.
Qed.

Lemma map_skips_deleted_witness :
  Forall (fun j =>
            @job_map Demo.host j (Demo.item "title" 3 40 true) (Demo.world_of Demo.store3) =
            Outcome (Returned tt) [] (Demo.world_of Demo.store3))
         all_jobs.
Proof.
  unfold all_jobs.
  repeat (apply Forall_cons; split;
          [apply (@map_skips_deleted Demo.host); reflexivity |]).
  apply Forall_nil_2.
Defined.

(** *** The pairing loop of RTECustomizationArgsValidationOneOffJob.reduce *)

(** The loop started at [index], with the list split there and fuel for what
    is left, does what [pair_up_result] says. *)
Lemma pair_up_from (fuel : nat) :
  ∀ (rest pre : list pyval) (output_values : list (pyval * pyval)) (w : world),
    (length rest ≤ fuel)%nat →
    RTECustomizationArgsValidationOneOffJob.pair_up
      fuel (pre ++ rest) (length pre) output_values w =
    Outcome (pair_up_result rest output_values) [] w.
Proof.
  induction fuel as [| fuel IH]; intros rest pre out w Hlen.
  - destruct rest; [| simpl in Hlen; lia].
    cbn [RTECustomizationArgsValidationOneOffJob.pair_up].
    rewrite app_nil_r, Nat.ltb_irrefl. reflexivity.
  - cbn [RTECustomizationArgsValidationOneOffJob.pair_up].
    destruct rest as [| x [| y rest]].
    + rewrite app_nil_r, Nat.ltb_irrefl. reflexivity.
    + replace (length pre <? length (pre ++ [x]))%nat with true
        by (symmetry; apply Nat.ltb_lt; rewrite length_app; simpl; lia).
      unfold list_getitem.
      rewrite lookup_ge_None_2 by (rewrite length_app; simpl; lia).
      reflexivity.
    + replace (length pre <? length (pre ++ x :: y :: rest))%nat with true
        by (symmetry; apply Nat.ltb_lt; rewrite length_app; simpl; lia).
      unfold list_getitem.
      rewrite lookup_app_r by lia.
      replace (length pre + 1 - length pre)%nat with 1%nat by lia.
      cbn [lookup list_lookup]. rewrite bind_call_inr.
      rewrite list_lookup_middle by done.
      rewrite bind_call_inr.
      replace (pre ++ x :: y :: rest) with ((pre ++ [x; y]) ++ rest)
        by (by rewrite <- app_assoc).
      replace (length pre + 2)%nat with (length (pre ++ [x; y]))
        by (rewrite length_app; simpl; lia).
      rewrite IH by (simpl in Hlen; lia). reflexivity.
Qed.

Lemma pair_up_run (flattened_values : list pyval) (w : world) :
  RTECustomizationArgsValidationOneOffJob.pair_up
    (length flattened_values) flattened_values 0 [] w =
  Outcome (pair_up_result flattened_values []) [] w.
Proof. apply (pair_up_from _ flattened_values [] [] w). lia. Qed.

Lemma pair_up_result_parity (n : nat) :
  ∀ (rest : list pyval) (output_values : list (pyval * pyval)),
    (length rest ≤ n)%nat →
    (Nat.Even (length rest) → ∃ out, pair_up_result rest output_values = Returned out)
    ∧ (Nat.Odd (length rest) →
       pair_up_result rest output_values =
       Raised (Exn IndexError "list index out of range")).
Proof.
  induction n as [| n IH]; intros rest out Hlen.
  - destruct rest; [| simpl in Hlen; lia]. split.
    + by exists out.
    + intros [k Hk]. simpl in Hk. lia.
  - destruct rest as [| x [| y rest]].
    + split; [by exists out |]. intros [k Hk]. simpl in Hk. lia.
    + split; [| done]. intros [k Hk]. simpl in Hk. lia.
    + simpl in Hlen. destruct (IH rest (out ++ [(y, x)]) ltac:(lia)) as [He Ho].
      split; intros Hp; [apply He | apply Ho].
      * destruct Hp as [k Hk]. simpl in Hk. exists (k - 1)%nat. lia.
      * destruct Hp as [k Hk]. simpl in Hk. exists (k - 1)%nat. lia.
Qed.

(** C9. In the pairing loop of [RTECustomizationArgsValidationOneOffJob.reduce]
    the loop index runs over the even numbers below the length. If the
    flattened list has even length, both accesses of every iteration are
    within bounds and the loop returns; if it has odd length, the access
    [flattened_values[index + 1]] of the last iteration is out of range and
    the loop raises [IndexError]. *)
Theorem pairing_loop_bounds (flattened_values : list pyval) (w : world) :
  (Nat.Even (length flattened_values) →
     (∀ index : nat, Nat.Even index → (index < length flattened_values)%nat →
        is_Some (flattened_values !! (index + 1)%nat)
        ∧ is_Some (flattened_values !! index))
     ∧ ∃ output_values,
         RTECustomizationArgsValidationOneOffJob.pair_up
           (length flattened_values) flattened_values 0 [] w =
         Outcome (Returned output_values) [] w)
  ∧ (Nat.Odd (length flattened_values) →
     is_Some (flattened_values !! (length flattened_values - 1)%nat)
     ∧ list_getitem flattened_values (length flattened_values - 1 + 1) =
       inl (Exn IndexError "list index out of range")
     ∧ RTECustomizationArgsValidationOneOffJob.pair_up
         (length flattened_values) flattened_values 0 [] w =
       Outcome (Raised (Exn IndexError "list index out of range")) [] w).
Proof.
  rewrite pair_up_run.
  destruct (pair_up_result_parity (length flattened_values) flattened_values []
              ltac:(lia)) as [He Ho].
  split.
  - intros Heven. split.
    + intros index [k Hk] Hlt. destruct Heven as [n Hn].
      split; apply lookup_lt_is_Some; lia.
    + destruct (He Heven) as [out Hout]. exists out. by rewrite Hout.
  - intros Hodd. split; [| split].
    + apply lookup_lt_is_Some. destruct Hodd as [n Hn]. lia.
    + unfold list_getitem. rewrite lookup_ge_None_2; [done |].
      destruct Hodd as [n Hn]. lia.
    + by rewrite (Ho Hodd).
Qed.

Lemma pairing_loop_bounds_witness :
  (∃ output_values,
     RTECustomizationArgsValidationOneOffJob.pair_up 4
       [PStr "e1"; PStr "id1"; PStr "e2"; PStr "id2"] 0 []
       (Demo.world_of Demo.empty_store) =
     Outcome (Returned output_values) [] (Demo.world_of Demo.empty_store))
  ∧ RTECustomizationArgsValidationOneOffJob.pair_up 3
      [PStr "e1"; PStr "id1"; PStr "e2"] 0 [] (Demo.world_of Demo.empty_store) =
    Outcome (Raised (Exn IndexError "list index out of range")) []
      (Demo.world_of Demo.empty_store).
Proof.
  split.
  - apply (pairing_loop_bounds [PStr "e1"; PStr "id1"; PStr "e2"; PStr "id2"]
             (Demo.world_of Demo.empty_store)).
    exists 2%nat. reflexivity.
  - apply (pairing_loop_bounds [PStr "e1"; PStr "id1"; PStr "e2"]
             (Demo.world_of Demo.empty_store)).
    exists 1%nat. reflexivity.
Defined.

(** *** The reducers return or raise *)

Lemma modelled_ret {A} (a : A) : modelled (ret a).
Proof. by intros w. Qed.

Lemma modelled_call {A} (r : exn + A) : modelled (call r).
Proof. by destruct r; intros w. Qed.

Lemma modelled_yield key value : modelled (yield key value).
Proof. by intros w. Qed.

Lemma modelled_bind {A B} (m : gen A) (k : A -> gen B) :
  modelled m → (∀ a, modelled (k a)) → modelled (bind m k).
Proof.
  intros Hm Hk w. unfold bind. specialize (Hm w).
  destruct (res (m w)) as [a | e |]; cbn [res]; [apply Hk | done | done].
Qed.

Lemma modelled_list_comp {A B} (f : A -> gen B) (xs : list A) :
  (∀ x, modelled (f x)) → modelled (list_comp f xs).
Proof.
  intros Hf. induction xs as [| x xs IH]; cbn [list_comp]; [apply modelled_ret |].
  apply modelled_bind; [apply Hf | intros y].
  apply modelled_bind; [apply IH | intros ys; apply modelled_ret].
Qed.

Ltac modelled_steps :=
  repeat first
    [ apply modelled_ret | apply modelled_call | apply modelled_yield
    | apply modelled_list_comp; intros ?
    | apply modelled_bind; [| intros ?] ].

Lemma modelled_collect_tags values exp_id n info :
  modelled (ExplorationRteMathContentValidationOneOffJob.collect_tags values exp_id n info).
Proof.
  revert n info. induction values as [| value rest IH]; intros n info;
    cbn [ExplorationRteMathContentValidationOneOffJob.collect_tags].
  - apply modelled_ret.
  - modelled_steps. apply IH.
Qed.

Lemma modelled_collect_exps final_values n info :
  modelled (ExplorationRteMathContentValidationOneOffJob.collect_exps final_values n info).
Proof.
  revert n info. induction final_values as [| v rest IH]; intros n info;
    cbn [ExplorationRteMathContentValidationOneOffJob.collect_exps].
  - apply modelled_ret.
  - modelled_steps; [apply modelled_collect_tags | apply IH].
Qed.

(** The pairing loop never runs out of fuel: it returns or raises. *)
Lemma modelled_pair_up (flattened_values : list pyval) :
  modelled (RTECustomizationArgsValidationOneOffJob.pair_up
              (length flattened_values) flattened_values 0 []).
Proof.
  intros w. rewrite pair_up_run. cbn [res].
  destruct (pair_up_result_parity (length flattened_values) flattened_values []
              ltac:(lia)) as [He Ho].
  destruct (Nat.Even_or_Odd (length flattened_values)) as [Heven | Hodd].
  - destruct (He Heven) as [out ->]. done.
  - by rewrite (Ho Hodd).
Qed.

(** The sort returns or raises, whatever the tuples are. *)
Lemma modelled_sort_pairs `{Host} l : modelled (sort_pairs l).
Proof.
  unfold sort_pairs. destruct l as [| p [| q l]]; [modelled_steps | modelled_steps |].
  destruct (mapM as_str_pair (p :: q :: l)); [modelled_steps |].
  destruct (mapM as_int_pair (p :: q :: l)); modelled_steps.
Qed.

Lemma modelled_reduce `{Host} (j : job) (key : string) (values : list string) :
  modelled (job_reduce j key values).
Proof.
  destruct j; cbn [job_reduce];
    unfold ExplorationValidityJobManager.reduce, ExplorationMigrationAuditJob.reduce,
      ExplorationMigrationJobManager.reduce,
      ExplorationRteMathContentValidationOneOffJob.reduce,
      ViewableExplorationsAuditJob.reduce,
      RTECustomizationArgsValidationOneOffJob.reduce,
      RegenerateMissingExpCommitLogModels.reduce,
      ExpCommitLogModelRegenerationValidator.reduce;
    try apply modelled_yield.
  - destruct (String.eqb key "SUCCESS"); apply modelled_yield.
  - modelled_steps. apply modelled_collect_exps.
  - modelled_steps.
    destruct (contains "loading exploration" key); modelled_steps.
    + apply modelled_pair_up.
    + apply modelled_sort_pairs.
Qed.

(** C7. Every [reduce] of the module is a deterministic function of its
    [(key, values)] arguments, for every key and every list of values: run in
    any two worlds (after any other invocations, in any order) it ends the
    same way and yields the same sequence of pairs, and it leaves no state
    behind: the datastore, its access trace and the log are as it found them.
    Every invocation returns or raises: none falls outside the model. *)
Theorem reduce_deterministic `{Host} (j : job) (key : string) (values : list string)
    (w1 w2 : world) :
  res (job_reduce j key values w1) = res (job_reduce j key values w2)
  ∧ yielded (job_reduce j key values w1) = yielded (job_reduce j key values w2)
  ∧ after (job_reduce j key values w1) = w1
  ∧ after (job_reduce j key values w2) = w2
  ∧ res (job_reduce j key values w1) ≠ Unmodelled.
Proof.
  split_and!; [| | | | apply modelled_reduce];
    destruct (world_independent_reduce j key values) as (r & ys & Hw);
    by rewrite !Hw.
Qed.

(** C3 (as the code has it). Every invocation of [reduce] returns or raises.
    One that returns yields exactly one line, the pair whose first component
    is the invoked key, for every job but
    [ExplorationRteMathContentValidationOneOffJob], whose [reduce] yields two
    lines keyed ['Overall result.'] and ['Detailed information on invalid
    tags.'] whatever the invoked key; an invocation that raises - only the two
    reducers that decode their values can - yields no line. *)
Theorem reduce_output_lines `{Host} (j : job) (key : string) (values : list string)
    (w : world) :
  match res (job_reduce j key values w) with
  | Returned _ =>
      if decide (j = JExplorationRteMathContentValidationOneOffJob)
      then ∃ v1 v2, yielded (job_reduce j key values w) =
             [("Overall result.", v1); ("Detailed information on invalid tags.", v2)]
      else ∃ v, yielded (job_reduce j key values w) = [(key, v)]
  | Raised _ =>
      yielded (job_reduce j key values w) = []
      ∧ (j = JExplorationRteMathContentValidationOneOffJob
         ∨ j = JRTECustomizationArgsValidationOneOffJob)
  | Unmodelled => False
  end.
Proof.
  pose proof (modelled_reduce j key values w) as Hmod. revert Hmod.
  destruct j; simpl; try (by intros _; eexists).
  - unfold ExplorationMigrationAuditJob.reduce.
    destruct (String.eqb key "SUCCESS"); by intros _; eexists.
  - unfold ExplorationRteMathContentValidationOneOffJob.reduce.
    destruct (silent_list_comp (fun value => call (literal_eval value)) values
                ltac:(intros; apply silent_call)) as [r1 H1].
    rewrite (bind_silent _ _ r1 H1).
    destruct r1 as [final_values | e |]; simpl; [| by auto | by auto].
    destruct (silent_collect_exps final_values 0 []) as [r2 H2].
    rewrite (bind_silent _ _ r2 H2).
    destruct r2 as [q | e |]; simpl; [| by auto | by auto].
    intros _. by do 2 eexists.
  - unfold RTECustomizationArgsValidationOneOffJob.reduce.
    destruct (silent_list_comp (fun value => call (literal_eval value)) values
                ltac:(intros; apply silent_call)) as [r1 H1].
    rewrite (bind_silent _ _ r1 H1).
    destruct r1 as [final_values | e |]; simpl; [| by auto | by auto].
    destruct (silent_list_comp (fun sublist => call (py_iter sublist)) final_values
                ltac:(intros; apply silent_call)) as [r2 H2].
    rewrite (bind_silent _ _ r2 H2).
    destruct r2 as [sublists | e |]; simpl; [| by auto | by auto].
    destruct (contains "loading exploration" key); [by intros _; eexists |].
    destruct (silent_pair_up (length (concat sublists)) (concat sublists) 0 [])
      as [r3 H3].
    rewrite (bind_silent _ _ r3 H3).
    destruct r3 as [output_values | e |]; simpl; [| by auto | by auto].
    destruct (silent_sort_pairs output_values) as [r4 H4].
    rewrite (bind_silent _ _ r4 H4).
    destruct r4 as [sorted_values | e |]; simpl; [| by auto | by auto].
    intros _. by eexists.
Qed.

(** C3, counterexample. Invoked with the key ['Found invalid tags'] (the key
    its own [map] emits) and the value [map] emits for an exploration with
    one invalid tag, the [reduce] of
    [ExplorationRteMathContentValidationOneOffJob] returns after yielding two
    lines, neither of them keyed by the invoked key. *)
Lemma reduce_one_line_counterexample :
  res (@job_reduce Sampled.host JExplorationRteMathContentValidationOneOffJob
         "Found invalid tags"
         ["('expa', [{'state_name': 'Intro', 'error_list': ['bad tag'], 'no_of_invalid_tags': 1}])"]
         (Demo.world_of Demo.empty_store)) = Returned tt
  ∧ yielded (@job_reduce Sampled.host JExplorationRteMathContentValidationOneOffJob
       "Found invalid tags"
       ["('expa', [{'state_name': 'Intro', 'error_list': ['bad tag'], 'no_of_invalid_tags': 1}])"]
       (Demo.world_of Demo.empty_store)) =
    [ ("Overall result.",
       PDict [ (PStr "no_of_explorations_with_no_svgs", PInt 1);
               (PStr "no_of_invalid_tags", PInt 1) ]);
      ("Detailed information on invalid tags.",
       PDict [ (PStr "expa",
                PList [PDict [ (PStr "state_name", PStr "Intro");
                               (PStr "error_list", PList [PStr "bad tag"]) ]]) ]) ]
  ∧ ¬ ∃ v, yielded (@job_reduce Sampled.host JExplorationRteMathContentValidationOneOffJob
             "Found invalid tags"
             ["('expa', [{'state_name': 'Intro', 'error_list': ['bad tag'], 'no_of_invalid_tags': 1}])"]
             (Demo.world_of Demo.empty_store)) =
           [("Found invalid tags", v)].
Proof.
  split; [reflexivity |]. split; [reflexivity |].
  intros [v Hv]. vm_compute in Hv. discriminate Hv.
Qed.

(** *** The order of string pairs and the sort *)

Lemma ascii_compare_refl (a : ascii) : Ascii.compare a a = Eq.
Proof. apply N.compare_refl. Qed.

Lemma ascii_compare_lt_trans (a b c : ascii) :
  Ascii.compare a b = Lt → Ascii.compare b c = Lt → Ascii.compare a c = Lt.
Proof. unfold Ascii.compare. rewrite !N.compare_lt_iff. lia. Qed.

Lemma string_compare_refl (s : string) : String.compare s s = Eq.
Proof. induction s as [| a s IH]; simpl; [done |]. by rewrite ascii_compare_refl. Qed.

Lemma string_compare_lt_trans (s1 : string) :
  ∀ s2 s3, String.compare s1 s2 = Lt → String.compare s2 s3 = Lt →
           String.compare s1 s3 = Lt.
Proof.
  induction s1 as [| a s1 IH]; intros [| b s2] [| c s3]; simpl; try done.
  destruct (Ascii.compare a b) eqn:Eab; [| | done];
    destruct (Ascii.compare b c) eqn:Ebc; try done.
  - apply Ascii.compare_eq_iff in Eab, Ebc. subst.
    rewrite ascii_compare_refl. apply IH.
  - apply Ascii.compare_eq_iff in Eab. subst. by rewrite Ebc.
  - apply Ascii.compare_eq_iff in Ebc. subst. by rewrite Eab.
  - by rewrite (ascii_compare_lt_trans a b c).
Qed.

Lemma string_leb_trans (s1 s2 s3 : string) :
  String.leb s1 s2 = true → String.leb s2 s3 = true → String.leb s1 s3 = true.
Proof.
  unfold String.leb.
  destruct (String.compare s1 s2) eqn:E12; [| | done];
    destruct (String.compare s2 s3) eqn:E23; try done; intros _ _.
  - apply String.compare_eq_iff in E12, E23. subst. by rewrite string_compare_refl.
  - apply String.compare_eq_iff in E12. subst. by rewrite E23.
  - apply String.compare_eq_iff in E23. subst. by rewrite E12.
  - by rewrite (string_compare_lt_trans s1 s2 s3).
Qed.

Lemma pair_le_total : Total pair_le.
Proof.
  intros [a1 a2] [b1 b2]. unfold pair_le. simpl.
  rewrite (String.compare_antisym b1 a1).
  destruct (String.compare a1 b1); simpl; [| by left | by right].
  destruct (String.leb_total a2 b2); [by left | by right].
Qed.

Lemma pair_le_trans : Transitive pair_le.
Proof.
  intros [a1 a2] [b1 b2] [c1 c2]. unfold pair_le. simpl.
  destruct (String.compare a1 b1) eqn:Eab; [| | done];
    destruct (String.compare b1 c1) eqn:Ebc; try done.
  - apply String.compare_eq_iff in Eab, Ebc. subst.
    rewrite string_compare_refl. apply string_leb_trans.
  - apply String.compare_eq_iff in Eab. subst. by rewrite Ebc.
  - apply String.compare_eq_iff in Ebc. subst. by rewrite Eab.
  - by rewrite (string_compare_lt_trans a1 b1 c1).
Qed.

Lemma pair_le_antisym : AntiSymm (=) pair_le.
Proof.
  intros [a1 a2] [b1 b2]. unfold pair_le. simpl.
  rewrite (String.compare_antisym a1 b1).
  destruct (String.compare b1 a1) eqn:Eab; simpl; [| done | done].
  apply String.compare_eq_iff in Eab. subst.
  intros H1 H2. by rewrite (String.leb_antisym _ _ H1 H2).
Qed.

#[global] Existing Instances pair_le_total pair_le_trans pair_le_antisym.

(** On tuples of strings Python's sort returns the one ascending
    arrangement of the list, whatever way it finds it. *)
Lemma sort_pairs_strings `{Host} (sl : list (string * string)) (w : world) :
  sort_pairs (of_str_pair <$> sl) w =
  Outcome (Returned (of_str_pair <$> merge_sort pair_le sl)) [] w.
Proof.
  destruct sl as [| a [| b sl]]; [done | done |].
  unfold sort_pairs. rewrite !fmap_cons.
  rewrite <- !fmap_cons. rewrite mapM_fmap_Some; [done |]. by intros [x y].
Qed.

Lemma int_pair_le_total : Total int_pair_le.
Proof. intros a b. unfold int_pair_le. lia. Qed.

Lemma int_pair_le_trans : Transitive int_pair_le.
Proof. intros a b c. unfold int_pair_le. lia. Qed.

#[global] Existing Instances int_pair_le_total int_pair_le_trans.

(** On tuples of two integers the sort gives the ascending arrangement. *)
Lemma sort_pairs_integers `{Host} (il : list (Z * Z)) (w : world) :
  ∃ L, sort_pairs (of_int_pair <$> il) w = Outcome (Returned (of_int_pair <$> L)) [] w
       ∧ StronglySorted int_pair_le L
       ∧ L ≡ₚ il.
Proof.
  destruct il as [| a [| b il]].
  - exists []. split_and!; [done | constructor | done].
  - exists [a]. split_and!; [done | by repeat constructor | done].
  - exists (merge_sort int_pair_le (a :: b :: il)). split_and!.
    + unfold sort_pairs. rewrite !fmap_cons.
      assert (Hstr : mapM as_str_pair
                       (of_int_pair a :: of_int_pair b :: (of_int_pair <$> il)) = None)
        by done.
      rewrite Hstr. rewrite <- !fmap_cons.
      rewrite mapM_fmap_Some; [done |]. by intros [x y].
    + apply (StronglySorted_merge_sort int_pair_le).
    + apply (merge_sort_Permutation int_pair_le).
Qed.

Lemma sorted_arrangement_unique (sl l : list (string * string)) :
  StronglySorted pair_le l → l ≡ₚ sl → l = merge_sort pair_le sl.
Proof.
  intros Hs Hp. apply (StronglySorted_unique pair_le); [done | |].
  - apply (StronglySorted_merge_sort pair_le).
  - by rewrite Hp, (merge_sort_Permutation pair_le).
Qed.

Lemma pair_up_result_interleave (pairs : list (string * string)) :
  ∀ output_values,
    pair_up_result (interleave pairs) output_values =
    Returned (output_values ++ (of_str_pair <$> (swap <$> pairs))).
Proof.
  induction pairs as [| [e id] pairs IH]; intros out.
  - simpl. by rewrite app_nil_r.
  - change (interleave ((e, id) :: pairs))
      with (PStr e :: PStr id :: interleave pairs).
    cbn [pair_up_result]. rewrite IH. by rewrite <- app_assoc.
Qed.

(** C6. [RTECustomizationArgsValidationOneOffJob.reduce], invoked with values
    that each decode to a list: for a key that does not contain ['loading
    exploration'], if the concatenation of the decoded lists is
    [[e1, id1, ..., en, idn]] then it yields exactly one pair [(key, L)],
    where [L] is the list of the tuples [(id1, e1), ..., (idn, en)] in
    ascending order; for a key that contains ['loading exploration'] it yields
    [(key, the concatenated list)] unchanged. *)
Theorem rte_reduce_pairs_sorted `{Host} (key : string) (values : list string)
    (lists : list (list pyval)) (w : world) :
  Forall2 (fun value l => literal_eval value = inr (PList l)) values lists →
  (contains "loading exploration" key = false →
     ∀ pairs : list (string * string),
       concat lists = interleave pairs →
       ∃ L, RTECustomizationArgsValidationOneOffJob.reduce key values w =
              Outcome (Returned tt) [(key, PList (tuple_of <$> L))] w
            ∧ StronglySorted pair_le L
            ∧ L ≡ₚ swap <$> pairs)
  ∧ (contains "loading exploration" key = true →
       RTECustomizationArgsValidationOneOffJob.reduce key values w =
       Outcome (Returned tt) [(key, PList (concat lists))] w).
Proof.
  intros Hdec.
  assert (Hrun : ∀ k : list (list pyval) → gen unit,
             bind (list_comp (fun value => call (literal_eval value)) values)
               (fun final_values =>
                  bind (list_comp (fun sublist => call (py_iter sublist)) final_values) k) w
             = k lists w).
  { intros k.
    rewrite (bind_silent _ _ (Returned (PList <$> lists))).
    - rewrite (bind_silent _ _ (Returned lists)); [done |].
      apply list_comp_call. apply Forall2_fmap_l, Forall_Forall2_diag.
      by apply Forall_true.
    - apply list_comp_call. by apply Forall2_fmap_r. }
  unfold RTECustomizationArgsValidationOneOffJob.reduce. rewrite Hrun.
  split; intros Hkey; rewrite Hkey; [| done].
  intros pairs Hcat. exists (merge_sort pair_le (swap <$> pairs)).
  split; [| split].
  - rewrite (bind_silent _ _ _ (pair_up_run (concat lists))).
    rewrite Hcat, pair_up_result_interleave. simpl.
    rewrite (bind_silent _ _ _ (sort_pairs_strings (swap <$> pairs))).
    unfold yield. do 4 f_equal. rewrite <- list_fmap_compose.
    apply list_fmap_ext. by intros _ [a b] _.
  - apply (StronglySorted_merge_sort pair_le).
  - apply (merge_sort_Permutation pair_le).
Qed.

Lemma rte_reduce_pairs_sorted_witness :
  @RTECustomizationArgsValidationOneOffJob.reduce Demo.host "Invalid URL"
    ["['e1', 'Exp ID: b', 'e2', 'Exp ID: a']"; "['e3', 'Exp ID: a']"]
    (Demo.world_of Demo.empty_store) =
  Outcome (Returned tt)
    [("Invalid URL",
      PList [ PTuple [PStr "Exp ID: a"; PStr "e2"];
              PTuple [PStr "Exp ID: a"; PStr "e3"];
              PTuple [PStr "Exp ID: b"; PStr "e1"] ])]
    (Demo.world_of Demo.empty_store)
  ∧ @RTECustomizationArgsValidationOneOffJob.reduce Demo.host
      "Error cannot load when loading exploration" ["['exp1']"]
      (Demo.world_of Demo.empty_store) =
    Outcome (Returned tt)
      [("Error cannot load when loading exploration", PList [PStr "exp1"])]
      (Demo.world_of Demo.empty_store).
Proof.
  split.
  - destruct (proj1 (@rte_reduce_pairs_sorted Demo.host "Invalid URL"
               ["['e1', 'Exp ID: b', 'e2', 'Exp ID: a']"; "['e3', 'Exp ID: a']"]
               [ [PStr "e1"; PStr "Exp ID: b"; PStr "e2"; PStr "Exp ID: a"];
                 [PStr "e3"; PStr "Exp ID: a"] ]
               (Demo.world_of Demo.empty_store)
               ltac:(repeat constructor))
             eq_refl
             [("e1", "Exp ID: b"); ("e2", "Exp ID: a"); ("e3", "Exp ID: a")]
             eq_refl) as (L & Hrun & Hsorted & Hperm).
    rewrite Hrun, (sorted_arrangement_unique _ L Hsorted Hperm). reflexivity.
  - apply (proj2 (@rte_reduce_pairs_sorted Demo.host
               "Error cannot load when loading exploration" ["['exp1']"]
               [ [PStr "exp1"] ] (Demo.world_of Demo.empty_store)
               ltac:(repeat constructor))
             eq_refl).
Defined.

(** *** The migration audit *)

Lemma migrate_succeeds `{Host} (item : ExplorationModel.t) vs version :
  migration_succeeds (ExplorationModel.id item) vs version →
  ∀ (fuel : nat) (w : world),
    CURRENT_STATE_SCHEMA_VERSION - version ≤ Z.of_nat fuel →
    ExplorationMigrationAuditJob.migrate fuel item vs version w =
    Outcome (Returned tt)
      (if version <? CURRENT_STATE_SCHEMA_VERSION then [("SUCCESS", PInt 1)] else [])
      w.
Proof.
  induction 1 as [vs version Hge | vs vs' version Hlt Hstep _ IH]; intros fuel w Hfuel.
  - destruct fuel; simpl; by rewrite (proj2 (Z.ltb_ge _ _) Hge).
  - destruct fuel as [| fuel]; [lia |].
    simpl. rewrite (proj2 (Z.ltb_lt _ _) Hlt), Hstep.
    unfold bind. rewrite (IH fuel) by lia.
    destruct (Z.eqb_spec (version + 1) CURRENT_STATE_SCHEMA_VERSION) as [Heq | Hne]; simpl.
    + by rewrite (proj2 (Z.ltb_ge _ _)) by lia.
    + by rewrite (proj2 (Z.ltb_lt _ _)) by lia.
Qed.

Lemma migrate_fails `{Host} (item : ExplorationModel.t) vs version failing e :
  migration_fails (ExplorationModel.id item) vs version failing e →
  ∀ (fuel : nat) (w : world),
    CURRENT_STATE_SCHEMA_VERSION - version ≤ Z.of_nat fuel →
    ExplorationMigrationAuditJob.migrate fuel item vs version w =
    Outcome (Returned tt)
      [("MIGRATION_ERROR",
        PStr (migration_error_message (ExplorationModel.id item) failing e))]
      (World (datastore w) (ds_trace w)
         (logged w ++ [migration_error_message (ExplorationModel.id item) failing e])).
Proof.
  induction 1 as [vs version e Hlt Hstep | vs vs' version failing e Hlt Hstep Hfail IH];
    intros fuel w Hfuel; (destruct fuel as [| fuel]; [lia |]);
    simpl; rewrite (proj2 (Z.ltb_lt _ _) Hlt), Hstep.
  - reflexivity.
  - unfold bind. rewrite (IH fuel) by lia.
    destruct (Z.eqb_spec (version + 1) CURRENT_STATE_SCHEMA_VERSION) as [Heq | Hne];
      [| done].
    inversion Hfail; lia.
Qed.

(** Each migration either goes through or has a first failing step. *)
Lemma migration_succeeds_or_fails `{Host} (id : string) (fuel : nat) :
  ∀ vs version,
    CURRENT_STATE_SCHEMA_VERSION - version ≤ Z.of_nat fuel →
    migration_succeeds id vs version
    ∨ ∃ failing e, migration_fails id vs version failing e.
Proof.
  induction fuel as [| fuel IH]; intros vs version Hfuel.
  - left. apply migration_done. lia.
  - destruct (Z_lt_dec version CURRENT_STATE_SCHEMA_VERSION) as [Hlt | Hge];
      [| left; apply migration_done; lia].
    destruct (update_states_from_model vs version id) as [e | vs'] eqn:Hstep.
    + right. exists version, e. by apply migration_fails_here.
    + destruct (IH vs' (version + 1) ltac:(lia)) as [Hs | (failing & e & Hf)].
      * left. by eapply migration_step.
      * right. exists failing, e. by eapply migration_fails_later.
Qed.

(** C4. For an exploration model item that is not deleted,
    [ExplorationMigrationAuditJob.map] returns, and it yields [('SUCCESS', 1)]
    if and only if [item.states_schema_version] is strictly below
    [feconf.CURRENT_STATE_SCHEMA_VERSION] and every per-version migration step
    succeeds, in which case that pair is all it yields (so once per migrated
    exploration); an exploration already at the current version (or above)
    produces no emission; and when a step fails, the first one that does makes
    it yield the one record [('MIGRATION_ERROR', message)], log the message
    and stop. *)
Theorem migration_audit_map `{Host} (item : ExplorationModel.t) (w : world) :
  ExplorationModel.deleted item = false →
  res (ExplorationMigrationAuditJob.map item w) = Returned tt
  ∧ (("SUCCESS", PInt 1) ∈ yielded (ExplorationMigrationAuditJob.map item w)
     ↔ ExplorationModel.states_schema_version item < CURRENT_STATE_SCHEMA_VERSION
       ∧ migration_succeeds (ExplorationModel.id item)
           (initial_versioned_states item) (ExplorationModel.states_schema_version item))
  ∧ (("SUCCESS", PInt 1) ∈ yielded (ExplorationMigrationAuditJob.map item w) →
     ExplorationMigrationAuditJob.map item w =
     Outcome (Returned tt) [("SUCCESS", PInt 1)] w)
  ∧ (CURRENT_STATE_SCHEMA_VERSION ≤ ExplorationModel.states_schema_version item →
     ExplorationMigrationAuditJob.map item w = Outcome (Returned tt) [] w)
  ∧ (∀ failing e,
       migration_fails (ExplorationModel.id item) (initial_versioned_states item)
         (ExplorationModel.states_schema_version item) failing e →
       ExplorationMigrationAuditJob.map item w =
       Outcome (Returned tt)
         [("MIGRATION_ERROR",
           PStr (migration_error_message (ExplorationModel.id item) failing e))]
         (World (datastore w) (ds_trace w)
            (logged w ++ [migration_error_message (ExplorationModel.id item) failing e]))).
Proof.
  intros Hdel.
  unfold ExplorationMigrationAuditJob.map. rewrite Hdel. cbv zeta.
  fold (initial_versioned_states item).
  set (version := ExplorationModel.states_schema_version item).
  set (fuel := Z.to_nat (CURRENT_STATE_SCHEMA_VERSION - version)).
  assert (Hfuel : CURRENT_STATE_SCHEMA_VERSION - version ≤ Z.of_nat fuel)
    by (unfold fuel; lia).
  assert (Hok : ∀ failing e,
             migration_fails (ExplorationModel.id item) (initial_versioned_states item)
               version failing e →
             ExplorationMigrationAuditJob.migrate fuel item
               (initial_versioned_states item) version w =
             Outcome (Returned tt)
               [("MIGRATION_ERROR",
                 PStr (migration_error_message (ExplorationModel.id item) failing e))]
               (World (datastore w) (ds_trace w)
                  (logged w ++
                   [migration_error_message (ExplorationModel.id item) failing e])))
    by (intros failing e Hf; by apply migrate_fails).
  destruct (migration_succeeds_or_fails (ExplorationModel.id item) fuel
              (initial_versioned_states item) version Hfuel)
    as [Hs | (failing & e & Hf)].
  - pose proof (migrate_succeeds item _ _ Hs fuel w Hfuel) as Hrun.
    rewrite Hrun.
    destruct (Z.ltb_spec version CURRENT_STATE_SCHEMA_VERSION) as [Hlt | Hge]; simpl.
    + split_and!.
      * done.
      * split; [by intros _ | intros _; by apply list_elem_of_singleton].
      * done.
      * lia.
      * intros failing e Hf. rewrite (Hok failing e Hf) in Hrun. discriminate Hrun.
    + split_and!.
      * done.
      * split; [by intros ?%elem_of_nil | lia].
      * by intros ?%elem_of_nil.
      * done.
      * intros failing e Hf. inversion Hf; lia.
  - rewrite (Hok failing e Hf). simpl.
    assert (Hnot : ("SUCCESS", PInt 1) ∉
              [("MIGRATION_ERROR",
                PStr (migration_error_message (ExplorationModel.id item) failing e))]).
    { intros Hin%list_elem_of_singleton. discriminate Hin. }
    split_and!.
    + done.
    + split; [done |]. intros [_ Hs]. exfalso.
      pose proof (migrate_succeeds item _ _ Hs fuel w Hfuel) as Hrun.
      rewrite (Hok failing e Hf) in Hrun.
      destruct (version <? CURRENT_STATE_SCHEMA_VERSION); discriminate Hrun.
    + done.
    + intros Hge. inversion Hf; lia.
    + intros failing' e' Hf'. by rewrite <- (Hok failing' e' Hf'), (Hok failing e Hf).
Qed.

Lemma migration_audit_map_witness :
  ("SUCCESS", PInt 1) ∈
    yielded (@ExplorationMigrationAuditJob.map Demo.host
               (Demo.item "title" 1 42 false) (Demo.world_of Demo.empty_store))
  ∧ @ExplorationMigrationAuditJob.map Demo.host
      (Demo.item "title" 1 40 false) (Demo.world_of Demo.empty_store) =
    Outcome (Returned tt)
      [("MIGRATION_ERROR",
        PStr "Exploration exp1 failed migration to states v42: bad state")]
      (World Demo.empty_store []
         ["Exploration exp1 failed migration to states v42: bad state"]).
Proof.
  split.
  - apply (@migration_audit_map Demo.host (Demo.item "title" 1 42 false)
             (Demo.world_of Demo.empty_store) eq_refl).
    split; [reflexivity |].
    eapply (@migration_step Demo.host); [reflexivity | reflexivity |].
    apply (@migration_done Demo.host). reflexivity.
  - apply (proj2 (proj2 (proj2 (proj2
             (@migration_audit_map Demo.host (Demo.item "title" 1 40 false)
                (Demo.world_of Demo.empty_store) eq_refl))))
             41 (Exn OtherException "bad state")).
    eapply (@migration_fails_later Demo.host); [reflexivity | reflexivity |].
    apply (@migration_fails_here Demo.host); reflexivity.
Defined.

(** *** Regenerating a commit log entry *)

Lemma bind_run {A B} (m : gen A) (k : A -> gen B) (w w' : world) (a : A) :
  m w = Outcome (Returned a) [] w' → bind m k w = k a w'.
Proof. intros Hm. unfold bind. rewrite Hm. simpl. by destruct (k a w'). Qed.

Lemma Rights_get_run (id : string) (strict : bool) (u : Z) (w : world) :
  (strict = false ∨ is_Some (rights_models (datastore w) !! (id, u))) →
  Rights_get id strict u w =
  Outcome (Returned (rights_models (datastore w) !! (id, u))) []
    (World (datastore w) (ds_trace w ++ [rights_get_op id u]) (logged w)).
Proof.
  intros Hs. unfold Rights_get, bind, trace, get_store. simpl.
  destruct (rights_models (datastore w) !! (id, u)) as [r |] eqn:Hr; [done |].
  destruct Hs as [-> | [r Hr']]; [done | discriminate Hr'].
Qed.

(** The scan over the rights versions [a, a + n): it settles on a version [v]
    such that the versions from [a] to [v] all exist and were created in time,
    it has read versions [a] to [v] and, unless [v] is the last one, version
    [v + 1], which is missing or too recent. *)
Lemma latest_rights_before_run (id : string)
    (metadata_model : ExplorationSnapshotMetadataModel.t) (n : nat) :
  ∀ (a : Z) (r0 : ExplorationRightsModel.t) (w : world),
    ∃ (v : Z) (r : ExplorationRightsModel.t),
      latest_rights_before id (Some metadata_model) (seqZ a (Z.of_nat n)) (Some r0) w =
        Outcome (Returned (Some r)) []
          (World (datastore w)
             (ds_trace w ++
              (rights_get_op id <$> seqZ a (Z.min (v + 2 - a) (Z.of_nat n))))
             (logged w))
      ∧ a - 1 ≤ v < a + Z.of_nat n
      ∧ (v = a - 1 ∧ r = r0 ∨ a ≤ v ∧ rights_models (datastore w) !! (id, v) = Some r)
      ∧ (∀ u, a ≤ u ≤ v →
           rights_in_time (datastore w) id
             (ExplorationSnapshotMetadataModel.created_on metadata_model) u)
      ∧ (v + 1 < a + Z.of_nat n →
           ¬ rights_in_time (datastore w) id
               (ExplorationSnapshotMetadataModel.created_on metadata_model) (v + 1)).
Proof.
  induction n as [| n IH]; intros a r0 w.
  - exists (a - 1), r0. split_and!; try lia; [| by left].
    simpl. rewrite Z.min_r by lia. simpl. rewrite app_nil_r. by destruct w.
  - rewrite seqZ_cons by lia.
    replace (Z.pred (Z.of_nat (S n))) with (Z.of_nat n) by lia.
    cbn [latest_rights_before].
    rewrite (bind_run _ _ _ _ _ (Rights_get_run id false a w ltac:(by left))).
    destruct (rights_models (datastore w) !! (id, a)) as [rm |] eqn:Hrm.
    + cbn [attr]. rewrite bind_call_inr.
      destruct (Z.leb_spec (ExplorationRightsModel.created_on rm)
                  (ExplorationSnapshotMetadataModel.created_on metadata_model))
        as [Hle | Hgt].
      * destruct (IH (Z.succ a) rm
                    (World (datastore w) (ds_trace w ++ [rights_get_op id a]) (logged w)))
          as (v & r & Hrun & Hv & Hr & Hall & Hstop).
        simpl in Hrun, Hr, Hall, Hstop.
        exists v, r. split_and!; try lia.
        -- rewrite Hrun. do 2 f_equal.
           rewrite <- app_assoc. f_equal.
           replace (Z.min (v + 2 - a) (Z.of_nat (S n)))
             with (Z.succ (Z.min (v + 2 - Z.succ a) (Z.of_nat n))) by lia.
           rewrite (seqZ_cons a) by lia.
           by rewrite Z.pred_succ.
        -- right. destruct Hr as [[-> ->] | [Hge Hr]]; [| split; [lia | done]].
           split; [lia |]. by replace (Z.succ a - 1) with a by lia.
        -- intros u Hu. destruct (decide (u = a)) as [-> | Hne].
           ++ by exists rm.
           ++ apply Hall. lia.
        -- intros Hlt. apply Hstop. lia.
      * exists (a - 1), r0. split_and!; try lia.
        -- unfold ret. do 2 f_equal.
           replace (Z.min (a - 1 + 2 - a) (Z.of_nat (S n))) with 1 by lia.
           done.
        -- by left.
        -- intros _ (r & Hr & Hle). replace (a - 1 + 1) with a in Hr by lia.
           rewrite Hrm in Hr. injection Hr as ->. lia.
    + exists (a - 1), r0. split_and!; try lia.
      * unfold ret. do 2 f_equal.
        replace (Z.min (a - 1 + 2 - a) (Z.of_nat (S n))) with 1 by lia.
        done.
      * by left.
      * intros _ (r & Hr & Hle). replace (a - 1 + 1) with a in Hr by lia.
        rewrite Hrm in Hr. discriminate Hr.
Qed.

(** C10. When the snapshot metadata model of the commit and the rights model
    at version 1 exist, [regenerate_exp_commit_log_model(exp_model, version)]
    returns a commit log entry whose post-commit status and community-owned
    flag are those of the rights model at the greatest version [v] with:
    [v = 1], or [2 <= v <= version] and the rights models at versions 2 to [v]
    all exist and have [created_on] at most the metadata model's. The scan
    stops at the first version that is missing or too recent: it reads the
    rights versions 1 to [v] and, unless [v] is the last candidate, [v + 1],
    and no other. *)
Theorem regenerate_uses_latest_rights_in_time `{Host}
    (exp_model : ExplorationModel.t) (version : Z) (w : world)
    (metadata_model : ExplorationSnapshotMetadataModel.t)
    (rights1 : ExplorationRightsModel.t) :
  snapshot_metadata (datastore w)
    !! (ExplorationModel.id exp_model +:+ "-" +:+ str_of_int version)
    = Some metadata_model →
  rights_models (datastore w) !! (ExplorationModel.id exp_model, 1) = Some rights1 →
  ∃ (v : Z) (required_rights_model : ExplorationRightsModel.t)
    (commit_log_model : ExplorationCommitLogEntryModel.t),
    res (regenerate_exp_commit_log_model exp_model version w) = Returned commit_log_model
    ∧ rights_models (datastore w) !! (ExplorationModel.id exp_model, v)
      = Some required_rights_model
    ∧ ExplorationCommitLogEntryModel.post_commit_status commit_log_model
      = ExplorationRightsModel.status required_rights_model
    ∧ ExplorationCommitLogEntryModel.post_commit_community_owned commit_log_model
      = ExplorationRightsModel.community_owned required_rights_model
    ∧ eligible_rights_version (datastore w) (ExplorationModel.id exp_model)
        (ExplorationSnapshotMetadataModel.created_on metadata_model) version v
    ∧ (∀ v', eligible_rights_version (datastore w) (ExplorationModel.id exp_model)
               (ExplorationSnapshotMetadataModel.created_on metadata_model) version v' →
             v' ≤ v)
    ∧ ds_trace (after (regenerate_exp_commit_log_model exp_model version w)) =
      ds_trace w ++
      DsGet "ExplorationSnapshotMetadataModel"
        (ExplorationModel.id exp_model +:+ "-" +:+ str_of_int version)
      :: (rights_get_op (ExplorationModel.id exp_model)
          <$> seqZ 1 (Z.min (v + 1) (Z.max 1 version))).
Proof.
  intros Hmeta Hr1.
  set (id := ExplorationModel.id exp_model) in *.
  set (w1 := World (datastore w)
               (ds_trace w ++
                [DsGet "ExplorationSnapshotMetadataModel" (id +:+ "-" +:+ str_of_int version)])
               (logged w)).
  set (w2 := World (datastore w) (ds_trace w1 ++ [rights_get_op id 1]) (logged w)).
  destruct (latest_rights_before_run id metadata_model (Z.to_nat (version - 1)) 2 rights1 w2)
    as (v & r & Hrun & Hv & Hr & Hall & Hstop).
  simpl in Hr, Hall, Hstop.
  assert (Hrange : RANGE 2 (version + 1) = seqZ 2 (Z.of_nat (Z.to_nat (version - 1)))).
  { unfold RANGE, seqZ. do 2 f_equal. lia. }
  assert (Hrights : rights_models (datastore w) !! (id, v) = Some r).
  { destruct Hr as [[Hv1 ->] | [_ Hr]]; [| done].
    by replace v with 1 by lia. }
  eassert (Hreg : regenerate_exp_commit_log_model exp_model version w =
            Outcome (Returned _) []
              (World (datastore w)
                 (ds_trace w2 ++
                  (rights_get_op id
                   <$> seqZ 2 (Z.min (v + 2 - 2) (Z.of_nat (Z.to_nat (version - 1))))))
                 (logged w))).
  { unfold regenerate_exp_commit_log_model. fold id.
    rewrite (bind_run _ _ w w1 (Some metadata_model)); cycle 1.
    { unfold SnapshotMetadata_get_by_id, bind, trace, get_store. simpl.
      by rewrite Hmeta. }
    rewrite (bind_run _ _ w1 w2 (Some rights1)); cycle 1.
    { rewrite Rights_get_run by (right; simpl; by rewrite Hr1).
      simpl. by rewrite Hr1. }
    rewrite Hrange.
    rewrite (bind_run _ _ _ _ _ Hrun).
    cbn [attr]. rewrite !bind_call_inr. reflexivity. }
  eexists v, r, _. rewrite Hreg. simpl.
  split_and!; try done.
  - destruct (decide (v = 1)) as [-> | Hne]; [by left | right].
    split; [lia |]. intros u Hu. apply Hall. lia.
  - intros v' [-> | [Hv' Hall']]; [lia |].
    destruct (decide (v' ≤ v)) as [Hle | Hgt]; [done | exfalso].
    apply Hstop; [lia |]. apply Hall'. lia.
  - rewrite <- !app_assoc. f_equal. simpl. f_equal.
    rewrite (seqZ_cons 1) by lia. rewrite fmap_cons. f_equal.
    f_equal. f_equal; lia.
Qed.

(** On the demo store the commit at version 3 was made at time 250, after
    the rights model of version 2 (time 200) and before that of version 3
    (time 300): the regenerated entry takes the status of rights version 2. *)
Lemma regenerate_uses_latest_rights_in_time_witness :
  ∃ v commit_log_model,
    v = 2
    ∧ res (@regenerate_exp_commit_log_model Demo.host (Demo.item "title" 3 43 false) 3
             (Demo.world_of Demo.store3)) = Returned commit_log_model
    ∧ ExplorationCommitLogEntryModel.post_commit_status commit_log_model = "public"
    ∧ eligible_rights_version Demo.store3 "exp1" 250 3 v
    ∧ ds_trace (after (@regenerate_exp_commit_log_model Demo.host
                         (Demo.item "title" 3 43 false) 3 (Demo.world_of Demo.store3))) =
      [ DsGet "ExplorationSnapshotMetadataModel" "exp1-3";
        DsGet "ExplorationRightsModel" "exp1-1";
        DsGet "ExplorationRightsModel" "exp1-2";
        DsGet "ExplorationRightsModel" "exp1-3" ].
Proof.
  destruct (@regenerate_uses_latest_rights_in_time Demo.host
              (Demo.item "title" 3 43 false) 3 (Demo.world_of Demo.store3)
              (Demo.metadata 250) (Demo.rights "private" 100) eq_refl eq_refl)
    as (v & r & m & Hres & Hr & Hstatus & _ & Hel & Hmax & Htrace).
  assert (Hv : v = 2).
  { assert (H2 : 2 ≤ v).
    { apply Hmax. right. split; [lia |]. intros u Hu.
      replace u with 2 by lia. exists (Demo.rights "public" 200).
      split; [reflexivity | simpl; lia]. }
    destruct Hel as [-> | [Hle Hall]]; [lia |].
    destruct (decide (v = 3)) as [-> | Hne]; [exfalso | simpl in Hle; lia].
    destruct (Hall 3 ltac:(lia)) as (r3 & Hr3 & Hle3).
    vm_compute in Hr3. injection Hr3 as <-. vm_compute in Hle3. by apply Hle3. }
  subst v. exists 2, m. split_and!.
  - reflexivity.
  - exact Hres.
  - rewrite Hstatus. vm_compute in Hr. by injection Hr as <-.
  - exact Hel.
  - rewrite Htrace. reflexivity.
Defined.

(** *** What the jobs do to the datastore *)

Ltac read_only_steps :=
  repeat first
    [ apply read_only_ret | apply read_only_raise | apply read_only_unmodelled
    | apply read_only_call | apply read_only_yield | apply read_only_trace
    | apply read_only_logging | apply read_only_get_store
    | apply read_only_bind; [| intros ?]
    | apply read_only_try_except; [| intros ?]
    | apply read_only_for_each; intros ?
    | match goal with
      | |- read_only (if ?b then _ else _) => destruct b
      | |- read_only (match ?x with _ => _ end) => destruct x
      end ].

Lemma read_only_SnapshotMetadata_get_by_id id :
  read_only (SnapshotMetadata_get_by_id id).
Proof. unfold SnapshotMetadata_get_by_id. read_only_steps. Qed.

Lemma read_only_CommitLogEntry_get_by_id id :
  read_only (CommitLogEntry_get_by_id id).
Proof. unfold CommitLogEntry_get_by_id. read_only_steps. Qed.

Lemma read_only_Rights_get id strict version :
  read_only (Rights_get id strict version).
Proof. unfold Rights_get. read_only_steps. Qed.

Lemma read_only_latest_rights_before id metadata_model rights_versions required :
  read_only (latest_rights_before id metadata_model rights_versions required).
Proof.
  revert required. induction rights_versions as [| v rest IH]; intros required; simpl.
  - apply read_only_ret.
  - apply read_only_bind; [apply read_only_Rights_get |]. intros [r |]; [| apply read_only_ret].
    apply read_only_bind; [apply read_only_call |]. intros t.
    destruct (ExplorationRightsModel.created_on r <=? t); [apply IH | apply read_only_ret].
Qed.

Lemma read_only_regenerate `{Host} exp_model version :
  read_only (regenerate_exp_commit_log_model exp_model version).
Proof.
  unfold regenerate_exp_commit_log_model.
  apply read_only_bind; [apply read_only_SnapshotMetadata_get_by_id |]. intros metadata_model.
  apply read_only_bind; [apply read_only_Rights_get |]. intros required.
  apply read_only_bind; [apply read_only_latest_rights_before |]. intros required'.
  read_only_steps.
Qed.

Lemma read_only_migrate `{Host} fuel item vs version :
  read_only (ExplorationMigrationAuditJob.migrate fuel item vs version).
Proof.
  revert vs version. induction fuel as [| fuel IH]; intros vs version; simpl.
  - read_only_steps.
  - destruct (version <? CURRENT_STATE_SCHEMA_VERSION); [| apply read_only_ret].
    destruct (update_states_from_model vs version (ExplorationModel.id item));
      [read_only_steps |].
    apply read_only_bind; [read_only_steps | intros _; apply IH].
Qed.

Lemma read_only_scan_states `{Host} items acc :
  read_only (ExplorationRteMathContentValidationOneOffJob.scan_states items acc).
Proof.
  revert acc. induction items as [| [state_name st] rest IH]; intros acc; simpl.
  - apply read_only_ret.
  - apply read_only_bind; [apply read_only_call |]. intros strings.
    apply read_only_bind; [apply read_only_call |]. intros error_list.
    destruct (0 <? Z.of_nat (length error_list)); apply IH.
Qed.

Lemma read_only_job_map `{Host} (j : job) (item : ExplorationModel.t) :
  j ≠ JRegenerateMissingExpCommitLogModels →
  j ≠ JExplorationMigrationJobManager →
  read_only (job_map j item).
Proof.
  intros Hj1 Hj2. destruct j; try done; simpl.
  - unfold ExplorationValidityJobManager.map. read_only_steps.
  - unfold ExplorationMigrationAuditJob.map.
    destruct (ExplorationModel.deleted item); [apply read_only_ret |].
    apply read_only_migrate.
  - unfold ExplorationRteMathContentValidationOneOffJob.map.
    destruct (ExplorationModel.deleted item); [apply read_only_ret |].
    apply read_only_bind; [apply read_only_call |]. intros exploration.
    apply read_only_bind; [apply read_only_scan_states |]. intros invalid.
    read_only_steps.
  - unfold ViewableExplorationsAuditJob.map. read_only_steps.
  - unfold RTECustomizationArgsValidationOneOffJob.map. read_only_steps.
  - unfold ExpCommitLogModelRegenerationValidator.map.
    destruct (ExplorationModel.deleted item); [apply read_only_ret |].
    apply read_only_bind; [apply read_only_call |]. intros c.
    destruct (_ || _); [apply read_only_ret |].
    apply read_only_for_each. intros version.
    apply read_only_bind; [apply read_only_CommitLogEntry_get_by_id |].
    intros [commit_log_model |]; [| apply read_only_ret].
    apply read_only_bind; [apply read_only_regenerate |]. intros regenerated.
    unfold ExpCommitLogModelRegenerationValidator.mismatch. read_only_steps.
Qed.

Lemma returns_bind {A B} (P : B → Prop) (m : gen A) (k : A -> gen B) :
  (∀ a, returns P (k a)) → returns P (bind m k).
Proof.
  intros Hk w b. unfold bind.
  destruct (res (m w)) as [a | e |] eqn:Hm; simpl; [| done | done].
  apply Hk.
Qed.

Lemma returns_ret {A} (P : A → Prop) (a : A) : P a → returns P (ret a).
Proof. intros Ha w a' Hret. by injection Hret as <-. Qed.

(** The entry [regenerate_exp_commit_log_model] returns has the id of the
    commit log entry of that exploration and version. *)
Lemma regenerate_returns_id `{Host} exp_model version :
  returns
    (fun m => ExplorationCommitLogEntryModel.id m =
              "exploration-" +:+ ExplorationModel.id exp_model +:+ "-" +:+ str_of_int version)
    (regenerate_exp_commit_log_model exp_model version).
Proof.
  unfold regenerate_exp_commit_log_model.
  repeat (apply returns_bind; intros ?).
  by apply returns_ret.
Qed.

Lemma only_adds_read_only {A} (m : gen A) :
  read_only m → only_adds_commit_log_entries m.
Proof. intros Hm w. by rewrite Hm. Qed.

Lemma only_adds_bind {A B} (m : gen A) (k : A -> gen B) :
  only_adds_commit_log_entries m →
  (∀ a, only_adds_commit_log_entries (k a)) →
  only_adds_commit_log_entries (bind m k).
Proof.
  intros Hm Hk w. unfold bind. destruct (Hm w) as (He & Hr & Hs & Hc).
  destruct (res (m w)) as [a | e |]; simpl; [| done | done].
  destruct (Hk a (after (m w))) as (He' & Hr' & Hs' & Hc').
  split_and!; [congruence | congruence | congruence |].
  by transitivity (commit_log_entries (datastore (after (m w)))).
Qed.

Lemma only_adds_for_each {A} (xs : list A) (body : A -> gen unit) :
  (∀ x, only_adds_commit_log_entries (body x)) →
  only_adds_commit_log_entries (for_each xs body).
Proof.
  intros Hb. induction xs as [| x xs IH]; simpl.
  - by apply only_adds_read_only, read_only_ret.
  - apply only_adds_bind; [apply Hb | by intros _].
Qed.

(** One iteration of [RegenerateMissingExpCommitLogModels.map]: the entry is
    stored only under a key that had none. *)
Lemma only_adds_regenerate_missing `{Host} (item : ExplorationModel.t) (version : Z) :
  only_adds_commit_log_entries
    (commit_log_model <-
       CommitLogEntry_get_by_id
         ("exploration-" +:+ ExplorationModel.id item +:+ "-" +:+ str_of_int version) ;;
     match commit_log_model with
     | None =>
         commit_log_model <- regenerate_exp_commit_log_model item version ;;
         let commit_log_model := update_timestamps commit_log_model false in
         CommitLogEntry_put commit_log_model ;;
         yield ("Regenerated Exploration Commit Log Model: version " +:+ str_of_int version)
               (PStr (ExplorationModel.id item))
     | Some _ => ret tt
     end).
Proof.
  intros w.
  set (key := "exploration-" +:+ ExplorationModel.id item +:+ "-" +:+ str_of_int version).
  rewrite (bind_run _ _ w
             (World (datastore w)
                (ds_trace w ++ [DsGet "ExplorationCommitLogEntryModel" key]) (logged w))
             (commit_log_entries (datastore w) !! key)) by done.
  destruct (commit_log_entries (datastore w) !! key) eqn:Hget; [done |].
  set (w1 := World _ _ _).
  pose proof (read_only_regenerate item version w1) as Hstore.
  pose proof (regenerate_returns_id item version w1) as Hid.
  remember (regenerate_exp_commit_log_model item version) as regenerate eqn:Hreg.
  unfold bind.
  destruct (res (regenerate w1)) as [m | e |] eqn:Hres; simpl; try (by rewrite Hstore).
  specialize (Hid m eq_refl). fold key in Hid.
  rewrite Hstore. simpl. split_and!; try done.
  rewrite Hid. by apply insert_subseteq.
Qed.

(** *** Exceptions in map *)

Lemma audit_map_returns `{Host} (item : ExplorationModel.t) (w : world) :
  res (ExplorationMigrationAuditJob.map item w) = Returned tt.
Proof.
  unfold ExplorationMigrationAuditJob.map.
  destruct (ExplorationModel.deleted item); [done |]. cbv zeta.
  fold (initial_versioned_states item).
  set (version := ExplorationModel.states_schema_version item).
  set (fuel := Z.to_nat (CURRENT_STATE_SCHEMA_VERSION - version)).
  assert (Hfuel : CURRENT_STATE_SCHEMA_VERSION - version ≤ Z.of_nat fuel)
    by (unfold fuel; lia).
  destruct (migration_succeeds_or_fails (ExplorationModel.id item) fuel
              (initial_versioned_states item) version Hfuel)
    as [Hs | (failing & e & Hf)].
  - by rewrite (migrate_succeeds item _ _ Hs fuel w Hfuel).
  - by rewrite (migrate_fails item _ _ _ _ Hf fuel w Hfuel).
Qed.

(** C1 (as the code has it). [map] catches an exception only where the code
    guards the call, and there it returns normally:
    - [ExplorationValidityJobManager.map] turns a [utils.ValidationError] of
      [exploration.validate] into the emitted pair [(item.id, message)]; any
      other exception of [validate], and an exception of
      [get_exploration_from_model], propagates;
    - [ExplorationMigrationAuditJob.map] never raises: a failing migration
      step is logged and emitted as [('MIGRATION_ERROR', message)];
    - [ExplorationMigrationJobManager.map] logs any exception of
      [old_exploration.validate()] and skips the item;
    - [RTECustomizationArgsValidationOneOffJob.map] turns any exception of
      [get_exploration_from_model] into an emitted pair. *)
Theorem map_catches_guarded_exceptions `{Host} (item : ExplorationModel.t) (w : world)
    (e : exn) :
  ExplorationModel.deleted item = false →
  (∀ exploration rights,
     get_exploration_from_model item = inr exploration →
     get_exploration_rights (datastore w) (ExplorationModel.id item) true
       = inr (Some rights) →
     validate exploration (negb (String.eqb (rights_status rights) ACTIVITY_STATUS_PRIVATE))
       = inl e →
     res (ExplorationValidityJobManager.map item w) =
       (if decide (exn_cls e = ValidationError) then Returned tt else Raised e)
     ∧ yielded (ExplorationValidityJobManager.map item w) =
       (if decide (exn_cls e = ValidationError)
        then [(ExplorationModel.id item, PStr (exn_str e))] else []))
  ∧ (get_exploration_from_model item = inl e →
     ExplorationValidityJobManager.map item w = Outcome (Raised e) [] w)
  ∧ res (ExplorationMigrationAuditJob.map item w) = Returned tt
  ∧ (∀ failing,
       migration_fails (ExplorationModel.id item) (initial_versioned_states item)
         (ExplorationModel.states_schema_version item) failing e →
       yielded (ExplorationMigrationAuditJob.map item w) =
         [("MIGRATION_ERROR",
           PStr (migration_error_message (ExplorationModel.id item) failing e))]
       ∧ logged (after (ExplorationMigrationAuditJob.map item w)) =
         logged w ++ [migration_error_message (ExplorationModel.id item) failing e])
  ∧ (∀ old_exploration,
       get_exploration_by_id (datastore w) (ExplorationModel.id item) = inr old_exploration →
       validate old_exploration false = inl e →
       res (ExplorationMigrationJobManager.map item w) = Returned tt
       ∧ yielded (ExplorationMigrationJobManager.map item w) = []
       ∧ datastore (after (ExplorationMigrationJobManager.map item w)) = datastore w
       ∧ logged (after (ExplorationMigrationJobManager.map item w)) =
         logged w ++ ["Exploration " +:+ ExplorationModel.id item +:+
                      " failed non-strict validation: " +:+ exn_str e])
  ∧ (get_exploration_from_model item = inl e →
     RTECustomizationArgsValidationOneOffJob.map item w =
     Outcome (Returned tt)
       [("Error " +:+ exn_str e +:+ " when loading exploration",
         PList [PStr (ExplorationModel.id item)])] w).
Proof.
  intros Hdel. split_and!.
  - intros exploration rights Hload Hrights Hval.
    unfold ExplorationValidityJobManager.map.
    rewrite Hdel, Hload, bind_call_inr.
    unfold bind, trace, get_store, try_except. simpl.
    rewrite Hrights. simpl.
    destruct (String.eqb (rights_status rights) ACTIVITY_STATUS_PRIVATE);
      simpl in Hval; rewrite Hval; simpl;
      destruct (exn_cls e); simpl; done.
  - intros Hload. unfold ExplorationValidityJobManager.map.
    by rewrite Hdel, Hload.
  - apply audit_map_returns.
  - intros failing Hf. unfold ExplorationMigrationAuditJob.map. rewrite Hdel. cbv zeta.
    fold (initial_versioned_states item).
    rewrite (migrate_fails item _ _ _ _ Hf _ w) by lia. done.
  - intros old_exploration Hload Hval.
    unfold ExplorationMigrationJobManager.map.
    rewrite Hdel, bind_trace, bind_get_store. cbn [datastore].
    rewrite Hload, bind_call_inr.
    set (w1 := World (datastore w) _ (logged w)).
    set (msg := "Exploration " +:+ ExplorationModel.id item +:+
                " failed non-strict validation: " +:+ exn_str e).
    rewrite (bind_run _ _ w1 (World (datastore w) (ds_trace w1) (logged w ++ [msg])) false).
    + done.
    + rewrite (try_except_raised _ _ w1 w1 e); [done |].
      by rewrite Hval.
  - intros Hload. unfold RTECustomizationArgsValidationOneOffJob.map. rewrite Hdel.
    rewrite (bind_returned _ _ w w None
               [("Error " +:+ exn_str e +:+ " when loading exploration",
                 PList [PStr (ExplorationModel.id item)])]).
    + done.
    + rewrite (try_except_raised _ _ w w e); [| by rewrite Hload].
      unfold bind, yield, ret. cbn [res yielded after app]. by destruct w.
Qed.

Lemma map_catches_guarded_exceptions_witness :
  (res (@ExplorationValidityJobManager.map Demo.host (Demo.item "" 3 43 false)
          (Demo.world_of Demo.store3)) = Returned tt
   ∧ yielded (@ExplorationValidityJobManager.map Demo.host (Demo.item "" 3 43 false)
                (Demo.world_of Demo.store3)) =
     [("exp1", PStr "Expected title to be non-empty")])
  ∧ (res (@ExplorationMigrationJobManager.map Demo.host (Demo.item "" 3 40 false)
            (Demo.world_of Demo.untitled_store))
     = Returned tt
     ∧ yielded (@ExplorationMigrationJobManager.map Demo.host (Demo.item "" 3 40 false)
                  (Demo.world_of Demo.untitled_store))
       = []).
Proof.
  split.
  - apply (proj1 (@map_catches_guarded_exceptions Demo.host (Demo.item "" 3 43 false)
                    (Demo.world_of Demo.store3)
                    (Exn ValidationError "Expected title to be non-empty") eq_refl)
             (Demo.item "" 3 43 false)
             {| rights_status := "private"; viewable_if_private := false |}
             eq_refl eq_refl eq_refl).
  - destruct (proj1 (proj2 (proj2 (proj2 (proj2
               (@map_catches_guarded_exceptions Demo.host (Demo.item "" 3 40 false)
                  (Demo.world_of Demo.untitled_store)
                  (Exn ValidationError "Expected title to be non-empty") eq_refl)))))
               (Demo.item "" 3 40 false) ltac:(vm_compute; reflexivity) eq_refl)
      as (Hres & Hyield & _ & _).
    by split.
Defined.

(** C1, counterexample. An exploration that cannot be loaded makes
    [ExplorationValidityJobManager.map] raise: the call of
    [get_exploration_from_model] is outside its [try]. An exploration whose
    rights model of version 1 is missing makes
    [RegenerateMissingExpCommitLogModels.map], which has no [try] at all,
    raise. In both runs nothing is yielded and nothing is logged. *)
Lemma map_propagates_exception_counterexample :
  @job_map Demo.host JExplorationValidityJobManager (Demo.item "broken" 3 43 false)
    (Demo.world_of Demo.store3) =
  Outcome (Raised (Exn OtherException "cannot load")) [] (Demo.world_of Demo.store3)
  ∧ res (@job_map Demo.host JRegenerateMissingExpCommitLogModels
           (Demo.item "title" 1 43 false) (Demo.world_of Demo.empty_store)) =
    Raised (Exn EntityNotFoundError
              "Entity for class ExplorationRightsModel with id exp1 not found")
  ∧ yielded (@job_map Demo.host JRegenerateMissingExpCommitLogModels
               (Demo.item "title" 1 43 false) (Demo.world_of Demo.empty_store)) = []
  ∧ logged (after (@job_map Demo.host JRegenerateMissingExpCommitLogModels
                     (Demo.item "title" 1 43 false) (Demo.world_of Demo.empty_store))) = [].
Proof. split_and!; vm_compute; reflexivity. Qed.

(** ** Further properties of the module *)

(** *** regenerate_exp_commit_log_model: what it reads, when it returns *)

Lemma bind_raised {A B} (m : gen A) (k : A -> gen B) (w w' : world) e ys :
  m w = Outcome (Raised e) ys w' → bind m k w = Outcome (Raised e) ys w'.
Proof. intros Hm. unfold bind. by rewrite Hm. Qed.

Lemma res_bind {A B} (m : gen A) (k : A -> gen B) (w : world) :
  res (bind m k w) =
  match res (m w) with
  | Returned a => res (k a (after (m w)))
  | Raised e => Raised e
  | Unmodelled => Unmodelled
  end.
Proof. unfold bind. by destruct (res (m w)). Qed.

Lemma reads_only_ret (R : relation store) {A} (a : A) : reads_only R (ret a).
Proof.
  intros w. exists (Returned a), []. intros w' _.
  unfold ret. by rewrite app_nil_r; destruct w'.
Qed.

Lemma reads_only_call (R : relation store) {A} (r : exn + A) : reads_only R (call r).
Proof.
  intros w. destruct r as [e | a].
  - exists (Raised e), []. intros w' _. unfold call, raise.
    by rewrite app_nil_r; destruct w'.
  - apply reads_only_ret.
Qed.

Lemma reads_only_bind (R : relation store) {A B} (m : gen A) (k : A -> gen B) :
  reads_only R m → (∀ a, reads_only R (k a)) → reads_only R (bind m k).
Proof.
  intros Hm Hk w. destruct (Hm w) as (r & tr & Hrun).
  destruct r as [a | e |].
  - destruct (Hk a w) as (r' & tr' & Hrun').
    exists r', (tr ++ tr'). intros w' HR.
    rewrite (bind_run _ _ _ _ _ (Hrun w' HR)).
    rewrite (Hrun' (World (datastore w') (ds_trace w' ++ tr) (logged w')) HR).
    cbn [datastore ds_trace logged]. by rewrite app_assoc.
  - exists (Raised e), tr. intros w' HR. by rewrite (bind_raised _ _ _ _ _ _ (Hrun w' HR)).
  - exists Unmodelled, tr. intros w' HR. unfold bind. by rewrite (Hrun w' HR).
Qed.

Lemma reads_only_Rights_get id strict version :
  reads_only same_rights_and_metadata (Rights_get id strict version).
Proof.
  intros w.
  exists (match rights_models (datastore w) !! (id, version) with
          | Some m => Returned (Some m)
          | None =>
              if strict
              then Raised (Exn EntityNotFoundError
                     ("Entity for class ExplorationRightsModel with id " +:+ id +:+
                      " not found"))
              else Returned None
          end), [rights_get_op id version].
  intros w' [Hr _]. unfold Rights_get.
  rewrite bind_trace, bind_get_store. cbn [datastore]. rewrite <- Hr.
  destruct (rights_models (datastore w) !! (id, version)); [done |].
  by destruct strict.
Qed.

Lemma reads_only_SnapshotMetadata_get_by_id id :
  reads_only same_rights_and_metadata (SnapshotMetadata_get_by_id id).
Proof.
  intros w.
  exists (Returned (snapshot_metadata (datastore w) !! id)),
         [DsGet "ExplorationSnapshotMetadataModel" id].
  intros w' [_ Hm]. unfold SnapshotMetadata_get_by_id.
  rewrite bind_trace, bind_get_store. cbn [datastore]. by rewrite <- Hm.
Qed.

Lemma reads_only_latest_rights_before id metadata_model rights_versions required :
  reads_only same_rights_and_metadata
    (latest_rights_before id metadata_model rights_versions required).
Proof.
  revert required. induction rights_versions as [| v rest IH]; intros required;
    cbn [latest_rights_before].
  - apply reads_only_ret.
  - apply reads_only_bind; [apply reads_only_Rights_get |].
    intros [r |]; [| apply reads_only_ret].
    apply reads_only_bind; [apply reads_only_call |]. intros t.
    destruct (ExplorationRightsModel.created_on r <=? t); [apply IH | apply reads_only_ret].
Qed.

Lemma reads_only_regenerate `{Host} exp_model version :
  reads_only same_rights_and_metadata (regenerate_exp_commit_log_model exp_model version).
Proof.
  unfold regenerate_exp_commit_log_model.
  apply reads_only_bind; [apply reads_only_SnapshotMetadata_get_by_id |]. intros metadata_model.
  apply reads_only_bind; [apply reads_only_Rights_get |]. intros required.
  apply reads_only_bind; [apply reads_only_latest_rights_before |]. intros required'.
  repeat (apply reads_only_bind; [apply reads_only_call | intros ?]).
  apply reads_only_ret.
Qed.

(** X3. [regenerate_exp_commit_log_model] reads the rights models and the
    snapshot metadata and nothing else: run on two datastores that hold the
    same rights models and the same snapshot metadata (whatever their
    explorations and commit log entries) it ends the same way after the same
    datastore accesses, and it yields nothing, logs nothing and leaves the
    datastore unchanged. *)
Theorem regenerate_reads_rights_and_metadata_only `{Host}
    (exp_model : ExplorationModel.t) (version : Z) (w w' : world) :
  rights_models (datastore w) = rights_models (datastore w') →
  snapshot_metadata (datastore w) = snapshot_metadata (datastore w') →
  res (regenerate_exp_commit_log_model exp_model version w) =
    res (regenerate_exp_commit_log_model exp_model version w')
  ∧ yielded (regenerate_exp_commit_log_model exp_model version w) = []
  ∧ datastore (after (regenerate_exp_commit_log_model exp_model version w)) = datastore w
  ∧ logged (after (regenerate_exp_commit_log_model exp_model version w)) = logged w
  ∧ ∃ tr,
      ds_trace (after (regenerate_exp_commit_log_model exp_model version w)) =
        ds_trace w ++ tr
      ∧ ds_trace (after (regenerate_exp_commit_log_model exp_model version w')) =
        ds_trace w' ++ tr.
Proof.
  intros Hr Hm.
  destruct (reads_only_regenerate exp_model version w) as (r & tr & Hrun).
  rewrite (Hrun w) by done. rewrite (Hrun w') by done.
  cbn [res yielded after datastore ds_trace logged].
  split_and!; try done. by exists tr.
Qed.

Lemma regenerate_reads_rights_and_metadata_only_witness :
  res (@regenerate_exp_commit_log_model Demo.host (Demo.item "title" 3 43 false) 3
         (Demo.world_of Demo.store3)) =
  res (@regenerate_exp_commit_log_model Demo.host (Demo.item "title" 3 43 false) 3
         (after (@RegenerateMissingExpCommitLogModels.map Demo.host
                   (Demo.item "title" 3 43 false) (Demo.world_of Demo.store3)))).
Proof.
  apply (@regenerate_reads_rights_and_metadata_only Demo.host
           (Demo.item "title" 3 43 false) 3 (Demo.world_of Demo.store3)
           (after (@RegenerateMissingExpCommitLogModels.map Demo.host
                     (Demo.item "title" 3 43 false) (Demo.world_of Demo.store3))));
    vm_compute; reflexivity.
Defined.

(** With the snapshot metadata model and the rights model of version 1 in the
    store, the function returns the entry built from the metadata model and
    one of the stored rights models. *)
Lemma regenerate_run `{Host} (exp_model : ExplorationModel.t) (version : Z) (w : world)
    (metadata_model : ExplorationSnapshotMetadataModel.t)
    (rights1 : ExplorationRightsModel.t) :
  snapshot_metadata (datastore w)
    !! (ExplorationModel.id exp_model +:+ "-" +:+ str_of_int version)
    = Some metadata_model →
  rights_models (datastore w) !! (ExplorationModel.id exp_model, 1) = Some rights1 →
  ∃ v r tr,
    rights_models (datastore w) !! (ExplorationModel.id exp_model, v) = Some r
    ∧ regenerate_exp_commit_log_model exp_model version w =
      Outcome
        (Returned (regenerated_entry (ExplorationModel.id exp_model) version metadata_model r))
        [] (World (datastore w) (ds_trace w ++ tr) (logged w)).
Proof.
  intros Hmeta Hr1.
  set (id := ExplorationModel.id exp_model) in *.
  set (w1 := World (datastore w)
               (ds_trace w ++
                [DsGet "ExplorationSnapshotMetadataModel" (id +:+ "-" +:+ str_of_int version)])
               (logged w)).
  set (w2 := World (datastore w) (ds_trace w1 ++ [rights_get_op id 1]) (logged w)).
  destruct (latest_rights_before_run id metadata_model (Z.to_nat (version - 1)) 2 rights1 w2)
    as (v & r & Hrun & Hv & Hr & _ & _).
  cbn [datastore] in Hr.
  assert (Hrange : RANGE 2 (version + 1) = seqZ 2 (Z.of_nat (Z.to_nat (version - 1)))).
  { unfold RANGE, seqZ. do 2 f_equal. lia. }
  exists v, r. eexists. split.
  { destruct Hr as [[Hv1 ->] | [_ Hr]]; [| done]. by replace v with 1 by lia. }
  unfold regenerate_exp_commit_log_model. fold id.
  rewrite (bind_run _ _ w w1 (Some metadata_model)); cycle 1.
  { unfold SnapshotMetadata_get_by_id. rewrite bind_trace, bind_get_store.
    cbn [datastore]. by rewrite Hmeta. }
  rewrite (bind_run _ _ w1 w2 (Some rights1)); cycle 1.
  { rewrite Rights_get_run by (right; cbn [datastore w1]; by rewrite Hr1).
    cbn [datastore w1]. by rewrite Hr1. }
  rewrite Hrange, (bind_run _ _ _ _ _ Hrun).
  cbn [attr]. rewrite !bind_call_inr.
  unfold ret, regenerated_entry, commit_log_key, CommitLogEntry_create.
  cbn [datastore ds_trace logged w2 w1
       ExplorationCommitLogEntryModel.id ExplorationCommitLogEntryModel.user_id
       ExplorationCommitLogEntryModel.commit_type
       ExplorationCommitLogEntryModel.commit_message
       ExplorationCommitLogEntryModel.commit_cmds ExplorationCommitLogEntryModel.version
       ExplorationCommitLogEntryModel.post_commit_status
       ExplorationCommitLogEntryModel.post_commit_community_owned
       ExplorationCommitLogEntryModel.post_commit_is_private].
  rewrite <- !app_assoc. reflexivity.
Qed.

(** Without snapshot metadata the scan over the rights versions either keeps
    the rights model it had or fails on [metadata_model.created_on]. *)
Lemma latest_rights_before_no_metadata id rights_versions required (w : world) :
  yielded (latest_rights_before id None rights_versions required w) = []
  ∧ (res (latest_rights_before id None rights_versions required w) = Returned required
     ∨ ∃ e, res (latest_rights_before id None rights_versions required w) = Raised e
            ∧ exn_cls e = AttributeError).
Proof.
  destruct rights_versions as [| v rest]; cbn [latest_rights_before]; [by split; [| left] |].
  rewrite (bind_run _ _ _ _ _ (Rights_get_run id false v w ltac:(by left))).
  destruct (rights_models (datastore w) !! (id, v)) as [r |].
  - cbn [attr]. rewrite bind_call_inl. cbn [res yielded]. split; [done |].
    right. by eexists.
  - split; [done | by left].
Qed.

Lemma regenerate_without_rights1 `{Host} (exp_model : ExplorationModel.t) (version : Z)
    (w : world) :
  rights_models (datastore w) !! (ExplorationModel.id exp_model, 1) = None →
  res (regenerate_exp_commit_log_model exp_model version w) =
    Raised (Exn EntityNotFoundError
              ("Entity for class ExplorationRightsModel with id " +:+
               ExplorationModel.id exp_model +:+ " not found")).
Proof.
  intros Hnone. unfold regenerate_exp_commit_log_model.
  set (id := ExplorationModel.id exp_model) in *.
  rewrite (bind_run _ _ w
             (World (datastore w)
                (ds_trace w ++
                 [DsGet "ExplorationSnapshotMetadataModel"
                    (id +:+ "-" +:+ str_of_int version)])
                (logged w))
             (snapshot_metadata (datastore w) !! (id +:+ "-" +:+ str_of_int version)));
    cycle 1.
  { unfold SnapshotMetadata_get_by_id. by rewrite bind_trace, bind_get_store. }
  rewrite res_bind. unfold Rights_get. rewrite bind_trace, bind_get_store.
  cbn [datastore]. by rewrite Hnone.
Qed.

(** X1. [regenerate_exp_commit_log_model] returns an entry exactly when the
    snapshot metadata model of the commit and the rights model of version 1
    both exist. When the rights model of version 1 is missing it raises the
    storage layer's not-found error; when that one exists and the metadata
    model is missing, it raises [AttributeError] (an attribute of [None] is
    read). In both failing cases it yields nothing and leaves the datastore
    as it was. *)
Theorem regenerate_returns_iff `{Host} (exp_model : ExplorationModel.t) (version : Z)
    (w : world) :
  ((∃ m, res (regenerate_exp_commit_log_model exp_model version w) = Returned m)
   ↔ is_Some (snapshot_metadata (datastore w)
                !! (ExplorationModel.id exp_model +:+ "-" +:+ str_of_int version))
     ∧ is_Some (rights_models (datastore w) !! (ExplorationModel.id exp_model, 1)))
  ∧ (rights_models (datastore w) !! (ExplorationModel.id exp_model, 1) = None →
     res (regenerate_exp_commit_log_model exp_model version w) =
       Raised (Exn EntityNotFoundError
                 ("Entity for class ExplorationRightsModel with id " +:+
                  ExplorationModel.id exp_model +:+ " not found")))
  ∧ (is_Some (rights_models (datastore w) !! (ExplorationModel.id exp_model, 1)) →
     snapshot_metadata (datastore w)
       !! (ExplorationModel.id exp_model +:+ "-" +:+ str_of_int version) = None →
     ∃ e, res (regenerate_exp_commit_log_model exp_model version w) = Raised e
          ∧ exn_cls e = AttributeError)
  ∧ yielded (regenerate_exp_commit_log_model exp_model version w) = []
  ∧ datastore (after (regenerate_exp_commit_log_model exp_model version w)) = datastore w.
Proof.
  set (id := ExplorationModel.id exp_model).
  pose proof (regenerate_without_rights1 exp_model version w) as Hmissing1.
  fold id in Hmissing1.
  assert (Hmissing2 :
            is_Some (rights_models (datastore w) !! (id, 1)) →
            snapshot_metadata (datastore w) !! (id +:+ "-" +:+ str_of_int version) = None →
            ∃ e, res (regenerate_exp_commit_log_model exp_model version w) = Raised e
                 ∧ exn_cls e = AttributeError).
  { intros [r1 Hr1] Hnone. unfold regenerate_exp_commit_log_model. fold id.
    set (w1 := World (datastore w)
                 (ds_trace w ++
                  [DsGet "ExplorationSnapshotMetadataModel"
                     (id +:+ "-" +:+ str_of_int version)])
                 (logged w)).
    set (w2 := World (datastore w) (ds_trace w1 ++ [rights_get_op id 1]) (logged w)).
    rewrite (bind_run _ _ w w1 None); cycle 1.
    { unfold SnapshotMetadata_get_by_id. rewrite bind_trace, bind_get_store.
      cbn [datastore]. by rewrite Hnone. }
    rewrite (bind_run _ _ w1 w2 (Some r1)); cycle 1.
    { rewrite Rights_get_run by (right; cbn [datastore w1]; by rewrite Hr1).
      cbn [datastore w1]. by rewrite Hr1. }
    rewrite res_bind.
    destruct (latest_rights_before_no_metadata id (RANGE 2 (version + 1)) (Some r1) w2)
      as [_ [Hret | (e & Hraise & Hcls)]].
    - rewrite Hret. cbn [attr]. rewrite bind_call_inl. cbn [res]. by eexists.
    - rewrite Hraise. by exists e. }
  split_and!.
  - split.
    + intros [m Hm].
      destruct (rights_models (datastore w) !! (id, 1)) as [r1 |] eqn:Hr1; cycle 1.
      { rewrite Hmissing1 in Hm by done. discriminate Hm. }
      destruct (snapshot_metadata (datastore w) !! (id +:+ "-" +:+ str_of_int version))
        as [meta |] eqn:Hmeta; [by split; eexists |].
      destruct (Hmissing2 ltac:(by eexists) eq_refl) as (e & He & _).
      rewrite He in Hm. discriminate Hm.
    + intros [[meta Hmeta] [r1 Hr1]].
      destruct (regenerate_run exp_model version w meta r1 Hmeta Hr1)
        as (v & r & tr & _ & Hrun).
      rewrite Hrun. by eexists.
  - exact Hmissing1.
  - exact Hmissing2.
  - destruct (reads_only_regenerate exp_model version w) as (r & tr & Hrun).
    by rewrite (Hrun w ltac:(done)).
  - apply read_only_regenerate.
Qed.

(** X2. The entry [regenerate_exp_commit_log_model] returns is built from its
    arguments and from the snapshot metadata model of the commit: its version
    and its [exploration_id] are the arguments; the committer, the commit
    type, message and commands it passes on, and both timestamps it sets,
    are those of the snapshot metadata model (not the clock's). *)
Theorem regenerate_copies_metadata `{Host} (exp_model : ExplorationModel.t) (version : Z)
    (w : world) (metadata_model : ExplorationSnapshotMetadataModel.t)
    (m : ExplorationCommitLogEntryModel.t) :
  snapshot_metadata (datastore w)
    !! (ExplorationModel.id exp_model +:+ "-" +:+ str_of_int version)
    = Some metadata_model →
  res (regenerate_exp_commit_log_model exp_model version w) = Returned m →
  ExplorationCommitLogEntryModel.version m = version
  ∧ ExplorationCommitLogEntryModel.exploration_id m = ExplorationModel.id exp_model
  ∧ ExplorationCommitLogEntryModel.user_id m =
      ExplorationSnapshotMetadataModel.committer_id metadata_model
  ∧ ExplorationCommitLogEntryModel.commit_type m =
      ExplorationSnapshotMetadataModel.commit_type metadata_model
  ∧ ExplorationCommitLogEntryModel.commit_message m =
      ExplorationSnapshotMetadataModel.commit_message metadata_model
  ∧ ExplorationCommitLogEntryModel.commit_cmds m =
      ExplorationSnapshotMetadataModel.commit_cmds metadata_model
  ∧ ExplorationCommitLogEntryModel.created_on m =
      Some (ExplorationSnapshotMetadataModel.created_on metadata_model)
  ∧ ExplorationCommitLogEntryModel.last_updated m =
      Some (ExplorationSnapshotMetadataModel.last_updated metadata_model).
Proof.
  intros Hmeta Hm.
  destruct (rights_models (datastore w) !! (ExplorationModel.id exp_model, 1))
    as [r1 |] eqn:Hr1.
  - destruct (regenerate_run exp_model version w metadata_model r1 Hmeta Hr1)
      as (v & r & tr & _ & Hrun).
    rewrite Hrun in Hm. injection Hm as <-. by split_and!.
  - rewrite (regenerate_without_rights1 exp_model version w Hr1) in Hm. discriminate Hm.
Qed.

Lemma regenerate_copies_metadata_witness :
  ∃ m, res (@regenerate_exp_commit_log_model Demo.host (Demo.item "title" 3 43 false) 2
              (Demo.world_of Demo.store3)) = Returned m
       ∧ ExplorationCommitLogEntryModel.user_id m = "user1"
       ∧ ExplorationCommitLogEntryModel.created_on m = Some 150.
Proof.
  eexists. split; [vm_compute; reflexivity |].
  destruct (@regenerate_copies_metadata Demo.host (Demo.item "title" 3 43 false) 2
              (Demo.world_of Demo.store3) (Demo.metadata 150) _
              ltac:(vm_compute; reflexivity) ltac:(vm_compute; reflexivity))
    as (_ & _ & Huser & _ & _ & _ & Hcreated & _).
  split; [exact Huser | exact Hcreated].
Defined.

(** *** RegenerateMissingExpCommitLogModels.map: what a run leaves behind *)

Lemma regenerate_missing_map_unfold `{Host} (item : ExplorationModel.t) :
  RegenerateMissingExpCommitLogModels.map item =
  if ExplorationModel.deleted item then ret tt
  else for_each (RANGE 1 (ExplorationModel.version item + 1)) (regenerate_if_missing item).
Proof. reflexivity. Qed.

Lemma commit_log_key_inj (id : string) (v v' : Z) :
  commit_log_key id v = commit_log_key id v' → v = v'.
Proof.
  unfold commit_log_key, str_of_int. intros Heq.
  apply (inj (String.app "exploration-")) in Heq.
  apply (inj (String.app id)) in Heq.
  apply (inj (String.app "-")) in Heq.
  by apply (inj pretty) in Heq.
Qed.

Lemma CommitLogEntry_put_run (m : ExplorationCommitLogEntryModel.t) (w : world) :
  CommitLogEntry_put m w =
  Outcome (Returned tt) []
    (World
       {| explorations := explorations (datastore w);
          rights_models := rights_models (datastore w);
          snapshot_metadata := snapshot_metadata (datastore w);
          commit_log_entries :=
            <[ExplorationCommitLogEntryModel.id m := m]> (commit_log_entries (datastore w)) |}
       (ds_trace w ++ [DsPut "ExplorationCommitLogEntryModel" (ExplorationCommitLogEntryModel.id m)])
       (logged w)).
Proof. unfold CommitLogEntry_put. by rewrite bind_trace, bind_get_store. Qed.

(** The three ways an iteration can go: the entry is there and nothing
    happens; it is missing, regenerated, stored under its key and reported;
    or it is missing and regenerating it fails. *)
Lemma regenerate_if_missing_cases `{Host} (item : ExplorationModel.t) (version : Z)
    (w : world) :
  let key := commit_log_key (ExplorationModel.id item) version in
  let w1 := World (datastore w)
              (ds_trace w ++ [DsGet "ExplorationCommitLogEntryModel" key]) (logged w) in
  (entry_missing (datastore w) (ExplorationModel.id item) version = false
   ∧ regenerate_if_missing item version w = Outcome (Returned tt) [] w1)
  ∨ (entry_missing (datastore w) (ExplorationModel.id item) version = true
     ∧ ∃ m tr,
         regenerate_exp_commit_log_model item version w1 =
           Outcome (Returned m) [] (World (datastore w) (ds_trace w1 ++ tr) (logged w))
         ∧ regenerate_if_missing item version w =
           Outcome (Returned tt) [regenerated_record (ExplorationModel.id item) version]
             (World
                {| explorations := explorations (datastore w);
                   rights_models := rights_models (datastore w);
                   snapshot_metadata := snapshot_metadata (datastore w);
                   commit_log_entries :=
                     <[key := update_timestamps m false]> (commit_log_entries (datastore w)) |}
                (ds_trace w1 ++ tr ++ [DsPut "ExplorationCommitLogEntryModel" key])
                (logged w)))
  ∨ (entry_missing (datastore w) (ExplorationModel.id item) version = true
     ∧ res (regenerate_if_missing item version w) ≠ Returned tt
     ∧ yielded (regenerate_if_missing item version w) = []
     ∧ datastore (after (regenerate_if_missing item version w)) = datastore w).
Proof.
  intros key w1. unfold regenerate_if_missing, entry_missing. fold key.
  change ("exploration-" +:+ ExplorationModel.id item +:+ "-" +:+ str_of_int version)
    with key.
  rewrite (bind_run _ _ w w1 (commit_log_entries (datastore w) !! key)); cycle 1.
  { unfold CommitLogEntry_get_by_id. by rewrite bind_trace, bind_get_store. }
  destruct (commit_log_entries (datastore w) !! key) as [c |] eqn:Hget; [by left | right].
  destruct (reads_only_regenerate item version w1) as (r & tr & Hrun).
  specialize (Hrun w1 ltac:(done)).
  pose proof (regenerate_returns_id item version w1) as Hid.
  rewrite Hrun in Hid. cbn [res] in Hid.
  destruct r as [m | e |].
  - left. split; [done |]. exists m, tr. split; [done |].
    specialize (Hid m eq_refl). fold (commit_log_key (ExplorationModel.id item) version) in Hid.
    fold key in Hid.
    rewrite (bind_run _ _ _ _ _ Hrun). cbv zeta.
    rewrite (bind_run _ _ _ _ _ (CommitLogEntry_put_run _ _)).
    assert (Hid' : ExplorationCommitLogEntryModel.id (update_timestamps m false) = key)
      by done.
    rewrite Hid'. unfold yield, regenerated_record.
    cbn [datastore ds_trace logged w1]. by rewrite <- app_assoc.
  - right. split; [done |]. rewrite (bind_raised _ _ _ _ _ _ Hrun). by cbn.
  - right. split; [done |]. unfold bind. rewrite Hrun. by cbn.
Qed.

Lemma bind_returned_inv {A B} (m : gen A) (k : A -> gen B) (w : world) (b : B) :
  res (bind m k w) = Returned b →
  ∃ a, res (m w) = Returned a
       ∧ res (k a (after (m w))) = Returned b
       ∧ yielded (bind m k w) = yielded (m w) ++ yielded (k a (after (m w)))
       ∧ after (bind m k w) = after (k a (after (m w))).
Proof.
  unfold bind. destruct (res (m w)) as [a | e |]; [| done | done].
  intros Hk. by exists a.
Qed.

(** An iteration that returns: what it yields and what it changes. *)
Lemma regenerate_if_missing_returned `{Host} (item : ExplorationModel.t) (version : Z)
    (w : world) :
  res (regenerate_if_missing item version w) = Returned tt →
  yielded (regenerate_if_missing item version w) =
    (if entry_missing (datastore w) (ExplorationModel.id item) version
     then [regenerated_record (ExplorationModel.id item) version] else [])
  ∧ entry_missing (datastore (after (regenerate_if_missing item version w)))
      (ExplorationModel.id item) version = false
  ∧ (∀ k, k ≠ commit_log_key (ExplorationModel.id item) version →
       commit_log_entries (datastore (after (regenerate_if_missing item version w))) !! k =
       commit_log_entries (datastore w) !! k).
Proof.
  intros Hret.
  destruct (regenerate_if_missing_cases item version w)
    as [[Hm Hrun] | [[Hm (m & tr & _ & Hrun)] | [_ [Hres _]]]]; [| | done].
  - rewrite Hrun, Hm. by cbn.
  - rewrite Hrun, Hm. cbn [yielded after datastore commit_log_entries].
    split_and!; [done | |].
    + unfold entry_missing. cbn [commit_log_entries]. by rewrite lookup_insert_eq.
    + intros k Hk. by rewrite lookup_insert_ne.
Qed.

Lemma regenerate_loop_returned `{Host} (item : ExplorationModel.t) (versions : list Z) :
  ∀ w,
    NoDup versions →
    res (for_each versions (regenerate_if_missing item) w) = Returned tt →
    yielded (for_each versions (regenerate_if_missing item) w) =
      regenerated_record (ExplorationModel.id item)
      <$> List.filter (entry_missing (datastore w) (ExplorationModel.id item)) versions
    ∧ (∀ v, v ∈ versions →
         entry_missing (datastore (after (for_each versions (regenerate_if_missing item) w)))
           (ExplorationModel.id item) v = false)
    ∧ (∀ k, (∀ v, v ∈ versions → k ≠ commit_log_key (ExplorationModel.id item) v) →
         commit_log_entries
           (datastore (after (for_each versions (regenerate_if_missing item) w))) !! k =
         commit_log_entries (datastore w) !! k).
Proof.
  induction versions as [| v rest IH]; intros w Hnd Hret.
  - split_and!; [done | by intros v ?%elem_of_nil | done].
  - cbn [for_each] in *.
    destruct (bind_returned_inv _ _ _ _ Hret) as ([] & Hbody & Hrest & Hy & Ha).
    apply NoDup_cons in Hnd as [Hv Hnd].
    destruct (regenerate_if_missing_returned item v w Hbody) as (Hy1 & Hthere & Hother).
    destruct (IH _ Hnd Hrest) as (Hy2 & Hall & Hframe).
    rewrite Hy, Ha, Hy1, Hy2. split_and!.
    + cbn [List.filter].
      assert (Hsame :
        List.filter (entry_missing
                       (datastore (after (regenerate_if_missing item v w)))
                       (ExplorationModel.id item)) rest =
        List.filter (entry_missing (datastore w) (ExplorationModel.id item)) rest).
      { apply List.filter_ext_in. intros v' Hin%list_elem_of_In.
        unfold entry_missing. rewrite Hother; [done |].
        intros Heq%commit_log_key_inj. by subst. }
      rewrite Hsame.
      by destruct (entry_missing (datastore w) (ExplorationModel.id item) v).
    + intros v' [-> | Hin]%elem_of_cons; [| by apply Hall].
      unfold entry_missing in *. rewrite Hframe; [done |].
      intros v' Hin Heq%commit_log_key_inj. by subst.
    + intros k Hk. rewrite Hframe by (intros v' Hin; apply Hk; by right).
      apply Hother, Hk. by left.
Qed.

Lemma regenerate_loop_nothing_missing `{Host} (item : ExplorationModel.t)
    (versions : list Z) :
  ∀ w,
    (∀ v, v ∈ versions →
       entry_missing (datastore w) (ExplorationModel.id item) v = false) →
    for_each versions (regenerate_if_missing item) w =
    Outcome (Returned tt) []
      (World (datastore w)
         (ds_trace w ++
          ((fun v => DsGet "ExplorationCommitLogEntryModel"
                       (commit_log_key (ExplorationModel.id item) v)) <$> versions))
         (logged w)).
Proof.
  induction versions as [| v rest IH]; intros w Hall.
  - cbn. rewrite app_nil_r. by destruct w.
  - cbn [for_each].
    destruct (regenerate_if_missing_cases item v w)
      as [[_ Hrun] | [[Hm _] | [Hm _]]];
      try (rewrite Hall in Hm by (by left); discriminate Hm).
    rewrite (bind_run _ _ _ _ _ Hrun), IH.
    + cbn [datastore ds_trace logged fmap list_fmap]. by rewrite <- app_assoc.
    + intros v' Hin. apply Hall. by right.
Qed.

(** X5. A run of [RegenerateMissingExpCommitLogModels.map] that returns
    yields exactly one record per version of the exploration that had no
    commit log entry when the run started, in increasing order of version,
    and no record for a version whose entry was there. *)
Theorem regenerate_missing_yields_missing_versions `{Host}
    (item : ExplorationModel.t) (w : world) :
  ExplorationModel.deleted item = false →
  res (RegenerateMissingExpCommitLogModels.map item w) = Returned tt →
  yielded (RegenerateMissingExpCommitLogModels.map item w) =
    regenerated_record (ExplorationModel.id item)
    <$> List.filter (entry_missing (datastore w) (ExplorationModel.id item))
          (RANGE 1 (ExplorationModel.version item + 1)).
Proof.
  rewrite regenerate_missing_map_unfold. intros -> Hret.
  by apply regenerate_loop_returned; [apply NoDup_seqZ |].
Qed.

Lemma regenerate_missing_yields_missing_versions_witness :
  yielded (@RegenerateMissingExpCommitLogModels.map Demo.host
             (Demo.item "title" 3 43 false) (Demo.world_of Demo.store3)) =
  [ ("Regenerated Exploration Commit Log Model: version 1", PStr "exp1");
    ("Regenerated Exploration Commit Log Model: version 2", PStr "exp1");
    ("Regenerated Exploration Commit Log Model: version 3", PStr "exp1") ].
Proof.
  rewrite (@regenerate_missing_yields_missing_versions Demo.host
             (Demo.item "title" 3 43 false) (Demo.world_of Demo.store3) eq_refl
             ltac:(vm_compute; reflexivity)).
  vm_compute. reflexivity.
Defined.

(** X4. [RegenerateMissingExpCommitLogModels.map] completes the commit log
    and is idempotent: after a run that returns, every version from 1 to
    [item.version] has a commit log entry under its key, and running the map
    again on the same item returns without yielding anything and without
    changing the datastore. *)
Theorem regenerate_missing_idempotent `{Host} (item : ExplorationModel.t) (w : world) :
  ExplorationModel.deleted item = false →
  res (RegenerateMissingExpCommitLogModels.map item w) = Returned tt →
  (∀ v, 1 ≤ v ≤ ExplorationModel.version item →
     is_Some (commit_log_entries
                (datastore (after (RegenerateMissingExpCommitLogModels.map item w)))
              !! ("exploration-" +:+ ExplorationModel.id item +:+ "-" +:+ str_of_int v)))
  ∧ res (RegenerateMissingExpCommitLogModels.map item
           (after (RegenerateMissingExpCommitLogModels.map item w))) = Returned tt
  ∧ yielded (RegenerateMissingExpCommitLogModels.map item
               (after (RegenerateMissingExpCommitLogModels.map item w))) = []
  ∧ datastore (after (RegenerateMissingExpCommitLogModels.map item
                        (after (RegenerateMissingExpCommitLogModels.map item w)))) =
    datastore (after (RegenerateMissingExpCommitLogModels.map item w)).
Proof.
  rewrite !regenerate_missing_map_unfold. intros -> Hret.
  destruct (regenerate_loop_returned item _ w
              (NoDup_seqZ 1 (ExplorationModel.version item + 1 - 1)) Hret)
    as (_ & Hall & _).
  fold (RANGE 1 (ExplorationModel.version item + 1)) in Hall.
  split.
  - intros v Hv.
    specialize (Hall v ltac:(apply elem_of_seqZ; lia)).
    unfold entry_missing, commit_log_key in Hall.
    by destruct (commit_log_entries _ !! _).
  - by rewrite (regenerate_loop_nothing_missing item _ _ Hall).
Qed.

Lemma regenerate_missing_idempotent_witness :
  yielded (@RegenerateMissingExpCommitLogModels.map Demo.host (Demo.item "title" 3 43 false)
             (after (@RegenerateMissingExpCommitLogModels.map Demo.host
                       (Demo.item "title" 3 43 false) (Demo.world_of Demo.store3)))) = [].
Proof.
  apply (@regenerate_missing_idempotent Demo.host (Demo.item "title" 3 43 false)
           (Demo.world_of Demo.store3) eq_refl ltac:(vm_compute; reflexivity)).
Defined.

(** *** ExpCommitLogModelRegenerationValidator.map *)

Lemma validator_map_unfold `{Host} (item : ExplorationModel.t) :
  ExpCommitLogModelRegenerationValidator.map item =
  if ExplorationModel.deleted item then ret tt else
  bind (call (ExpCommitLogModelRegenerationValidator.last_char (ExplorationModel.id item)))
    (fun last_char_in_id =>
       if Ascii.ltb last_char_in_id "a"%char || Ascii.ltb "j"%char last_char_in_id
       then ret tt
       else for_each (RANGE 1 (ExplorationModel.version item + 1)) (validate_version item)).
Proof. reflexivity. Qed.

Lemma for_each_quiet_iff {A} (xs : list A) (body : A -> gen unit) :
  (∀ x, world_independent (body x)) →
  ∀ w,
    (res (for_each xs body w) = Returned tt ∧ yielded (for_each xs body w) = []
     ↔ Forall (fun x => body x w = Outcome (Returned tt) [] w) xs)
    ∧ (Forall (fun x => body x w = Outcome (Returned tt) [] w) xs →
       for_each xs body w = Outcome (Returned tt) [] w).
Proof.
  intros Hb w. induction xs as [| x xs [IH1 IH2]].
  - cbn. split; [| done]. split; [by constructor | done].
  - cbn [for_each]. destruct (Hb x) as (r & ys & Hx).
    split.
    + rewrite Forall_cons, <- IH1, Hx. unfold bind. rewrite Hx. cbn [res yielded after].
      destruct r as [[] | e |]; cbn [res yielded].
      * split.
        -- intros [Hr Hy]. apply app_eq_nil in Hy as [-> Hy]. done.
        -- intros [Heq [Hr Hy]]. injection Heq as ->. by rewrite Hy.
      * split; [by intros [? _] | by intros [? _]].
      * split; [by intros [? _] | by intros [? _]].
    + intros [Hx' Hall]%Forall_cons.
      by rewrite (bind_run _ _ _ _ _ Hx'), IH2.
Qed.

Lemma world_independent_compare_field `{Host} c m field :
  world_independent (compare_field c m field).
Proof.
  unfold compare_field, ExpCommitLogModelRegenerationValidator.mismatch.
  world_independent_steps.
  destruct (ExpCommitLogModelRegenerationValidator.field_ne _ _); world_independent_steps.
Qed.

Lemma world_independent_compare_time_field `{Host} c m field :
  world_independent (compare_time_field c m field).
Proof.
  unfold compare_time_field, ExpCommitLogModelRegenerationValidator.mismatch.
  world_independent_steps. cbv zeta.
  world_independent_steps.
  destruct (_ || _); world_independent_steps.
Qed.

Lemma compare_field_str `{Host} c m field (x y : string) w :
  ExpCommitLogModelRegenerationValidator.getattr c field = inr (FStr x) →
  ExpCommitLogModelRegenerationValidator.getattr m field = inr (FStr y) →
  compare_field c m field w = Outcome (Returned tt) [] w ↔ x = y.
Proof.
  intros Hc Hm. unfold compare_field. rewrite Hc, Hm, !bind_call_inr.
  cbn [ExpCommitLogModelRegenerationValidator.field_ne].
  destruct (String.eqb_spec x y) as [-> | Hne]; cbn [negb]; [done |].
  unfold ExpCommitLogModelRegenerationValidator.mismatch, yield. split; [discriminate | done].
Qed.

Lemma compare_field_int `{Host} c m field (x y : Z) w :
  ExpCommitLogModelRegenerationValidator.getattr c field = inr (FInt x) →
  ExpCommitLogModelRegenerationValidator.getattr m field = inr (FInt y) →
  compare_field c m field w = Outcome (Returned tt) [] w ↔ x = y.
Proof.
  intros Hc Hm. unfold compare_field. rewrite Hc, Hm, !bind_call_inr.
  cbn [ExpCommitLogModelRegenerationValidator.field_ne].
  destruct (Z.eqb_spec x y) as [-> | Hne]; cbn [negb]; [done |].
  unfold ExpCommitLogModelRegenerationValidator.mismatch, yield. split; [discriminate | done].
Qed.

Lemma compare_field_bool `{Host} c m field (x y : bool) w :
  ExpCommitLogModelRegenerationValidator.getattr c field = inr (FBool x) →
  ExpCommitLogModelRegenerationValidator.getattr m field = inr (FBool y) →
  compare_field c m field w = Outcome (Returned tt) [] w ↔ x = y.
Proof.
  intros Hc Hm. unfold compare_field. rewrite Hc, Hm, !bind_call_inr.
  cbn [ExpCommitLogModelRegenerationValidator.field_ne].
  unfold ExpCommitLogModelRegenerationValidator.mismatch, yield.
  destruct x, y; cbn [Bool.eqb negb]; split; done.
Qed.

Lemma compare_field_json `{Host} c m field (x y : pyval) w :
  ExpCommitLogModelRegenerationValidator.getattr c field = inr (FJson x) →
  ExpCommitLogModelRegenerationValidator.getattr m field = inr (FJson y) →
  compare_field c m field w = Outcome (Returned tt) [] w ↔ py_eq x y = true.
Proof.
  intros Hc Hm. unfold compare_field. rewrite Hc, Hm, !bind_call_inr.
  cbn [ExpCommitLogModelRegenerationValidator.field_ne].
  unfold ExpCommitLogModelRegenerationValidator.mismatch, yield.
  destruct (py_eq x y); cbn [negb]; split; done.
Qed.

Lemma compare_time_field_close `{Host} c m field (x y : option Z) w :
  ExpCommitLogModelRegenerationValidator.getattr c field = inr (FTime x) →
  ExpCommitLogModelRegenerationValidator.getattr m field = inr (FTime y) →
  compare_time_field c m field w = Outcome (Returned tt) [] w ↔ times_close x y.
Proof.
  intros Hc Hm. unfold compare_time_field, times_close. rewrite Hc, Hm, !bind_call_inr.
  destruct y as [t' |]; unfold ExpCommitLogModelRegenerationValidator.time_of at 1, type_error.
  - rewrite bind_call_inr. cbv zeta.
    destruct x as [t |]; unfold ExpCommitLogModelRegenerationValidator.time_of, type_error.
    + rewrite bind_call_inr.
      unfold ExpCommitLogModelRegenerationValidator.mismatch, yield.
      destruct (Z.ltb_spec (t' + ExpCommitLogModelRegenerationValidator.one_minute) t);
        destruct (Z.ltb_spec t (t' - ExpCommitLogModelRegenerationValidator.one_minute));
        cbn [orb]; (split; [try discriminate | try done]).
      all: try (intros (? & ? & [= <-] & [= <-] & ? & ?); lia).
      intros _. exists t, t'. split_and!; [done | done | lia | lia].
    + rewrite bind_call_inl. split; [discriminate |].
      by intros (? & ? & [=] & _).
  - rewrite bind_call_inl. split; [discriminate |].
    by intros (? & ? & _ & [=] & _).
Qed.

Lemma world_independent_for_each {A} (xs : list A) (body : A -> gen unit) :
  (∀ x, world_independent (body x)) → world_independent (for_each xs body).
Proof.
  intros Hb. induction xs as [| x xs IH]; cbn [for_each].
  - apply silent_world_independent, silent_ret.
  - apply world_independent_bind; [apply Hb | by intros _].
Qed.

Lemma bind_quiet_iff (m k : gen unit) (w : world) :
  world_independent m →
  res (bind m (fun _ => k) w) = Returned tt ∧ yielded (bind m (fun _ => k) w) = []
  ↔ (res (m w) = Returned tt ∧ yielded (m w) = [])
    ∧ (res (k w) = Returned tt ∧ yielded (k w) = []).
Proof.
  intros (r & ys & Hm). unfold bind. rewrite Hm. cbn [res yielded after].
  destruct r as [[] | e |]; cbn [res yielded].
  - split.
    + intros [Hr Hy]. by apply app_eq_nil in Hy as [-> Hy].
    + intros [[_ ->] [Hr Hy]]. by rewrite Hy.
  - split; [by intros [? _] | by intros [[? _] _]].
  - split; [by intros [? _] | by intros [[? _] _]].
Qed.

Lemma compare_entries_agree_iff `{Host} (c m : ExplorationCommitLogEntryModel.t) (w : world) :
  (res ((for_each ExpCommitLogModelRegenerationValidator.fields (compare_field c m) ;;
         for_each ExpCommitLogModelRegenerationValidator.time_fields
           (compare_time_field c m)) w) = Returned tt
   ∧ yielded ((for_each ExpCommitLogModelRegenerationValidator.fields (compare_field c m) ;;
               for_each ExpCommitLogModelRegenerationValidator.time_fields
                 (compare_time_field c m)) w) = []
   ↔ entries_agree c m)
  ∧ (entries_agree c m →
     (for_each ExpCommitLogModelRegenerationValidator.fields (compare_field c m) ;;
      for_each ExpCommitLogModelRegenerationValidator.time_fields
        (compare_time_field c m)) w = Outcome (Returned tt) [] w).
Proof.
  destruct (for_each_quiet_iff ExpCommitLogModelRegenerationValidator.fields
              (compare_field c m) (world_independent_compare_field c m) w) as [Hf1 Hf2].
  destruct (for_each_quiet_iff ExpCommitLogModelRegenerationValidator.time_fields
              (compare_time_field c m) (world_independent_compare_time_field c m) w)
    as [Ht1 Ht2].
  assert (Hfields :
    Forall (fun x => compare_field c m x w = Outcome (Returned tt) [] w)
      ExpCommitLogModelRegenerationValidator.fields
    ∧ Forall (fun x => compare_time_field c m x w = Outcome (Returned tt) [] w)
        ExpCommitLogModelRegenerationValidator.time_fields
    ↔ entries_agree c m).
  { unfold ExpCommitLogModelRegenerationValidator.fields,
      ExpCommitLogModelRegenerationValidator.time_fields, entries_agree.
    rewrite !Forall_cons, !Forall_nil.
    rewrite (compare_field_str c m "user_id" _ _ w eq_refl eq_refl).
    rewrite (compare_field_str c m "commit_type" _ _ w eq_refl eq_refl).
    rewrite (compare_field_str c m "commit_message" _ _ w eq_refl eq_refl).
    rewrite (compare_field_json c m "commit_cmds" _ _ w eq_refl eq_refl).
    rewrite (compare_field_int c m "version" _ _ w eq_refl eq_refl).
    rewrite (compare_field_str c m "post_commit_status" _ _ w eq_refl eq_refl).
    rewrite (compare_field_bool c m "post_commit_community_owned" _ _ w eq_refl eq_refl).
    rewrite (compare_field_bool c m "post_commit_is_private" _ _ w eq_refl eq_refl).
    rewrite (compare_field_str c m "exploration_id" _ _ w eq_refl eq_refl).
    rewrite (compare_time_field_close c m "created_on" _ _ w eq_refl eq_refl).
    rewrite (compare_time_field_close c m "last_updated" _ _ w eq_refl eq_refl).
    tauto. }
  split.
  - rewrite <- Hfields, <- Hf1, <- Ht1.
    apply bind_quiet_iff, world_independent_for_each, world_independent_compare_field.
  - intros [Hf Ht]%Hfields.
    by rewrite (bind_run _ _ _ _ _ (Hf2 Hf)), (Ht2 Ht).
Qed.

Lemma world_independent_after {A} (m : gen A) (w : world) :
  world_independent m → after (m w) = w.
Proof. intros (r & ys & Hm). by rewrite Hm. Qed.

Lemma world_independent_compare `{Host} (c m : ExplorationCommitLogEntryModel.t) :
  world_independent
    (for_each ExpCommitLogModelRegenerationValidator.fields (compare_field c m) ;;
     for_each ExpCommitLogModelRegenerationValidator.time_fields (compare_time_field c m)).
Proof.
  apply world_independent_bind; [| intros _];
    apply world_independent_for_each; intros field;
    [apply world_independent_compare_field | apply world_independent_compare_time_field].
Qed.

(** One iteration of the validator: it never changes the datastore, and it
    returns without a record exactly when the version is consistent. *)
Lemma validate_version_spec `{Host} (item : ExplorationModel.t) (version : Z) (w : world) :
  datastore (after (validate_version item version w)) = datastore w
  ∧ (res (validate_version item version w) = Returned tt
     ∧ yielded (validate_version item version w) = []
     ↔ version_consistent (datastore w) item version).
Proof.
  unfold validate_version, version_consistent.
  change ("exploration-" +:+ ExplorationModel.id item +:+ "-" +:+ str_of_int version)
    with (commit_log_key (ExplorationModel.id item) version).
  set (key := commit_log_key (ExplorationModel.id item) version).
  set (w1 := World (datastore w)
               (ds_trace w ++ [DsGet "ExplorationCommitLogEntryModel" key]) (logged w)).
  rewrite (bind_run _ _ w w1 (commit_log_entries (datastore w) !! key)); cycle 1.
  { unfold CommitLogEntry_get_by_id. by rewrite bind_trace, bind_get_store. }
  destruct (commit_log_entries (datastore w) !! key) as [c |] eqn:Hget.
  - destruct (reads_only_regenerate item version w) as (r & tr & Hrun).
    pose proof (Hrun w1 ltac:(done)) as Hrun1.
    pose proof (Hrun (World (datastore w) [] []) ltac:(done)) as Hrun0.
    destruct r as [m | e |].
    + rewrite (bind_run _ _ _ _ _ Hrun1).
      rewrite (world_independent_after _ _ (world_independent_compare c m)).
      split; [done |].
      rewrite (proj1 (compare_entries_agree_iff c m _)).
      split.
      * intros Hagree stored [= <-]. exists m. by rewrite Hrun0.
      * intros Hcons. destruct (Hcons c eq_refl) as (m' & Hm' & Hagree).
        rewrite Hrun0 in Hm'. by injection Hm' as <-.
    + rewrite (bind_raised _ _ _ _ _ _ Hrun1). split; [done |].
      split; [by intros [? _] |].
      intros Hcons. destruct (Hcons c eq_refl) as (m' & Hm' & _).
      rewrite Hrun0 in Hm'. discriminate Hm'.
    + unfold bind at 1 2 3. rewrite Hrun1. cbn [res yielded after datastore].
      split; [done |]. split; [by intros [? _] |].
      intros Hcons. destruct (Hcons c eq_refl) as (m' & Hm' & _).
      rewrite Hrun0 in Hm'. discriminate Hm'.
  - split; [done |]. split; [by intros _ stored [=] | done].
Qed.

Lemma validate_versions_spec `{Host} (item : ExplorationModel.t) (versions : list Z) :
  ∀ w,
    datastore (after (for_each versions (validate_version item) w)) = datastore w
    ∧ (res (for_each versions (validate_version item) w) = Returned tt
       ∧ yielded (for_each versions (validate_version item) w) = []
       ↔ ∀ v, v ∈ versions → version_consistent (datastore w) item v).
Proof.
  induction versions as [| v rest IH]; intros w.
  - split; [done |]. split; [by intros _ v ?%elem_of_nil | done].
  - cbn [for_each].
    destruct (validate_version_spec item v w) as [Hstore Hbody].
    destruct (IH (after (validate_version item v w))) as [Hstore' Hrest].
    rewrite Hstore in Hstore', Hrest.
    unfold bind.
    destruct (res (validate_version item v w)) as [[] | e |] eqn:Hres;
      cbn [res yielded after].
    + split; [done |]. split.
      * intros [Hr Hy]. apply app_eq_nil in Hy as [Hy1 Hy2].
        intros v' [-> | Hin]%elem_of_cons.
        -- by apply Hbody.
        -- by apply Hrest.
      * intros Hall.
        destruct (proj2 Hbody (Hall v ltac:(by left))) as [_ ->].
        apply Hrest. intros v' Hin. apply Hall. by right.
    + split; [done |]. split; [by intros [? _] |].
      intros Hall. by destruct (proj2 Hbody (Hall v ltac:(by left))) as [? _].
    + split; [done |]. split; [by intros [? _] |].
      intros Hall. by destruct (proj2 Hbody (Hall v ltac:(by left))) as [? _].
Qed.

Lemma last_char_app (pre : string) (ch : ascii) :
  ExpCommitLogModelRegenerationValidator.last_char (pre +:+ String ch EmptyString) = inr ch.
Proof.
  induction pre as [| a pre IH]; [done |].
  destruct pre as [| a' pre]; [done |]. exact IH.
Qed.

(** X6. [ExpCommitLogModelRegenerationValidator.map] samples explorations by
    the last character of their id. An exploration that is not deleted and
    whose id ends in a character before [a] or after [j] is skipped: the job
    returns at once, yields nothing and leaves the world as it was, without
    one datastore access. An empty id has no last character: [item.id[-1]]
    raises IndexError. *)
Theorem validator_samples_by_last_char `{Host} (item : ExplorationModel.t) (w : world) :
  ExplorationModel.deleted item = false →
  (ExplorationModel.id item = "" →
   ExpCommitLogModelRegenerationValidator.map item w =
   Outcome (Raised (Exn IndexError "string index out of range")) [] w)
  ∧ (∀ pre ch,
       ExplorationModel.id item = pre +:+ String ch EmptyString →
       Ascii.ltb ch "a"%char || Ascii.ltb "j"%char ch = true →
       ExpCommitLogModelRegenerationValidator.map item w = Outcome (Returned tt) [] w).
Proof.
  intros Hdel. rewrite validator_map_unfold, Hdel. split.
  - intros ->. reflexivity.
  - intros pre ch -> Hout. rewrite last_char_app, bind_call_inr. by rewrite Hout.
Qed.

Lemma validator_samples_by_last_char_witness :
  @ExpCommitLogModelRegenerationValidator.map Demo.host (Demo.item "title" 3 43 false)
    (Demo.world_of Demo.store3) =
  Outcome (Returned tt) [] (Demo.world_of Demo.store3).
Proof.
  apply (proj2 (@validator_samples_by_last_char Demo.host (Demo.item "title" 3 43 false)
                  (Demo.world_of Demo.store3) eq_refl)
           "exp" "1"%char eq_refl eq_refl).
Defined.

(** X7. For an exploration in the sample (not deleted, id ending in a
    character from [a] to [j]), [ExpCommitLogModelRegenerationValidator.map]
    returns without yielding a mismatch exactly when every version from 1 to
    [item.version] is consistent: its stored commit log entry, if there is
    one, can be regenerated, equals the regenerated entry on the nine
    compared fields and has both timestamps within one minute of the
    regenerated ones. Whatever it finds, it leaves the datastore as it
    was. *)
Theorem validator_quiet_iff_consistent `{Host} (item : ExplorationModel.t) (w : world)
    (last_char_in_id : ascii) :
  ExplorationModel.deleted item = false →
  ExpCommitLogModelRegenerationValidator.last_char (ExplorationModel.id item)
    = inr last_char_in_id →
  Ascii.ltb last_char_in_id "a"%char || Ascii.ltb "j"%char last_char_in_id = false →
  (res (ExpCommitLogModelRegenerationValidator.map item w) = Returned tt
   ∧ yielded (ExpCommitLogModelRegenerationValidator.map item w) = []
   ↔ ∀ v, 1 ≤ v ≤ ExplorationModel.version item →
          version_consistent (datastore w) item v)
  ∧ datastore (after (ExpCommitLogModelRegenerationValidator.map item w)) = datastore w.
Proof.
  intros Hdel Hlast Hin. rewrite validator_map_unfold, Hdel, Hlast, bind_call_inr, Hin.
  destruct (validate_versions_spec item (RANGE 1 (ExplorationModel.version item + 1)) w)
    as [Hstore Hiff].
  split; [| done]. rewrite Hiff. unfold RANGE.
  split; intros Hall v Hv; apply Hall; [apply elem_of_seqZ | apply elem_of_seqZ in Hv]; lia.
Qed.

Lemma validator_quiet_iff_consistent_witness :
  (res (@ExpCommitLogModelRegenerationValidator.map Demo.host (Sampled.item 2)
          (Demo.world_of Sampled.logged_store)) = Returned tt
   ∧ yielded (@ExpCommitLogModelRegenerationValidator.map Demo.host (Sampled.item 2)
                (Demo.world_of Sampled.logged_store)) = []
   ↔ ∀ v, 1 ≤ v ≤ ExplorationModel.version (Sampled.item 2) →
          @version_consistent Demo.host (datastore (Demo.world_of Sampled.logged_store))
            (Sampled.item 2) v)
  ∧ datastore (after (@ExpCommitLogModelRegenerationValidator.map Demo.host (Sampled.item 2)
                        (Demo.world_of Sampled.logged_store)))
    = datastore (Demo.world_of Sampled.logged_store).
Proof.
  apply (@validator_quiet_iff_consistent Demo.host (Sampled.item 2)
           (Demo.world_of Sampled.logged_store) "a"%char eq_refl eq_refl eq_refl).
Defined.

Lemma regenerate_returns_timestamps `{Host} exp_model version :
  returns
    (fun m => is_Some (ExplorationCommitLogEntryModel.created_on m)
              ∧ is_Some (ExplorationCommitLogEntryModel.last_updated m))
    (regenerate_exp_commit_log_model exp_model version).
Proof.
  unfold regenerate_exp_commit_log_model.
  repeat (apply returns_bind; intros ?).
  apply returns_ret. by split; eexists.
Qed.

Lemma update_timestamps_set `{Host} (m : ExplorationCommitLogEntryModel.t) :
  is_Some (ExplorationCommitLogEntryModel.created_on m) →
  is_Some (ExplorationCommitLogEntryModel.last_updated m) →
  update_timestamps m false = m.
Proof. destruct m. cbn. by intros [? ->] [? ->]. Qed.

Lemma regenerate_res_same `{Host} exp_model version (w w' : world) :
  same_rights_and_metadata (datastore w) (datastore w') →
  res (regenerate_exp_commit_log_model exp_model version w) =
  res (regenerate_exp_commit_log_model exp_model version w').
Proof.
  intros HR. destruct (reads_only_regenerate exp_model version w) as (r & tr & Hrun).
  by rewrite (Hrun w ltac:(done)), (Hrun w' HR).
Qed.

Lemma regenerate_if_missing_keeps_rights_and_metadata `{Host} item version (w : world) :
  same_rights_and_metadata (datastore w)
    (datastore (after (regenerate_if_missing item version w))).
Proof.
  destruct (only_adds_regenerate_missing item version w) as (_ & Hr & Hm & _).
  split; symmetry; [exact Hr | exact Hm].
Qed.

(** After a run of the loop that returns, the entry of each version that was
    missing is the entry regenerated for it, with its timestamps filled in. *)
Lemma regenerate_loop_entries `{Host} (item : ExplorationModel.t) (versions : list Z) :
  ∀ w,
    NoDup versions →
    res (for_each versions (regenerate_if_missing item) w) = Returned tt →
    ∀ v, v ∈ versions →
      entry_missing (datastore w) (ExplorationModel.id item) v = true →
      ∃ m,
        commit_log_entries
          (datastore (after (for_each versions (regenerate_if_missing item) w)))
          !! commit_log_key (ExplorationModel.id item) v = Some (update_timestamps m false)
        ∧ res (regenerate_exp_commit_log_model item v (World (datastore w) [] []))
          = Returned m.
Proof.
  induction versions as [| x rest IH]; intros w Hnd Hret v Hin Hmiss.
  { by apply elem_of_nil in Hin. }
  cbn [for_each] in *.
  destruct (bind_returned_inv _ _ _ _ Hret) as ([] & Hbody & Hrest & _ & Ha).
  apply NoDup_cons in Hnd as [Hx Hnd]. rewrite Ha.
  destruct (regenerate_loop_returned item rest _ Hnd Hrest) as (_ & _ & Hframe).
  destruct (regenerate_if_missing_returned item x w Hbody) as (_ & _ & Hother).
  apply elem_of_cons in Hin as [-> | Hin].
  - destruct (regenerate_if_missing_cases item x w)
      as [[Hm _] | [[_ (m & tr & Hreg & Hrun)] | [_ [Hres _]]]];
      [by rewrite Hm in Hmiss | | done].
    exists m. split.
    + rewrite Hframe by (intros v' Hv' Heq%commit_log_key_inj; by subst).
      rewrite Hrun. cbn [after datastore commit_log_entries]. by rewrite lookup_insert_eq.
    + rewrite (regenerate_res_same item x (World (datastore w) [] [])
                 (World (datastore w)
                    (ds_trace w ++
                     [DsGet "ExplorationCommitLogEntryModel"
                        (commit_log_key (ExplorationModel.id item) x)])
                    (logged w))) by done.
      by rewrite Hreg.
  - destruct (IH _ Hnd Hrest v Hin) as (m & Hlook & Hreg).
    { unfold entry_missing in *. rewrite Hother; [done |].
      intros Heq%commit_log_key_inj. by subst. }
    exists m. split; [done |]. rewrite <- Hreg.
    apply regenerate_res_same. cbn [datastore].
    apply regenerate_if_missing_keeps_rights_and_metadata.
Qed.

Lemma entries_agree_refl `{Host} (m : ExplorationCommitLogEntryModel.t) :
  (∀ v, py_eq v v = true) →
  is_Some (ExplorationCommitLogEntryModel.created_on m) →
  is_Some (ExplorationCommitLogEntryModel.last_updated m) →
  entries_agree m m.
Proof.
  intros Heq [t Ht] [t' Ht']. unfold entries_agree, times_close. rewrite Ht, Ht'.
  split_and!; try done.
  - exists t, t. unfold ExpCommitLogModelRegenerationValidator.one_minute. split_and!; [done | done | lia | lia].
  - exists t', t'. unfold ExpCommitLogModelRegenerationValidator.one_minute. split_and!; [done | done | lia | lia].
Qed.

Lemma same_rights_and_metadata_sym (s s' : store) :
  same_rights_and_metadata s s' → same_rights_and_metadata s' s.
Proof. by intros [? ?]. Qed.

Lemma regenerate_loop_only_adds `{Host} (item : ExplorationModel.t) (versions : list Z) :
  only_adds_commit_log_entries (for_each versions (regenerate_if_missing item)).
Proof. apply only_adds_for_each. intros v. apply only_adds_regenerate_missing. Qed.

Lemma version_consistent_same `{Host} (s s' : store) (item : ExplorationModel.t) (v : Z) :
  same_rights_and_metadata s s' →
  commit_log_entries s' !! commit_log_key (ExplorationModel.id item) v =
  commit_log_entries s !! commit_log_key (ExplorationModel.id item) v →
  version_consistent s item v → version_consistent s' item v.
Proof.
  intros Hsame Hlook Hcons stored Hst. rewrite Hlook in Hst.
  destruct (Hcons stored Hst) as (m & Hreg & Hagree). exists m. split; [| done].
  rewrite <- Hreg. apply regenerate_res_same. cbn [datastore].
  by apply same_rights_and_metadata_sym.
Qed.

(** The sampled store is consistent: its one stored entry is the regenerated
    one. *)
Lemma logged_store_consistent :
  ∀ v, 1 ≤ v ≤ ExplorationModel.version (Sampled.item 2) →
    @version_consistent Demo.host (datastore (Demo.world_of Sampled.logged_store))
      (Sampled.item 2) v.
Proof.
  intros v Hv stored Hst.
  assert (v = 1 ∨ v = 2) as [-> | ->] by (cbn in Hv; lia).
  - vm_compute in Hst. injection Hst as <-.
    eexists. split; [vm_compute; reflexivity |].
    apply (@entries_agree_refl Demo.host); [done | by eexists | by eexists].
  - vm_compute in Hst. discriminate Hst.
Qed.

(** X8. The two jobs fit together. Take a host whose [!=] never holds between
    a value and itself, an exploration with a non-empty id, and a datastore
    whose stored commit log entries are consistent. If
    [RegenerateMissingExpCommitLogModels.map] returns, then
    [ExpCommitLogModelRegenerationValidator.map], run on the world it leaves,
    returns as well and yields no mismatch: what the first job writes passes
    the second. *)
Theorem regenerated_entries_pass_validation `{Host} (item : ExplorationModel.t) (w : world) :
  (∀ v, py_eq v v = true) →
  (∀ v, 1 ≤ v ≤ ExplorationModel.version item →
     version_consistent (datastore w) item v) →
  res (RegenerateMissingExpCommitLogModels.map item w) = Returned tt →
  ExplorationModel.id item ≠ "" →
  res (ExpCommitLogModelRegenerationValidator.map item
         (after (RegenerateMissingExpCommitLogModels.map item w))) = Returned tt
  ∧ yielded (ExpCommitLogModelRegenerationValidator.map item
               (after (RegenerateMissingExpCommitLogModels.map item w))) = [].
Proof.
  intros Heq Hcons Hret Hid.
  rewrite validator_map_unfold.
  rewrite regenerate_missing_map_unfold in Hret |- *.
  destruct (ExplorationModel.deleted item) eqn:Hdel; [done |].
  destruct (ExpCommitLogModelRegenerationValidator.last_char (ExplorationModel.id item))
    as [e | ch] eqn:Hlast.
  { destruct (ExplorationModel.id item) as [| a rest]; [done |].
    exfalso. clear -Hlast. revert a Hlast.
    induction rest as [| b rest IH]; intros a Hlast; [done |]. by apply (IH b). }
  rewrite bind_call_inr.
  destruct (Ascii.ltb ch "a"%char || Ascii.ltb "j"%char ch); [done |].
  set (versions := RANGE 1 (ExplorationModel.version item + 1)) in *.
  apply validate_versions_spec. intros v Hv.
  assert (Hnd : NoDup versions) by apply NoDup_seqZ.
  destruct (regenerate_loop_only_adds item versions w) as (_ & Hr & Hm & Hsub).
  assert (Hsame : same_rights_and_metadata (datastore w)
            (datastore (after (for_each versions (regenerate_if_missing item) w))))
    by (by split).
  destruct (entry_missing (datastore w) (ExplorationModel.id item) v) eqn:Hmiss.
  - destruct (regenerate_loop_entries item versions w Hnd Hret v Hv Hmiss)
      as (m & Hlook & Hreg).
    intros stored Hst. rewrite Hlook in Hst. injection Hst as <-.
    exists m. split.
    + rewrite <- Hreg. apply regenerate_res_same. cbn [datastore].
      by apply same_rights_and_metadata_sym.
    + destruct (regenerate_returns_timestamps item v _ _ Hreg) as [Hc Hu].
      rewrite update_timestamps_set by done. by apply entries_agree_refl.
  - apply (version_consistent_same (datastore w)); [done | |].
    + unfold entry_missing in Hmiss.
      destruct (commit_log_entries (datastore w)
                  !! commit_log_key (ExplorationModel.id item) v) as [c |] eqn:Hc;
        [| done].
      by apply (lookup_weaken _ _ _ _ Hc Hsub).
    + apply Hcons. subst versions. unfold RANGE in Hv. apply elem_of_seqZ in Hv. lia.
Qed.

Lemma regenerated_entries_pass_validation_witness :
  res (@ExpCommitLogModelRegenerationValidator.map Demo.host (Sampled.item 2)
         (after (@RegenerateMissingExpCommitLogModels.map Demo.host (Sampled.item 2)
                   (Demo.world_of Sampled.logged_store)))) = Returned tt
  ∧ yielded (@ExpCommitLogModelRegenerationValidator.map Demo.host (Sampled.item 2)
               (after (@RegenerateMissingExpCommitLogModels.map Demo.host (Sampled.item 2)
                         (Demo.world_of Sampled.logged_store)))) = [].
Proof.
  apply (@regenerated_entries_pass_validation Demo.host (Sampled.item 2)
           (Demo.world_of Sampled.logged_store)
           (fun _ => eq_refl)
           logged_store_consistent
           ltac:(vm_compute; reflexivity)
           ltac:(discriminate)).
Defined.

(** *** RTECustomizationArgsValidationOneOffJob: from map to reduce *)

Lemma contains_app_r (sub pre s : string) :
  contains sub s = true → contains sub (pre +:+ s) = true.
Proof.
  intros Hs. induction pre as [| a pre IH]; [done |].
  change (String a pre +:+ s) with (String a (pre +:+ s)).
  cbn [contains]. rewrite IH. apply orb_true_r.
Qed.

Lemma load_failure_key_recognised (e : exn) :
  contains "loading exploration" (load_failure_key e) = true.
Proof. unfold load_failure_key. by do 2 apply contains_app_r. Qed.

Lemma for_each_yield {A} (f : A -> string * pyval) (xs : list A) :
  ∀ w, for_each xs (fun x => yield (f x).1 (f x).2) w = Outcome (Returned tt) (f <$> xs) w.
Proof.
  induction xs as [| x xs IH]; intros w; [reflexivity |].
  cbn [for_each]. unfold bind. rewrite IH. unfold yield.
  cbn [res yielded after fmap list_fmap app]. by destruct (f x).
Qed.

Lemma rte_customization_map_run `{Host} (item : ExplorationModel.t) (w : world)
    (exp : exploration) (html_list : list string) (err_dict : list (string * list string)) :
  ExplorationModel.deleted item = false →
  get_exploration_from_model item = inr exp →
  get_all_html_content_strings exp = inr html_list →
  validate_customization_args html_list = inr err_dict →
  RTECustomizationArgsValidationOneOffJob.map item w =
  Outcome (Returned tt) (customization_record (ExplorationModel.id item) <$> err_dict) w.
Proof.
  intros Hdel Hload Hhtml Herr.
  unfold RTECustomizationArgsValidationOneOffJob.map. rewrite Hdel.
  rewrite (bind_run _ _ w w (Some exp)); cycle 1.
  { apply try_except_returned. by rewrite Hload, bind_call_inr. }
  rewrite Hhtml, bind_call_inr, Herr, bind_call_inr.
  apply (for_each_yield (customization_record (ExplorationModel.id item))).
Qed.

Lemma rte_reduce_decoded `{Host} (values : list string) (lists : list (list pyval))
    (k : list (list pyval) → gen unit) (w : world) :
  Forall2 (fun value l => literal_eval value = inr (PList l)) values lists →
  bind (list_comp (fun value => call (literal_eval value)) values)
    (fun final_values =>
       bind (list_comp (fun sublist => call (py_iter sublist)) final_values) k) w
  = k lists w.
Proof.
  intros Hdec.
  rewrite (bind_silent _ _ (Returned (PList <$> lists))).
  - rewrite (bind_silent _ _ (Returned lists)); [done |].
    apply list_comp_call. apply Forall2_fmap_l, Forall_Forall2_diag.
    by apply Forall_true.
  - apply list_comp_call. by apply Forall2_fmap_r.
Qed.

(** X11. From [map] to [reduce] in [RTECustomizationArgsValidationOneOffJob].
    For an exploration that loads, every entry [(key, errs)] of the
    dictionary of errors becomes one record [(key, errs + ['Exp ID: <id>'])].
    When that record comes back to [reduce] (alone, under a key without
    ['loading exploration']): if [errs] is one string, [reduce] yields the one
    tuple [('Exp ID: <id>', err)]; if [errs] has an even number of strings,
    the record has an odd number of elements and [reduce] raises
    [IndexError]. The pairing of [reduce] expects one string per record. *)
Theorem customization_error_round_trip `{Host} (item : ExplorationModel.t) (w w' : world)
    (exp : exploration) (html_list : list string) (err_dict : list (string * list string))
    (key value : string) (errs : list string) :
  ExplorationModel.deleted item = false →
  get_exploration_from_model item = inr exp →
  get_all_html_content_strings exp = inr html_list →
  validate_customization_args html_list = inr err_dict →
  (key, errs) ∈ err_dict →
  contains "loading exploration" key = false →
  literal_eval value =
    inr (PList (PStr <$> errs ++ ["Exp ID: " +:+ ExplorationModel.id item])) →
  (key, PList (PStr <$> errs ++ ["Exp ID: " +:+ ExplorationModel.id item]))
    ∈ yielded (RTECustomizationArgsValidationOneOffJob.map item w)
  ∧ (∀ err, errs = [err] →
       RTECustomizationArgsValidationOneOffJob.reduce key [value] w' =
       Outcome (Returned tt)
         [(key, PList [PTuple [PStr ("Exp ID: " +:+ ExplorationModel.id item); PStr err]])]
         w')
  ∧ (Nat.Even (length errs) →
       RTECustomizationArgsValidationOneOffJob.reduce key [value] w' =
       Outcome (Raised (Exn IndexError "list index out of range")) [] w').
Proof.
  intros Hdel Hload Hhtml Herr Hin Hkey Hvalue.
  rewrite (rte_customization_map_run item w exp html_list err_dict) by done.
  cbn [yielded].
  assert (Hred : ∀ k : list (list pyval) → gen unit,
    bind (list_comp (fun value => call (literal_eval value)) [value])
      (fun final_values =>
         bind (list_comp (fun sublist => call (py_iter sublist)) final_values) k) w'
    = k [PStr <$> errs ++ ["Exp ID: " +:+ ExplorationModel.id item]] w').
  { intros k. apply rte_reduce_decoded. by repeat constructor. }
  unfold RTECustomizationArgsValidationOneOffJob.reduce. rewrite Hred, Hkey.
  cbn [concat]. rewrite app_nil_r.
  rewrite (bind_silent _ _ _ (pair_up_run _)).
  split_and!.
  - by apply (list_elem_of_fmap_2 (customization_record (ExplorationModel.id item))
                err_dict (key, errs)).
  - intros err ->. cbn [app fmap list_fmap pair_up_result].
    rewrite (bind_silent _ _ _
               (sort_pairs_strings [("Exp ID: " +:+ ExplorationModel.id item, err)])).
    reflexivity.
  - intros Heven.
    destruct (pair_up_result_parity
                (length (PStr <$> errs ++ ["Exp ID: " +:+ ExplorationModel.id item]))
                (PStr <$> errs ++ ["Exp ID: " +:+ ExplorationModel.id item]) []
                ltac:(lia)) as [_ Hodd].
    rewrite Hodd; [done |].
    rewrite length_fmap, length_app. cbn [length].
    destruct Heven as [n Hn]. exists n. lia.
Qed.

Lemma customization_error_round_trip_witness :
  ("Invalid URL", PList [PStr "<a>"; PStr "Exp ID: expa"])
    ∈ yielded (@RTECustomizationArgsValidationOneOffJob.map Sampled.host (Sampled.item 2)
                 (Demo.world_of Demo.empty_store))
  ∧ @RTECustomizationArgsValidationOneOffJob.reduce Sampled.host "Invalid URL"
      ["['<a>', 'Exp ID: expa']"] (Demo.world_of Demo.empty_store) =
    Outcome (Returned tt)
      [("Invalid URL", PList [PTuple [PStr "Exp ID: expa"; PStr "<a>"]])]
      (Demo.world_of Demo.empty_store).
Proof.
  destruct (@customization_error_round_trip Sampled.host (Sampled.item 2)
              (Demo.world_of Demo.empty_store) (Demo.world_of Demo.empty_store)
              (Sampled.item 2) ["<p>"] [("Invalid URL", ["<a>"])]
              "Invalid URL" "['<a>', 'Exp ID: expa']" ["<a>"]
              eq_refl eq_refl eq_refl eq_refl
              ltac:(apply list_elem_of_here) eq_refl eq_refl)
    as (Hin & Hone & _).
  split; [exact Hin | exact (Hone "<a>" eq_refl)].
Defined.

(** X12. An exploration that cannot be loaded is reported by
    [RTECustomizationArgsValidationOneOffJob.map] under the key
    ['Error <message> when loading exploration'] with the list of its id, and
    [reduce] recognises every such key, whatever the message: for values that
    decode to such one-id lists it yields the list of the ids as they come,
    neither paired nor sorted. *)
Theorem load_failures_collected `{Host} (item : ExplorationModel.t) (w w' : world)
    (e : exn) (values : list string) (ids : list string) :
  ExplorationModel.deleted item = false →
  get_exploration_from_model item = inl e →
  Forall2 (fun value id => literal_eval value = inr (PList [PStr id])) values ids →
  RTECustomizationArgsValidationOneOffJob.map item w =
    Outcome (Returned tt)
      [(load_failure_key e, PList [PStr (ExplorationModel.id item)])] w
  ∧ RTECustomizationArgsValidationOneOffJob.reduce (load_failure_key e) values w' =
    Outcome (Returned tt) [(load_failure_key e, PList (PStr <$> ids))] w'.
Proof.
  intros Hdel Hload Hdec. split.
  - unfold RTECustomizationArgsValidationOneOffJob.map. rewrite Hdel.
    rewrite (bind_returned _ _ w w None
               [(load_failure_key e, PList [PStr (ExplorationModel.id item)])]).
    + done.
    + rewrite (try_except_raised _ _ w w e); [| by rewrite Hload].
      unfold bind, yield, ret. cbn [res yielded after app]. by destruct w.
  - unfold RTECustomizationArgsValidationOneOffJob.reduce.
    rewrite (rte_reduce_decoded values ((fun id => [PStr id]) <$> ids)).
    + rewrite load_failure_key_recognised. unfold yield. do 4 f_equal.
      clear. induction ids as [| id ids IH]; [done |]. cbn. by rewrite IH.
    + by apply Forall2_fmap_r.
Qed.

Lemma load_failures_collected_witness :
  @RTECustomizationArgsValidationOneOffJob.map Demo.host (Demo.item "broken" 3 43 false)
    (Demo.world_of Demo.empty_store) =
    Outcome (Returned tt)
      [("Error cannot load when loading exploration", PList [PStr "exp1"])]
      (Demo.world_of Demo.empty_store)
  ∧ @RTECustomizationArgsValidationOneOffJob.reduce Demo.host
      "Error cannot load when loading exploration" ["['exp1']"; "['exp1']"]
      (Demo.world_of Demo.empty_store) =
    Outcome (Returned tt)
      [("Error cannot load when loading exploration", PList [PStr "exp1"; PStr "exp1"])]
      (Demo.world_of Demo.empty_store).
Proof.
  apply (@load_failures_collected Demo.host (Demo.item "broken" 3 43 false)
           (Demo.world_of Demo.empty_store) (Demo.world_of Demo.empty_store)
           (Exn OtherException "cannot load") ["['exp1']"; "['exp1']"] ["exp1"; "exp1"]
           eq_refl eq_refl).
  by repeat constructor.
Defined.

(** *** ExplorationRteMathContentValidationOneOffJob: from map to reduce *)

Lemma scan_states_run `{Host} (items : list (string * state))
    (named_errors : list (string * list pyval)) :
  Forall2 state_errors items named_errors →
  ∀ acc w,
    ExplorationRteMathContentValidationOneOffJob.scan_states items acc w =
    Outcome (Returned (acc ++ invalid_states named_errors)) [] w.
Proof.
  induction 1 as [| [state_name st] [name errs] items named_errors Hst _ IH]; intros acc w.
  - cbn. by rewrite app_nil_r.
  - destruct Hst as (Hname & strings & Hstrings & Herrs). cbn in Hname, Hstrings, Herrs.
    subst name.
    cbn [ExplorationRteMathContentValidationOneOffJob.scan_states].
    rewrite Hstrings, bind_call_inr, Herrs, bind_call_inr.
    unfold invalid_states. cbn [List.filter]. unfold has_errors at 1. cbn [snd].
    destruct errs as [| err errs].
    + cbn [length Z.of_nat Z.ltb Z.compare]. apply IH.
    + replace (0 <? Z.of_nat (length (err :: errs))) with true
        by (symmetry; apply Z.ltb_lt; cbn [length]; lia).
      rewrite IH. cbn [fmap list_fmap fst snd]. by rewrite <- app_assoc.
Qed.

(** X13. [ExplorationRteMathContentValidationOneOffJob.map] on an exploration
    that is not deleted and loads, each of whose states can be checked:
    it yields nothing when no state has an error, and otherwise the one
    record [('Found invalid tags', (item.id, records))] where [records] lists,
    in the order of the states, exactly the states with at least one error,
    each with its name, its errors and their number. It leaves the world as
    it was. *)
Theorem rte_math_map_reports_invalid_states `{Host} (item : ExplorationModel.t) (w : world)
    (exp : exploration) (named_errors : list (string * list pyval)) :
  ExplorationModel.deleted item = false →
  get_exploration_from_model item = inr exp →
  Forall2 state_errors (states_items exp) named_errors →
  ExplorationRteMathContentValidationOneOffJob.map item w =
  Outcome (Returned tt)
    (if forallb (fun p => negb (has_errors p)) named_errors then []
     else [("Found invalid tags",
            PTuple [PStr (ExplorationModel.id item); PList (invalid_states named_errors)])])
    w.
Proof.
  intros Hdel Hload Hstates.
  unfold ExplorationRteMathContentValidationOneOffJob.map.
  rewrite Hdel, Hload, bind_call_inr.
  rewrite (bind_run _ _ _ _ _ (scan_states_run _ _ Hstates [] w)).
  cbn [app].
  assert (Hempty : invalid_states named_errors = []
                   ↔ forallb (fun p => negb (has_errors p)) named_errors = true).
  { unfold invalid_states. clear.
    induction named_errors as [| p l IH]; [done |].
    cbn [List.filter forallb]. destruct (has_errors p); cbn; [by split | exact IH]. }
  destruct (invalid_states named_errors) as [| info infos] eqn:Hinfos.
  - by rewrite (proj1 Hempty eq_refl).
  - destruct (forallb _ named_errors); [discriminate (proj2 Hempty eq_refl) |].
    replace (0 <? Z.of_nat (length (info :: infos))) with true
      by (symmetry; apply Z.ltb_lt; cbn [length]; lia).
    reflexivity.
Qed.

Lemma rte_math_map_reports_invalid_states_witness :
  @ExplorationRteMathContentValidationOneOffJob.map Sampled.host (Sampled.item 2)
    (Demo.world_of Demo.empty_store) =
  Outcome (Returned tt)
    [("Found invalid tags",
      PTuple [PStr "expa"; PList [state_record "Intro" [PStr "bad tag"]]])]
    (Demo.world_of Demo.empty_store).
Proof.
  apply (@rte_math_map_reports_invalid_states Sampled.host (Sampled.item 2)
           (Demo.world_of Demo.empty_store) (Sampled.item 2) Sampled.named_errors
           eq_refl eq_refl).
  constructor; [| constructor; [| constructor]];
    (split; [reflexivity | eexists; split; reflexivity]).
Defined.

Lemma dict_lookup_set (d : list (pyval * pyval)) (k v : pyval) :
  key_eqb k k = true → dict_lookup (dict_set d k v) k = Some v.
Proof.
  intros Hk. induction d as [| [k' v'] d IH]; cbn [dict_set dict_lookup].
  - by rewrite Hk.
  - destruct (key_eqb k' k) eqn:Hk'; cbn [dict_lookup]; by rewrite Hk'.
Qed.

Lemma dict_set_set (d : list (pyval * pyval)) (k a b : pyval) :
  key_eqb k k = true → dict_set (dict_set d k a) k b = dict_set d k b.
Proof.
  intros Hk. induction d as [| [k' v'] d IH]; cbn [dict_set].
  - by rewrite Hk.
  - destruct (key_eqb k' k) eqn:Hk'; cbn [dict_set]; rewrite Hk'; [done | by rewrite IH].
Qed.

Lemma dict_set_same (d : list (pyval * pyval)) (k v : pyval) :
  dict_lookup d k = Some v → dict_set d k v = d.
Proof.
  induction d as [| [k' v'] d IH]; cbn [dict_set dict_lookup]; [done |].
  destruct (key_eqb k' k); [by intros [= ->] | intros Hd; by rewrite IH].
Qed.

Lemma count_of_Some (value : pyval) (c : Z) :
  count_of value = Some c →
  getitem_str value "no_of_invalid_tags" = inr (PInt c)
  ∧ delitem_str value "no_of_invalid_tags" = inr (without_count value).
Proof.
  destruct value as [| | | | | d]; try done. cbn.
  destruct (dict_lookup d (PStr "no_of_invalid_tags")) as [[] |]; try done.
  by intros [= ->].
Qed.

Lemma collect_tags_run (exp_id : pyval) (values : list pyval) :
  key_eqb exp_id exp_id = true →
  Forall (fun value => is_Some (count_of value)) values →
  ∀ n info l w,
    dict_lookup info exp_id = Some (PList l) →
    ExplorationRteMathContentValidationOneOffJob.collect_tags values exp_id n info w =
    Outcome
      (Returned (n + sum_counts values,
                 dict_set info exp_id (PList (l ++ (without_count <$> values))))) [] w.
Proof.
  intros Hk. induction 1 as [| value values [c Hc] _ IH]; intros n info l w Hl.
  - cbn. rewrite app_nil_r, Z.add_0_r. by rewrite dict_set_same.
  - cbn [ExplorationRteMathContentValidationOneOffJob.collect_tags].
    destruct (count_of_Some value c Hc) as [Hget Hdel].
    rewrite Hget, bind_call_inr. cbn [add_int]. rewrite bind_call_inr.
    rewrite Hdel, bind_call_inr.
    unfold ExplorationRteMathContentValidationOneOffJob.dict_append. rewrite Hl.
    rewrite bind_call_inr.
    rewrite (IH _ _ (l ++ [without_count value])) by (by apply dict_lookup_set).
    rewrite dict_set_set by done.
    cbn [sum_counts foldr fmap list_fmap]. rewrite Hc. cbn [default].
    rewrite <- app_assoc. do 3 f_equal. unfold sum_counts, id. lia.
Qed.

Lemma collect_exps_run (decoded : list (string * list pyval)) :
  Forall (fun p => Forall (fun value => is_Some (count_of value)) p.2) decoded →
  ∀ n info w,
    ExplorationRteMathContentValidationOneOffJob.collect_exps
      ((fun p => PTuple [PStr p.1; PList p.2]) <$> decoded) n info w =
    Outcome
      (Returned (n + total_invalid_tags decoded,
                 foldl (fun d p => dict_set d (PStr p.1) (PList (without_count <$> p.2)))
                   info decoded)) [] w.
Proof.
  induction 1 as [| [id values] decoded Hvalues _ IH]; intros n info w.
  - cbn. by rewrite Z.add_0_r.
  - cbn [fmap list_fmap ExplorationRteMathContentValidationOneOffJob.collect_exps fst snd].
    assert (Hk : key_eqb (PStr id) (PStr id) = true) by apply String.eqb_refl.
    cbn [unpack2 py_iter]. rewrite bind_call_inr. cbn [fst snd].
    unfold ExplorationRteMathContentValidationOneOffJob.dict_setitem.
    cbn [hashable]. rewrite bind_call_inr. cbn [py_iter]. rewrite bind_call_inr.
    rewrite (bind_run _ _ _ _ _
               (collect_tags_run (PStr id) values Hk Hvalues n _ [] w
                  (dict_lookup_set info (PStr id) (PList []) Hk))).
    cbn [fst snd app]. rewrite dict_set_set by done. rewrite IH.
    cbn [total_invalid_tags foldr foldl fst snd]. fold (total_invalid_tags decoded).
    do 3 f_equal. lia.
Qed.

(** X14. [ExplorationRteMathContentValidationOneOffJob.reduce], on values that
    decode to pairs [(exp_id, records)] whose records each carry an integer
    ['no_of_invalid_tags'], returns and yields two lines: the overall result,
    with the number of values and the sum of all the counts, and the detailed
    information, a dictionary from each exploration id to its records
    without their counts (the records of the last value of an id, at the
    place of its first). *)
Theorem rte_math_reduce_totals `{Host} (key : string) (values : list string)
    (decoded : list (string * list pyval)) (w : world) :
  Forall2 (fun value p => literal_eval value = inr (PTuple [PStr p.1; PList p.2]))
    values decoded →
  Forall (fun p => Forall (fun value => is_Some (count_of value)) p.2) decoded →
  ExplorationRteMathContentValidationOneOffJob.reduce key values w =
  Outcome (Returned tt)
    [ ("Overall result.",
       PDict [ (PStr "no_of_explorations_with_no_svgs", PInt (Z.of_nat (length values)));
               (PStr "no_of_invalid_tags", PInt (total_invalid_tags decoded)) ]);
      ("Detailed information on invalid tags.", PDict (detailed_info decoded)) ]
    w.
Proof.
  intros Hdec Hcounts.
  unfold ExplorationRteMathContentValidationOneOffJob.reduce.
  rewrite (bind_silent _ _
             (Returned ((fun p => PTuple [PStr p.1; PList p.2]) <$> decoded))); cycle 1.
  { apply list_comp_call. by apply Forall2_fmap_r. }
  rewrite (bind_run _ _ _ _ _ (collect_exps_run decoded Hcounts 0 [] w)).
  cbn [fst snd]. rewrite length_fmap, Z.add_0_l.
  by rewrite (Forall2_length _ _ _ Hdec).
Qed.

Lemma rte_math_reduce_totals_witness :
  @ExplorationRteMathContentValidationOneOffJob.reduce Sampled.host "Found invalid tags"
    ["('expa', [{'state_name': 'Intro', 'error_list': ['bad tag'], 'no_of_invalid_tags': 1}])"]
    (Demo.world_of Demo.empty_store) =
  Outcome (Returned tt)
    [ ("Overall result.",
       PDict [ (PStr "no_of_explorations_with_no_svgs", PInt 1);
               (PStr "no_of_invalid_tags", PInt 1) ]);
      ("Detailed information on invalid tags.",
       PDict [ (PStr "expa",
                PList [PDict [ (PStr "state_name", PStr "Intro");
                               (PStr "error_list", PList [PStr "bad tag"]) ]]) ]) ]
    (Demo.world_of Demo.empty_store).
Proof.
  apply (@rte_math_reduce_totals Sampled.host "Found invalid tags"
           ["('expa', [{'state_name': 'Intro', 'error_list': ['bad tag'], 'no_of_invalid_tags': 1}])"]
           [("expa", invalid_states Sampled.named_errors)]
           (Demo.world_of Demo.empty_store)).
  - by repeat constructor.
  - repeat constructor. by eexists.
Defined.

Lemma sum_counts_cons (value : pyval) (values : list pyval) :
  sum_counts (value :: values) = default 0 (count_of value) + sum_counts values.
Proof. reflexivity. Qed.

Lemma invalid_states_cons (name : string) (errs : list pyval)
    (named_errors : list (string * list pyval)) :
  invalid_states ((name, errs) :: named_errors) =
  match errs with
  | [] => invalid_states named_errors
  | _ => state_record name errs :: invalid_states named_errors
  end.
Proof. by destruct errs. Qed.

Lemma invalid_states_counts (named_errors : list (string * list pyval)) :
  Forall (fun value => is_Some (count_of value)) (invalid_states named_errors)
  ∧ sum_counts (invalid_states named_errors) = Z.of_nat (length (concat named_errors.*2)).
Proof.
  induction named_errors as [| [name errs] l [IH1 IH2]]; [done |].
  rewrite invalid_states_cons. cbn [fmap list_fmap concat snd].
  destruct errs as [| err errs]; [done |].
  split.
  - apply Forall_cons. split; [by eexists | exact IH1].
  - rewrite sum_counts_cons, IH2.
    change (count_of (state_record name (err :: errs)))
      with (Some (Z.of_nat (length (err :: errs)))).
    cbn [default]. unfold id. rewrite length_app. lia.
Qed.

(** X15. From [map] to [reduce] in
    [ExplorationRteMathContentValidationOneOffJob]: when the values decode to
    what [map] yields for explorations with the given errors per state, the
    overall ['no_of_invalid_tags'] is the number of errors found in all the
    states of all these explorations, and the number of explorations is the
    number of values. *)
Theorem rte_math_total_counts_every_error `{Host} (key : string) (values : list string)
    (runs : list (string * list (string * list pyval))) (w : world) :
  Forall2 (fun value run => literal_eval value = inr (invalid_tags_value run)) values runs →
  ∃ invalid_tags_info,
    ExplorationRteMathContentValidationOneOffJob.reduce key values w =
    Outcome (Returned tt)
      [ ("Overall result.",
         PDict [ (PStr "no_of_explorations_with_no_svgs", PInt (Z.of_nat (length runs)));
                 (PStr "no_of_invalid_tags", PInt (errors_found runs)) ]);
        ("Detailed information on invalid tags.", PDict invalid_tags_info) ]
      w.
Proof.
  intros Hdec.
  set (decoded := (fun run : string * list (string * list pyval) =>
                     (run.1, invalid_states run.2)) <$> runs).
  assert (Hcounts :
    Forall (fun p : string * list pyval =>
              Forall (fun value => is_Some (count_of value)) p.2) decoded).
  { apply Forall_fmap, Forall_true. intros run. apply invalid_states_counts. }
  assert (Htotal : total_invalid_tags decoded = errors_found runs).
  { subst decoded. clear. induction runs as [| run runs IH]; [done |].
    cbn [fmap list_fmap total_invalid_tags errors_found foldr fst snd].
    fold (total_invalid_tags
            ((fun run : string * list (string * list pyval) =>
                (run.1, invalid_states run.2)) <$> runs)).
    fold (errors_found runs).
    by rewrite IH, (proj2 (invalid_states_counts _)). }
  exists (detailed_info decoded).
  unfold ExplorationRteMathContentValidationOneOffJob.reduce.
  rewrite (bind_silent _ _
             (Returned ((fun p => PTuple [PStr p.1; PList p.2]) <$> decoded))); cycle 1.
  { apply list_comp_call. subst decoded. rewrite <- list_fmap_compose.
    by apply Forall2_fmap_r. }
  rewrite (bind_run _ _ _ _ _ (collect_exps_run decoded Hcounts 0 [] w)).
  cbn [fst snd]. subst decoded. rewrite !length_fmap, Z.add_0_l.
  by rewrite Htotal.
Qed.

Lemma rte_math_total_counts_every_error_witness :
  ∃ invalid_tags_info,
    @ExplorationRteMathContentValidationOneOffJob.reduce Sampled.host "Found invalid tags"
      ["('expa', [{'state_name': 'Intro', 'error_list': ['bad tag'], 'no_of_invalid_tags': 1}])"]
      (Demo.world_of Demo.empty_store) =
    Outcome (Returned tt)
      [ ("Overall result.",
         PDict [ (PStr "no_of_explorations_with_no_svgs", PInt 1);
                 (PStr "no_of_invalid_tags", PInt 1) ]);
        ("Detailed information on invalid tags.", PDict invalid_tags_info) ]
      (Demo.world_of Demo.empty_store).
Proof.
  apply (@rte_math_total_counts_every_error Sampled.host "Found invalid tags"
           ["('expa', [{'state_name': 'Intro', 'error_list': ['bad tag'], 'no_of_invalid_tags': 1}])"]
           [("expa", Sampled.named_errors)]
           (Demo.world_of Demo.empty_store)).
  by repeat constructor.
Defined.

(** *** RegenerateMissingExpCommitLogModels.map: when it returns, where it stops *)

(** An iteration for a version whose entry is missing ends as the
    regeneration of that entry does. *)
Lemma regenerate_if_missing_res `{Host} (item : ExplorationModel.t) (version : Z)
    (w : world) :
  entry_missing (datastore w) (ExplorationModel.id item) version = true →
  res (regenerate_if_missing item version w) =
  match res (regenerate_exp_commit_log_model item version (World (datastore w) [] [])) with
  | Returned _ => Returned tt
  | Raised e => Raised e
  | Unmodelled => Unmodelled
  end.
Proof.
  intros Hm. unfold entry_missing, commit_log_key in Hm.
  unfold regenerate_if_missing.
  set (key := "exploration-" +:+ ExplorationModel.id item +:+ "-" +:+ str_of_int version) in *.
  set (w1 := World (datastore w)
               (ds_trace w ++ [DsGet "ExplorationCommitLogEntryModel" key]) (logged w)).
  rewrite (bind_run _ _ w w1 (commit_log_entries (datastore w) !! key)); cycle 1.
  { unfold CommitLogEntry_get_by_id. by rewrite bind_trace, bind_get_store. }
  destruct (commit_log_entries (datastore w) !! key); [discriminate Hm |].
  rewrite res_bind.
  rewrite (regenerate_res_same item version w1 (World (datastore w) [] [])) by done.
  destruct (res (regenerate_exp_commit_log_model item version (World (datastore w) [] [])));
    [| done | done].
  rewrite res_bind, CommitLogEntry_put_run. reflexivity.
Qed.

(** The loop returns exactly when every version whose entry is missing at the
    start can be regenerated from the datastore as it is at the start. *)
Lemma regenerate_loop_returns_iff `{Host} (item : ExplorationModel.t) (versions : list Z) :
  ∀ w,
    NoDup versions →
    res (for_each versions (regenerate_if_missing item) w) = Returned tt
    ↔ ∀ v, v ∈ versions →
        entry_missing (datastore w) (ExplorationModel.id item) v = true →
        ∃ m, res (regenerate_exp_commit_log_model item v (World (datastore w) [] []))
             = Returned m.
Proof.
  induction versions as [| x rest IH]; intros w Hnd.
  { split; [by intros _ v ?%elem_of_nil | done]. }
  apply NoDup_cons in Hnd as [Hx Hnd].
  cbn [for_each]. rewrite res_bind.
  pose proof (regenerate_if_missing_keeps_rights_and_metadata item x w) as Hsame.
  destruct (entry_missing (datastore w) (ExplorationModel.id item) x) eqn:Hmx.
  - pose proof (regenerate_if_missing_res item x w Hmx) as Hres.
    destruct (res (regenerate_exp_commit_log_model item x (World (datastore w) [] [])))
      as [m | e |] eqn:Hreg.
    + rewrite Hres, IH by done.
      destruct (regenerate_if_missing_returned item x w Hres) as (_ & _ & Hother).
      assert (Hmiss : ∀ v, v ∈ rest →
                entry_missing (datastore (after (regenerate_if_missing item x w)))
                  (ExplorationModel.id item) v =
                entry_missing (datastore w) (ExplorationModel.id item) v).
      { intros v Hin. unfold entry_missing. rewrite Hother; [done |].
        intros Heq%commit_log_key_inj. by subst. }
      split.
      * intros Hall v [-> | Hin]%elem_of_cons Hmv; [by exists m |].
        destruct (Hall v Hin) as [m' Hm']; [by rewrite Hmiss |].
        exists m'. rewrite <- Hm'. by apply regenerate_res_same.
      * intros Hall v Hin Hmv. rewrite Hmiss in Hmv by done.
        destruct (Hall v ltac:(by right) Hmv) as [m' Hm'].
        exists m'. rewrite <- Hm'. apply regenerate_res_same. cbn [datastore].
        by apply same_rights_and_metadata_sym.
    + rewrite Hres. split; [done |]. intros Hall.
      destruct (Hall x ltac:(by left) Hmx) as [m Hm]. rewrite Hreg in Hm. discriminate Hm.
    + rewrite Hres. split; [done |]. intros Hall.
      destruct (Hall x ltac:(by left) Hmx) as [m Hm]. rewrite Hreg in Hm. discriminate Hm.
  - destruct (regenerate_if_missing_cases item x w)
      as [[_ Hrun] | [[Hm _] | [Hm _]]]; [| congruence | congruence].
    rewrite Hrun. cbn [res after]. rewrite IH by done. cbn [datastore].
    split.
    + intros Hall v [-> | Hin]%elem_of_cons Hmv; [congruence | by apply Hall].
    + intros Hall v Hin Hmv. apply Hall; [by right | done].
Qed.

Lemma regenerate_without_metadata `{Host} (exp_model : ExplorationModel.t) (version : Z)
    (w : world) :
  is_Some (rights_models (datastore w) !! (ExplorationModel.id exp_model, 1)) →
  snapshot_metadata (datastore w)
    !! (ExplorationModel.id exp_model +:+ "-" +:+ str_of_int version) = None →
  ∃ e, res (regenerate_exp_commit_log_model exp_model version w) = Raised e
       ∧ exn_cls e = AttributeError.
Proof.
  set (id := ExplorationModel.id exp_model).
  intros [r1 Hr1] Hnone. unfold regenerate_exp_commit_log_model. fold id.
  set (w1 := World (datastore w)
               (ds_trace w ++
                [DsGet "ExplorationSnapshotMetadataModel"
                   (id +:+ "-" +:+ str_of_int version)])
               (logged w)).
  set (w2 := World (datastore w) (ds_trace w1 ++ [rights_get_op id 1]) (logged w)).
  rewrite (bind_run _ _ w w1 None); cycle 1.
  { unfold SnapshotMetadata_get_by_id. rewrite bind_trace, bind_get_store.
    cbn [datastore]. by rewrite Hnone. }
  rewrite (bind_run _ _ w1 w2 (Some r1)); cycle 1.
  { rewrite Rights_get_run by (right; cbn [datastore w1]; by rewrite Hr1).
    cbn [datastore w1]. by rewrite Hr1. }
  rewrite res_bind.
  destruct (latest_rights_before_no_metadata id (RANGE 2 (version + 1)) (Some r1) w2)
    as [_ [Hret | (e & Hraise & Hcls)]].
  - rewrite Hret. cbn [attr]. rewrite bind_call_inl. cbn [res]. by eexists.
  - rewrite Hraise. by exists e.
Qed.

(** The regeneration returns exactly when the snapshot metadata model of the
    commit and the rights model of version 1 exist. *)
Lemma regenerate_returns_when `{Host} (exp_model : ExplorationModel.t) (version : Z)
    (w : world) :
  (∃ m, res (regenerate_exp_commit_log_model exp_model version w) = Returned m)
  ↔ is_Some (snapshot_metadata (datastore w)
               !! (ExplorationModel.id exp_model +:+ "-" +:+ str_of_int version))
    ∧ is_Some (rights_models (datastore w) !! (ExplorationModel.id exp_model, 1)).
Proof.
  split.
  - intros [m Hm].
    destruct (rights_models (datastore w) !! (ExplorationModel.id exp_model, 1))
      as [r1 |] eqn:Hr1; cycle 1.
    { rewrite (regenerate_without_rights1 exp_model version w Hr1) in Hm. discriminate Hm. }
    destruct (snapshot_metadata (datastore w)
                !! (ExplorationModel.id exp_model +:+ "-" +:+ str_of_int version))
      as [meta |] eqn:Hmeta; [by split; eexists |].
    destruct (regenerate_without_metadata exp_model version w) as (e & He & _);
      [by rewrite Hr1; eexists | done |].
    rewrite He in Hm. discriminate Hm.
  - intros [[meta Hmeta] [r1 Hr1]].
    destruct (regenerate_run exp_model version w meta r1 Hmeta Hr1)
      as (v & r & tr & _ & Hrun).
    rewrite Hrun. by eexists.
Qed.

(** X9. [RegenerateMissingExpCommitLogModels.map], run on an exploration that
    is not deleted, returns exactly when every version from 1 to
    [item.version] that has no commit log entry can be regenerated from the
    datastore as it is: the snapshot metadata model of that version and the
    rights model of version 1 of the exploration exist. *)
Theorem regenerate_missing_returns_iff `{Host} (item : ExplorationModel.t) (w : world) :
  ExplorationModel.deleted item = false →
  res (RegenerateMissingExpCommitLogModels.map item w) = Returned tt
  ↔ ∀ v, 1 ≤ v ≤ ExplorationModel.version item →
      entry_missing (datastore w) (ExplorationModel.id item) v = true →
      is_Some (snapshot_metadata (datastore w)
                 !! (ExplorationModel.id item +:+ "-" +:+ str_of_int v))
      ∧ is_Some (rights_models (datastore w) !! (ExplorationModel.id item, 1)).
Proof.
  intros Hdel. rewrite regenerate_missing_map_unfold, Hdel.
  rewrite regenerate_loop_returns_iff by apply NoDup_seqZ.
  unfold RANGE.
  split; intros Hall v Hv Hmv.
  - apply (regenerate_returns_when item v (World (datastore w) [] [])).
    apply Hall; [apply elem_of_seqZ; lia | done].
  - apply (regenerate_returns_when item v (World (datastore w) [] [])).
    apply elem_of_seqZ in Hv. apply Hall; [lia | done].
Qed.

Lemma regenerate_missing_returns_iff_witness :
  res (@RegenerateMissingExpCommitLogModels.map Demo.host (Sampled.item 2)
         (Demo.world_of Sampled.gap_store)) = Returned tt
  ↔ ∀ v, 1 ≤ v ≤ ExplorationModel.version (Sampled.item 2) →
      entry_missing (datastore (Demo.world_of Sampled.gap_store))
        (ExplorationModel.id (Sampled.item 2)) v = true →
      is_Some (snapshot_metadata (datastore (Demo.world_of Sampled.gap_store))
                 !! (ExplorationModel.id (Sampled.item 2) +:+ "-" +:+ str_of_int v))
      ∧ is_Some (rights_models (datastore (Demo.world_of Sampled.gap_store))
                   !! (ExplorationModel.id (Sampled.item 2), 1)).
Proof.
  apply (@regenerate_missing_returns_iff Demo.host (Sampled.item 2)
           (Demo.world_of Sampled.gap_store) eq_refl).
Defined.

Lemma for_each_app_run {A} (l1 l2 : list A) (body : A -> gen unit) :
  ∀ w, for_each (l1 ++ l2) body w =
       bind (for_each l1 body) (fun _ => for_each l2 body) w.
Proof.
  induction l1 as [| x l1 IH]; intros w.
  - cbn [app for_each]. by rewrite bind_ret.
  - cbn [app for_each]. unfold bind.
    destruct (res (body x w)) as [[] | e |]; cbn [res yielded after]; [| done | done].
    rewrite IH. unfold bind.
    destruct (res (for_each l1 body (after (body x w)))) as [[] | e |];
      cbn [res yielded after]; by rewrite ?app_assoc.
Qed.

(** An iteration whose regeneration raises: the iteration raises the same,
    yields nothing and writes nothing. *)
Lemma regenerate_if_missing_raised `{Host} (item : ExplorationModel.t) (version : Z)
    (w : world) (e : exn) :
  entry_missing (datastore w) (ExplorationModel.id item) version = true →
  res (regenerate_exp_commit_log_model item version w) = Raised e →
  res (regenerate_if_missing item version w) = Raised e
  ∧ yielded (regenerate_if_missing item version w) = []
  ∧ datastore (after (regenerate_if_missing item version w)) = datastore w.
Proof.
  intros Hm Hreg.
  pose proof (regenerate_if_missing_res item version w Hm) as Hres.
  rewrite (regenerate_res_same item version (World (datastore w) [] []) w) in Hres by done.
  rewrite Hreg in Hres. split; [done |].
  destruct (regenerate_if_missing_cases item version w)
    as [[Hm' _] | [[_ (m & tr & _ & Hrun)] | (_ & _ & Hy & Hs)]]; [congruence | | done].
  rewrite Hrun in Hres. discriminate Hres.
Qed.

(** X10. A failure does not undo what [RegenerateMissingExpCommitLogModels.map]
    has written. Let [v] be a version without commit log entry whose
    regeneration raises [e], every missing version below [v] being
    regenerable. Then the job raises [e]; it has yielded the records of the
    missing versions below [v], in order, and their entries are in the
    datastore it leaves; the entries of the versions from [v] on are as they
    were (no entry was written for them). *)
Theorem regenerate_missing_stops_at_first_failure `{Host} (item : ExplorationModel.t)
    (w : world) (v : Z) (e : exn) :
  ExplorationModel.deleted item = false →
  1 ≤ v ≤ ExplorationModel.version item →
  entry_missing (datastore w) (ExplorationModel.id item) v = true →
  res (regenerate_exp_commit_log_model item v w) = Raised e →
  (∀ u, 1 ≤ u < v →
     entry_missing (datastore w) (ExplorationModel.id item) u = true →
     ∃ m, res (regenerate_exp_commit_log_model item u w) = Returned m) →
  res (RegenerateMissingExpCommitLogModels.map item w) = Raised e
  ∧ yielded (RegenerateMissingExpCommitLogModels.map item w) =
      regenerated_record (ExplorationModel.id item)
      <$> List.filter (entry_missing (datastore w) (ExplorationModel.id item)) (RANGE 1 v)
  ∧ (∀ u, 1 ≤ u < v →
       entry_missing (datastore (after (RegenerateMissingExpCommitLogModels.map item w)))
         (ExplorationModel.id item) u = false)
  ∧ (∀ u, v ≤ u →
       commit_log_entries (datastore (after (RegenerateMissingExpCommitLogModels.map item w)))
         !! commit_log_key (ExplorationModel.id item) u =
       commit_log_entries (datastore w) !! commit_log_key (ExplorationModel.id item) u).
Proof.
  intros Hdel Hv Hmv Hfail Hbelow.
  rewrite regenerate_missing_map_unfold, Hdel.
  assert (Hsplit : RANGE 1 (ExplorationModel.version item + 1) =
                   RANGE 1 v ++ v :: RANGE (v + 1) (ExplorationModel.version item + 1)).
  { unfold RANGE.
    replace (ExplorationModel.version item + 1 - 1)
      with ((v - 1) + (ExplorationModel.version item + 1 - v)) by lia.
    rewrite seqZ_app by lia. f_equal.
    replace (1 + (v - 1)) with v by lia.
    rewrite seqZ_cons by lia. do 2 f_equal; lia. }
  rewrite Hsplit, for_each_app_run.
  assert (Hnd : NoDup (RANGE 1 v)) by apply NoDup_seqZ.
  assert (Hin : ∀ u, u ∈ RANGE 1 v ↔ 1 ≤ u < v).
  { intros u. unfold RANGE. rewrite elem_of_seqZ. lia. }
  assert (Hret : res (for_each (RANGE 1 v) (regenerate_if_missing item) w) = Returned tt).
  { apply regenerate_loop_returns_iff; [done |]. intros u Hu Hmu.
    destruct (Hbelow u ltac:(by apply Hin) Hmu) as [m Hm]. exists m.
    rewrite <- Hm. by apply regenerate_res_same. }
  destruct (regenerate_loop_returned item _ w Hnd Hret) as (Hy & Hthere & Hframe).
  destruct (regenerate_loop_only_adds item (RANGE 1 v) w) as (_ & Hr & Hmeta & _).
  set (w1 := after (for_each (RANGE 1 v) (regenerate_if_missing item) w)) in *.
  assert (Hkeep : ∀ u, v ≤ u →
            commit_log_entries (datastore w1) !! commit_log_key (ExplorationModel.id item) u =
            commit_log_entries (datastore w) !! commit_log_key (ExplorationModel.id item) u).
  { intros u Hu. apply Hframe. intros u' Hu'%Hin Heq%commit_log_key_inj. lia. }
  destruct (regenerate_if_missing_raised item v w1 e) as (Hres & Hyv & Hsv).
  { unfold entry_missing in *. by rewrite Hkeep by lia. }
  { rewrite <- Hfail. apply regenerate_res_same. by split. }
  assert (Hrun :
    bind (for_each (RANGE 1 v) (regenerate_if_missing item))
      (fun _ => for_each (v :: RANGE (v + 1) (ExplorationModel.version item + 1))
                  (regenerate_if_missing item)) w =
    Outcome (Raised e)
      (yielded (for_each (RANGE 1 v) (regenerate_if_missing item) w))
      (after (regenerate_if_missing item v w1))).
  { unfold bind at 1. rewrite Hret. fold w1. cbn [for_each].
    unfold bind. rewrite Hres. cbn [res yielded after].
    by rewrite Hyv, app_nil_r. }
  rewrite Hrun. cbn [res yielded after]. rewrite Hsv.
  split_and!; [done | done | |].
  - intros u Hu. apply Hthere. by apply Hin.
  - exact Hkeep.
Qed.

Lemma regenerate_missing_stops_at_first_failure_witness :
  res (@RegenerateMissingExpCommitLogModels.map Demo.host (Sampled.item 2)
         (Demo.world_of Sampled.gap_store)) =
    Raised (Exn AttributeError "'NoneType' object has no attribute 'committer_id'")
  ∧ yielded (@RegenerateMissingExpCommitLogModels.map Demo.host (Sampled.item 2)
               (Demo.world_of Sampled.gap_store)) =
    [ ("Regenerated Exploration Commit Log Model: version 1", PStr "expa") ].
Proof.
  destruct (@regenerate_missing_stops_at_first_failure Demo.host (Sampled.item 2)
              (Demo.world_of Sampled.gap_store) 2
              (Exn AttributeError "'NoneType' object has no attribute 'committer_id'")
              eq_refl ltac:(cbn; lia)
              ltac:(vm_compute; reflexivity) ltac:(vm_compute; reflexivity))
    as (Hres & Hy & _).
  - intros u Hu _. assert (u = 1) as -> by lia. eexists. vm_compute. reflexivity.
  - split; [exact Hres |]. rewrite Hy. vm_compute. reflexivity.
Defined.

(** *** What RegenerateMissingExpCommitLogModels.map stores *)

(** A missing version that the loop reaches is regenerated and stored, and
    its record is yielded, whatever happens at the versions after it. *)
Lemma regenerate_missing_puts `{Host} (item : ExplorationModel.t) (w : world) (v : Z) :
  ExplorationModel.deleted item = false →
  1 ≤ v ≤ ExplorationModel.version item →
  entry_missing (datastore w) (ExplorationModel.id item) v = true →
  is_Some (rights_models (datastore w) !! (ExplorationModel.id item, 1)) →
  (∀ u, 1 ≤ u ≤ v →
     entry_missing (datastore w) (ExplorationModel.id item) u = true →
     is_Some (snapshot_metadata (datastore w)
                !! (ExplorationModel.id item +:+ "-" +:+ str_of_int u))) →
  ∃ m,
    res (regenerate_exp_commit_log_model item v w) = Returned m
    ∧ commit_log_entries (datastore (after (RegenerateMissingExpCommitLogModels.map item w)))
        !! commit_log_key (ExplorationModel.id item) v = Some m
    ∧ regenerated_record (ExplorationModel.id item) v
        ∈ yielded (RegenerateMissingExpCommitLogModels.map item w).
Proof.
  intros Hdel Hv Hmv Hr1 Hmeta.
  rewrite regenerate_missing_map_unfold, Hdel.
  assert (Hsplit : RANGE 1 (ExplorationModel.version item + 1) =
                   RANGE 1 (v + 1) ++ RANGE (v + 1) (ExplorationModel.version item + 1)).
  { unfold RANGE.
    replace (ExplorationModel.version item + 1 - 1)
      with (v + (ExplorationModel.version item - v)) by lia.
    rewrite seqZ_app by lia. do 2 f_equal; lia. }
  rewrite Hsplit.
  set (rest := RANGE (v + 1) (ExplorationModel.version item + 1)).
  assert (Hnd : NoDup (RANGE 1 (v + 1))) by apply NoDup_seqZ.
  assert (Hin : ∀ u, u ∈ RANGE 1 (v + 1) ↔ 1 ≤ u ≤ v).
  { intros u. unfold RANGE. rewrite elem_of_seqZ. lia. }
  assert (Hret : res (for_each (RANGE 1 (v + 1)) (regenerate_if_missing item) w)
                 = Returned tt).
  { apply regenerate_loop_returns_iff; [done |]. intros u Hu%Hin Hmu.
    apply (regenerate_returns_when item u (World (datastore w) [] [])).
    by split; [apply Hmeta |]. }
  destruct (regenerate_loop_returned item _ w Hnd Hret) as (Hy & _ & _).
  destruct (regenerate_loop_entries item _ w Hnd Hret v ltac:(apply Hin; lia) Hmv)
    as (m & Hlook & Hreg).
  destruct (regenerate_returns_timestamps item v _ _ Hreg) as [Hc Hu].
  rewrite update_timestamps_set in Hlook by done.
  set (w1 := after (for_each (RANGE 1 (v + 1)) (regenerate_if_missing item) w)) in *.
  destruct (regenerate_loop_only_adds item rest w1) as (_ & _ & _ & Hsub).
  rewrite for_each_app_run. unfold bind. rewrite Hret. fold w1. cbn [res yielded after].
  exists m. split_and!.
  - rewrite <- Hreg. by apply regenerate_res_same.
  - by apply (lookup_weaken _ _ _ _ Hlook Hsub).
  - apply elem_of_app. left. rewrite Hy. apply list_elem_of_fmap_2.
    apply list_elem_of_In, List.filter_In. split; [| done].
    apply list_elem_of_In, Hin. lia.
Qed.

(** C2 (as the code has it). No [reduce] touches the datastore, and the [map]
    of every job but two leaves every persisted record unchanged.
    [RegenerateMissingExpCommitLogModels.map] persists entities: it changes
    or removes no entity that was there, and it puts a regenerated commit log
    entry for each version that has none. More precisely, when the rights
    model of version 1 exists, each version [v] without entry such that the
    missing versions up to [v] have their snapshot metadata gets, under its
    key, the entry that [regenerate_exp_commit_log_model] returns for it, and
    its record is yielded (the job stops at the first version it cannot
    regenerate). [ExplorationMigrationJobManager.map] leaves the datastore
    unchanged for an exploration already at the current states schema
    version; for one that is not, and that passes non-strict validation, it
    leaves the datastore as [exp_services.update_exploration] returns it. *)
Theorem jobs_datastore_effects `{Host} (j : job) (item : ExplorationModel.t)
    (key : string) (values : list string) (w : world) :
  after (job_reduce j key values w) = w
  ∧ (j ≠ JRegenerateMissingExpCommitLogModels →
     j ≠ JExplorationMigrationJobManager →
     datastore (after (job_map j item w)) = datastore w)
  ∧ only_adds_commit_log_entries (RegenerateMissingExpCommitLogModels.map item)
  ∧ (∀ v,
       ExplorationModel.deleted item = false →
       1 ≤ v ≤ ExplorationModel.version item →
       entry_missing (datastore w) (ExplorationModel.id item) v = true →
       is_Some (rights_models (datastore w) !! (ExplorationModel.id item, 1)) →
       (∀ u, 1 ≤ u ≤ v →
          entry_missing (datastore w) (ExplorationModel.id item) u = true →
          is_Some (snapshot_metadata (datastore w)
                     !! (ExplorationModel.id item +:+ "-" +:+ str_of_int u))) →
       ∃ m,
         res (regenerate_exp_commit_log_model item v w) = Returned m
         ∧ commit_log_entries
             (datastore (after (RegenerateMissingExpCommitLogModels.map item w)))
             !! ("exploration-" +:+ ExplorationModel.id item +:+ "-" +:+ str_of_int v)
           = Some m
         ∧ ("Regenerated Exploration Commit Log Model: version " +:+ str_of_int v,
            PStr (ExplorationModel.id item))
             ∈ yielded (RegenerateMissingExpCommitLogModels.map item w))
  ∧ (ExplorationModel.states_schema_version item = CURRENT_STATE_SCHEMA_VERSION →
     datastore (after (ExplorationMigrationJobManager.map item w)) = datastore w)
  ∧ (∀ old_exploration s',
       ExplorationModel.deleted item = false →
       get_exploration_by_id (datastore w) (ExplorationModel.id item) = inr old_exploration →
       validate old_exploration false = inr tt →
       ExplorationModel.states_schema_version item ≠ CURRENT_STATE_SCHEMA_VERSION →
       update_exploration (datastore w) MIGRATION_BOT_USERNAME (ExplorationModel.id item)
         (migration_commit_cmds item) (migration_commit_message item) = inr s' →
       datastore (after (ExplorationMigrationJobManager.map item w)) = s'
       ∧ yielded (ExplorationMigrationJobManager.map item w) =
         [("SUCCESS", PStr (ExplorationModel.id item))]).
Proof.
  split_and!.
  - destruct (world_independent_reduce j key values) as (r & ys & Hw). by rewrite Hw.
  - intros Hj1 Hj2. by apply read_only_job_map.
  - unfold RegenerateMissingExpCommitLogModels.map.
    destruct (ExplorationModel.deleted item).
    + by apply only_adds_read_only, read_only_ret.
    + apply only_adds_for_each. intros version. apply only_adds_regenerate_missing.
  - intros v Hdel Hv Hmv Hr1 Hmeta.
    exact (regenerate_missing_puts item w v Hdel Hv Hmv Hr1 Hmeta).
  - intros Hcur. revert w.
    change (read_only (ExplorationMigrationJobManager.map item)).
    unfold ExplorationMigrationJobManager.map. rewrite Hcur, Z.eqb_refl. simpl.
    read_only_steps.
  - intros old_exploration s' Hdel Hload Hval Hne Hupd.
    unfold ExplorationMigrationJobManager.map.
    rewrite Hdel, bind_trace, bind_get_store. cbn [datastore].
    rewrite Hload, bind_call_inr.
    set (w1 := World (datastore w) _ (logged w)).
    rewrite (bind_run _ _ w1 w1 true); cycle 1.
    { apply try_except_returned. by rewrite Hval, bind_call_inr. }
    cbn [negb]. rewrite (proj2 (Z.eqb_neq _ _) Hne). cbn [negb].
    rewrite bind_trace, bind_get_store. cbn [datastore].
    fold (migration_commit_cmds item). fold (migration_commit_message item).
    change (datastore w1) with (datastore w).
    rewrite Hupd, bind_call_inr.
    unfold bind, set_store, yield. cbn [res yielded after datastore app]. done.
Qed.

Lemma jobs_datastore_effects_witness :
  datastore (after (@job_map Demo.host JExplorationValidityJobManager
                      (Demo.item "" 3 43 false) (Demo.world_of Demo.store3))) = Demo.store3
  ∧ datastore (after (@ExplorationMigrationJobManager.map Demo.host
                        (Demo.item "title" 3 43 false) (Demo.world_of Demo.store3)))
    = Demo.store3
  ∧ ∃ m,
      res (@regenerate_exp_commit_log_model Demo.host (Demo.item "title" 3 43 false) 3
             (Demo.world_of Demo.store3)) = Returned m
      ∧ commit_log_entries
          (datastore (after (@RegenerateMissingExpCommitLogModels.map Demo.host
                               (Demo.item "title" 3 43 false) (Demo.world_of Demo.store3))))
          !! "exploration-exp1-3" = Some m
      ∧ ("Regenerated Exploration Commit Log Model: version 3", PStr "exp1")
          ∈ yielded (@RegenerateMissingExpCommitLogModels.map Demo.host
                       (Demo.item "title" 3 43 false) (Demo.world_of Demo.store3)).
Proof.
  split_and!.
  - by apply (@jobs_datastore_effects Demo.host JExplorationValidityJobManager
                (Demo.item "" 3 43 false) "" [] (Demo.world_of Demo.store3)).
  - by apply (@jobs_datastore_effects Demo.host JExplorationValidityJobManager
                (Demo.item "title" 3 43 false) "" [] (Demo.world_of Demo.store3)).
  - destruct (@jobs_datastore_effects Demo.host JExplorationValidityJobManager
                (Demo.item "title" 3 43 false) "" [] (Demo.world_of Demo.store3))
      as (_ & _ & _ & Hputs & _).
    apply (Hputs 3 eq_refl).
    + cbn. lia.
    + vm_compute. reflexivity.
    + eexists. vm_compute. reflexivity.
    + intros u Hu _. assert (u = 1 ∨ u = 2 ∨ u = 3) as [-> | [-> | ->]] by lia;
        eexists; vm_compute; reflexivity.
Defined.

(** C2, counterexample. Run on an exploration at version 3 that has no commit
    log entry, [RegenerateMissingExpCommitLogModels.map] puts three entities:
    the datastore, which had no commit log entry, holds the regenerated entry
    of version 3 afterwards. *)
Lemma map_persists_entities_counterexample :
  commit_log_entries Demo.store3 !! "exploration-exp1-3" = None
  ∧ commit_log_entries
      (datastore (after (@job_map Demo.host JRegenerateMissingExpCommitLogModels
                           (Demo.item "title" 3 43 false) (Demo.world_of Demo.store3))))
    !! "exploration-exp1-3" =
    Some {| ExplorationCommitLogEntryModel.id := "exploration-exp1-3";
            ExplorationCommitLogEntryModel.user_id := "user1";
            ExplorationCommitLogEntryModel.commit_type := "edit";
            ExplorationCommitLogEntryModel.commit_message := "message";
            ExplorationCommitLogEntryModel.commit_cmds := PList [];
            ExplorationCommitLogEntryModel.version := 3;
            ExplorationCommitLogEntryModel.post_commit_status := "public";
            ExplorationCommitLogEntryModel.post_commit_community_owned := false;
            ExplorationCommitLogEntryModel.post_commit_is_private := false;
            ExplorationCommitLogEntryModel.exploration_id := "exp1";
            ExplorationCommitLogEntryModel.created_on := Some 250;
            ExplorationCommitLogEntryModel.last_updated := Some 250 |}
  ∧ List.filter is_write
      (ds_trace (after (@job_map Demo.host JRegenerateMissingExpCommitLogModels
                          (Demo.item "title" 3 43 false) (Demo.world_of Demo.store3)))) =
    [ DsPut "ExplorationCommitLogEntryModel" "exploration-exp1-1";
      DsPut "ExplorationCommitLogEntryModel" "exploration-exp1-2";
      DsPut "ExplorationCommitLogEntryModel" "exploration-exp1-3" ].
Proof. split_and!; vm_compute; reflexivity. Qed.
